(** * GNU bc numbers over GMP: a shallow embedding of [lib/number.c]

    The library stores a decimal fixed-point number as a GMP integer
    [n_value] together with a scale [n_scale]; the number denoted is
    [n_value / 10 ^ n_scale].  Numbers live in reference-counted cells
    ([bc_struct]) that are recycled through a free list.

    The development has two layers, both transcribed from the C source.

    - The value layer ([Module Val]) reads a [bc_num] handle as the
      pair (scale, value) stored in the cell it points to.  Every routine is a
      function from the contents of its operands to the contents of the cell
      it installs in its result slot.
    - The storage layer ([Module Heap]) keeps the cells, the reference
      counts, the free list, the three shared constants and the host
      call-backs, and follows the C statements one by one.

    Conventions.  The C types [int] and [long] are read as [Z]; signed
    overflow is undefined behaviour in C and is not part of the model.  The
    widths of the two types are observable in three places, which take the
    constants [LONG_MAX] and [INT_MAX] of the host's [limits.h] as section
    variables: [bc_num2long] tests whether a value fits a [long];
    [bc_raise] stores two [long] values in [int] variables; [bc_int2num]
    receives its argument as an [int].  A [long] stored in an [int] keeps
    its value when it fits and is reduced modulo [2 * (INT_MAX + 1)]
    otherwise ([int_of_long]).  [bc_out_num] also stores a [long] in an
    [int]: a digit, smaller in magnitude than the output base, which is an
    [int] itself, so that the value is kept.  GMP integers are [Z];
    [mpz_tdiv_q] is [Z.quot], [mpz_pow_ui] is [Z.pow] on a non-negative
    exponent and [mpz_sqrt] is [Z.sqrt]. *)

From Stdlib Require Import ZArith QArith Qround Qpower Lia List Ascii String Bool.
From stdpp Require Import base tactics option list strings gmap.

Local Open Scope Z_scope.

(** * Value layer *)

Module Val.

(** ** Value layer: the data *)

(** The two fields of [bc_struct] that carry the number. *)
Record number : Type := mk_num { n_scale : Z; n_value : Z }.

(** The macros of [number.h]. *)
Definition MAX (a b : Z) : Z := if a >? b then a else b.
Definition MIN (a b : Z) : Z := if a >? b then b else a.

(** Contents of the three shared constants after [bc_init_numbers]. *)
Definition _zero_ : number := mk_num 0 0.
Definition _one_ : number := mk_num 0 1.
Definition _two_ : number := mk_num 0 2.

(** The GMP comparison routines, normalised to -1, 0, 1. *)
Definition mpz_cmp (a b : Z) : Z :=
  match a ?= b with Lt => -1 | Eq => 0 | Gt => 1 end.

Definition mpz_cmpabs (a b : Z) : Z := mpz_cmp (Z.abs a) (Z.abs b).

(** The rational number a cell denotes. *)
Definition bc_val (n : number) : Q :=
  inject_Z (n_value n) / inject_Z (10 ^ n_scale n).

(** ** Value layer: comparison and predicates *)

Definition _bc_do_compare (n1 n2 : number) (use_sign : bool) : Z :=
  let result :=
    if n_scale n1 >? n_scale n2 then
      let step := 10 ^ (n_scale n1 - n_scale n2) in
      let copy := n_value n2 * step in
      if use_sign then mpz_cmp (n_value n1) copy
      else mpz_cmpabs (n_value n1) copy
    else if n_scale n1 <? n_scale n2 then
      let step := 10 ^ (n_scale n2 - n_scale n1) in
      let copy := n_value n1 * step in
      if use_sign then mpz_cmp copy (n_value n2)
      else mpz_cmpabs copy (n_value n2)
    else
      if use_sign then mpz_cmp (n_value n1) (n_value n2)
      else mpz_cmpabs (n_value n1) (n_value n2) in
  let result := if result <? 0 then -1 else result in
  let result := if result >? 0 then 1 else result in
  result.

Definition bc_compare (n1 n2 : number) : Z := _bc_do_compare n1 n2 true.

Definition bc_is_neg (n : number) : bool := Z.sgn (n_value n) =? -1.

Definition bc_is_zero (n : number) : bool := Z.sgn (n_value n) =? 0.

(** ** Value layer: addition, subtraction, multiplication *)

Definition bc_sub (n1 n2 : number) (scale_min : Z) : number :=
  let diff_scale := MAX (n_scale n1) (n_scale n2) in
  let diff :=
    if n_scale n1 >? n_scale n2 then
      let step := 10 ^ (n_scale n1 - n_scale n2) in
      n_value n1 - n_value n2 * step
    else if n_scale n1 <? n_scale n2 then
      let step := 10 ^ (n_scale n2 - n_scale n1) in
      n_value n1 * step - n_value n2
    else n_value n1 - n_value n2 in
  let diff :=
    if diff_scale <? scale_min then diff * 10 ^ (scale_min - diff_scale)
    else diff in
  mk_num (MAX diff_scale scale_min) diff.

Definition bc_add (n1 n2 : number) (scale_min : Z) : number :=
  let sum_scale := MAX (n_scale n1) (n_scale n2) in
  let sum :=
    if n_scale n1 >? n_scale n2 then
      let step := 10 ^ (n_scale n1 - n_scale n2) in
      n_value n1 + n_value n2 * step
    else if n_scale n1 <? n_scale n2 then
      let step := 10 ^ (n_scale n2 - n_scale n1) in
      n_value n1 * step + n_value n2
    else n_value n1 + n_value n2 in
  let sum :=
    if sum_scale <? scale_min then sum * 10 ^ (scale_min - sum_scale)
    else sum in
  mk_num (MAX sum_scale scale_min) sum.

Definition bc_multiply (n1 n2 : number) (scale : Z) : number :=
  let full_scale := n_scale n1 + n_scale n2 in
  let prod_scale :=
    MIN full_scale (MAX scale (MAX (n_scale n1) (n_scale n2))) in
  let pval := n_value n1 * n_value n2 in
  let pval :=
    if full_scale >? prod_scale
    then Z.quot pval (10 ^ (full_scale - prod_scale))
    else pval in
  mk_num prod_scale pval.

(** ** Value layer: division

    A routine with an [int] status returns [None] where the C code returns
    -1 before touching its result slot, and [Some] of the installed contents
    where it returns 0. *)

Definition bc_divide (n1 n2 : number) (scale : Z) : option number :=
  if bc_is_zero n2 then None
  else
    let step_amt := n_scale n2 + scale - n_scale n1 in
    let qval :=
      if negb (step_amt =? 0) then
        let qval :=
          if step_amt >? 0 then n_value n1 * 10 ^ step_amt
          else Z.quot (n_value n1) (10 ^ (- step_amt)) in
        Z.quot qval (n_value n2)
      else Z.quot (n_value n1) (n_value n2) in
    Some (mk_num scale qval).

(** [bc_divmod] ignores the status of its inner [bc_divide]: were it to
    fail, [temp] would keep the share of [_zero_] it was initialised with.
    The pair returned is (quotient, remainder); the quotient is installed
    only when the caller passes a slot for it. *)
Definition bc_divmod (num1 num2 : number) (scale : Z) : option (number * number) :=
  if bc_is_zero num2 then None
  else
    let rscale := MAX (n_scale num1) (n_scale num2 + scale) in
    let temp := _zero_ in
    let temp := default temp (bc_divide num1 num2 scale) in
    let quotient := temp in
    let temp := bc_multiply temp num2 rscale in
    let rem := bc_sub num1 temp rscale in
    Some (quotient, rem).

Definition bc_modulo (num1 num2 : number) (scale : Z) : option number :=
  snd <$> bc_divmod num1 num2 scale.

(** ** Value layer: conversion to a machine integer

    [LONG_MAX] is the constant of the host's [limits.h]; [long] ranges over
    [-LONG_MAX - 1 .. LONG_MAX], which is also what [mpz_fits_slong_p]
    tests. *)

Section HostLong.

Variable LONG_MAX : Z.

Definition mpz_fits_slong_p (z : Z) : bool :=
  (- LONG_MAX - 1 <=? z) && (z <=? LONG_MAX).

Definition bc_num2long (num : number) : Z :=
  if n_scale num >? 0 then
    let step := 10 ^ n_scale num in
    let copy := Z.quot (n_value num) step in
    if negb (mpz_fits_slong_p copy) then 0
    else
      let val := copy in
      if val =? - LONG_MAX - 1 then 0 else val
  else
    if negb (mpz_fits_slong_p (n_value num)) then 0
    else
      let val := n_value num in
      if val =? - LONG_MAX - 1 then 0 else val.

(** ** Value layer: a [long] stored in an [int]

    [INT_MAX] is the constant of the host's [limits.h].  C leaves the result
    of storing an out-of-range [long] in an [int] to the implementation; the
    compilers of the hosts of bc keep the low bits, so the value is reduced
    modulo [2 * (INT_MAX + 1)] into [- INT_MAX - 1 .. INT_MAX]. *)

Variable INT_MAX : Z.

Definition int_of_long (z : Z) : Z :=
  (z + (INT_MAX + 1)) mod (2 * (INT_MAX + 1)) - (INT_MAX + 1).

(** ** Value layer: powers

    The run-time warning and error of [bc_raise] go to the host; they are
    recorded in the storage layer.  The host's [rt_error] returns, so the
    routine continues with [exponent = 0].  [None] is the case in which the
    final [bc_divide] refuses a zero divisor and the slot is not written.

    [exponent] is a [long] while [rscale] and [diffscale] are [int]: the
    products [num1->n_scale*exponent] are computed in [long] and the two
    assignments narrow them. *)

Definition bc_raise (num1 num2 : number) (scale : Z) : option number :=
  let exponent := bc_num2long num2 in
  if exponent =? 0 then Some _one_
  else
    let '(neg, exponent, rscale) :=
      if exponent <? 0 then (true, - exponent, scale)
      else (false, exponent,
            int_of_long
              (MIN (n_scale num1 * exponent) (MAX scale (n_scale num1)))) in
    let diffscale := int_of_long (n_scale num1 * exponent - rscale) in
    let tval := n_value num1 ^ exponent in
    let tval :=
      if negb (diffscale =? 0) then
        if diffscale <? 0 then tval * 10 ^ (- diffscale)
        else Z.quot tval (10 ^ diffscale)
      else tval in
    let temp := mk_num rscale tval in
    if neg then bc_divide _one_ temp rscale else Some temp.

End HostLong.

(** The loop of [bc_raisemod].  One unit of [fuel] pays for one iteration;
    the caller supplies the number of binary digits of the exponent.  The
    statuses of [bc_divmod] and [bc_modulo] are discarded by the C code, so
    a refused call leaves the variable as it was. *)
Fixpoint raisemod_loop (fuel : nat) (modulus : number) (scale rscale : Z)
    (power exponent temp parity : number) : option number :=
  if bc_is_zero exponent then Some temp
  else
    match fuel with
    | O => None
    | S fuel =>
      let '(exponent, parity) :=
        default (exponent, parity) (bc_divmod exponent _two_ 0) in
      let temp :=
        if negb (bc_is_zero parity) then
          let temp := bc_multiply temp power rscale in
          default temp (bc_modulo temp modulus scale)
        else temp in
      let power := bc_multiply power power rscale in
      let power := default power (bc_modulo power modulus scale) in
      raisemod_loop fuel modulus scale rscale power exponent temp parity
    end.

Definition loop_fuel (exponent : number) : nat :=
  S (Z.to_nat (Z.log2 (Z.abs (n_value exponent)))).

Definition bc_raisemod (base expo modulus : number) (scale : Z) : option number :=
  if bc_is_zero modulus then None
  else if bc_is_neg expo then None
  else
    let power := base in
    let exponent := expo in
    let temp := _one_ in
    let parity := _zero_ in
    let exponent :=
      if negb (n_scale exponent =? 0)
      then default exponent (bc_divide exponent _one_ 0)
      else exponent in
    let rscale := MAX scale (n_scale base) in
    raisemod_loop (loop_fuel exponent) modulus scale rscale
      power exponent temp parity.

(** ** Value layer: square root

    [None] is the return of 0 for a negative argument; the slot keeps its
    contents.  Zero and one are answered with a share of the constant. *)

Definition bc_sqrt (num : number) (scale : Z) : option number :=
  let cmp_res := bc_compare num _zero_ in
  if cmp_res <? 0 then None
  else if cmp_res =? 0 then Some _zero_
  else
    let cmp_res := bc_compare num _one_ in
    if cmp_res =? 0 then Some _one_
    else
      let rscale := MAX scale (n_scale num) in
      let step_amt := n_scale num + 2 * (rscale - n_scale num) in
      let rval :=
        if negb (step_amt =? 0) then
          let rval :=
            if step_amt >? 0 then n_value num * 10 ^ step_amt
            else Z.quot (n_value num) (10 ^ (- step_amt)) in
          Z.sqrt rval
        else Z.sqrt (n_value num) in
      Some (mk_num rscale rval).

(** [bc_int2num] is used in this layer on [int] arguments only: the output
    base, the base minus one and a digit of [bc_out_num].  The conversion
    of a wider argument to [int] is in the storage layer. *)
Definition bc_int2num (val : Z) : number := mk_num 0 val.

(** ** Value layer: C strings and decimal text

    A C string is the [string] of its characters before the terminating
    NUL.  [peek] is [*ptr] and [advance] is [ptr++]. *)

Definition NUL : ascii := Ascii.zero.

Definition peek (ptr : string) : ascii :=
  match ptr with EmptyString => NUL | String c _ => c end.

Definition advance (ptr : string) : string :=
  match ptr with EmptyString => EmptyString | String _ rest => rest end.

(** [isdigit] in the C locale. *)
Definition isdigit (c : ascii) : bool :=
  (48 <=? Z.of_nat (nat_of_ascii c)) && (Z.of_nat (nat_of_ascii c) <=? 57).

(** The character ['0' + d]. *)
Definition digit_char (d : Z) : ascii := ascii_of_nat (48 + Z.to_nat d).

Definition digit_value (c : ascii) : Z := Z.of_nat (nat_of_ascii c) - 48.

(** The decimal digits of a non-negative integer, most significant first,
    pushed in front of [acc]; [fuel] bounds the number of digits. *)
Fixpoint dec_digits (fuel : nat) (n : Z) (acc : string) : string :=
  match fuel with
  | O => acc
  | S fuel =>
    let acc := String (digit_char (n mod 10)) acc in
    if n <? 10 then acc else dec_digits fuel (n / 10) acc
  end.

(** What GMP's and libc's [printf] family write for ["%Zd"] and ["%ld"]:
    a minus sign for a negative number, then the decimal digits without
    leading zeros. *)
Definition sprintf_d (z : Z) : string :=
  (if z <? 0 then "-"%string else ""%string)
  +:+ dec_digits (S (Z.to_nat (Z.log2 (Z.abs z)))) (Z.abs z) "".

Definition strlen (s : string) : Z := Z.of_nat (String.length s).

(** The value of the leading run of decimal digits of [s], continuing from
    the value [acc] of the digits already read. *)
Fixpoint scan_digits (acc : Z) (s : string) : Z :=
  match s with
  | String c rest =>
    if isdigit c then scan_digits (10 * acc + digit_value c) rest else acc
  | EmptyString => acc
  end.

(** What [gmp_sscanf] stores for ["%Zd"] on the text [bc_str2num] hands
    it: an optional minus sign followed by decimal digits.  When no digit
    follows, nothing is converted and the integer keeps its value [old]. *)
Definition gmp_sscanf_Zd (nptr : string) (old : Z) : Z :=
  let '(neg, body) :=
    if Ascii.eqb (peek nptr) "-" then (true, advance nptr)
    else (false, nptr) in
  if isdigit (peek body)
  then (if neg then - scan_digits 0 body else scan_digits 0 body)
  else old.

(** [n] rounds of [*sptr++ = *iptr++]: the characters copied and the new
    position of [iptr]. *)
Fixpoint copy_chars (n : nat) (iptr : string) : string * string :=
  match n, iptr with
  | S n, String c rest =>
    let '(copied, iptr) := copy_chars n rest in (String c copied, iptr)
  | _, _ => (EmptyString, iptr)
  end.

(** [n] characters ['0']. *)
Fixpoint zeros (n : nat) : string :=
  match n with O => EmptyString | S n => String "0" (zeros n) end.

(** ** Value layer: [bc_num2str]

    The text is built front to back; a copying loop that counts [i] down
    from a non-positive start does nothing. *)

Definition bc_num2str (num : number) : string :=
  let signch := bc_is_neg num in
  let nptr := sprintf_d (n_value num) in
  let n_len := strlen nptr in
  let str := ""%string in
  let '(str, iptr, n_len) :=
    if signch then (str +:+ "-", advance nptr, n_len - 1)
    else (str, nptr, n_len) in
  if n_len >=? n_scale num then
    let '(whole, iptr) := copy_chars (Z.to_nat (n_len - n_scale num)) iptr in
    let str := str +:+ whole in
    if n_scale num >? 0 then
      let '(frac, iptr) := copy_chars (Z.to_nat (n_scale num)) iptr in
      str +:+ "." +:+ frac
    else str
  else
    let str := str +:+ "." in
    let str := str +:+ zeros (Z.to_nat (n_scale num - n_len)) in
    let '(digs, iptr) := copy_chars (Z.to_nat n_len) iptr in
    str +:+ digs.

(** ** Value layer: [bc_str2num] *)

(** The loop [while ( *ptr == '0') ptr++;] *)
Fixpoint skip_zeros (ptr : string) : string :=
  match ptr with
  | String c rest => if Ascii.eqb c "0" then skip_zeros rest else ptr
  | EmptyString => ptr
  end.

(** The loop [while (isdigit ( *ptr)) ptr++, count++;] and its copying
    variant [while (isdigit ( *ptr)) *iptr++ = *ptr++;]: the digits passed over and
    the new position of [ptr]. *)
Fixpoint span_digits (ptr : string) : string * string :=
  match ptr with
  | String c rest =>
    if isdigit c
    then let '(ds, ptr) := span_digits rest in (String c ds, ptr)
    else (EmptyString, ptr)
  | EmptyString => (EmptyString, ptr)
  end.

(** The loop
    [while (isdigit ( *ptr) && strscale > 0) *iptr++ = *ptr++, strscale--;] *)
Fixpoint span_digits_upto (strscale : nat) (ptr : string) : string * string :=
  match strscale, ptr with
  | S strscale, String c rest =>
    if isdigit c
    then let '(ds, ptr) := span_digits_upto strscale rest in (String c ds, ptr)
    else (EmptyString, ptr)
  | _, _ => (EmptyString, ptr)
  end.

Definition bc_str2num (str : string) (scale : Z) : number :=
  (* Check for valid number and count digits. *)
  let ptr := str in
  let ptr :=
    if Ascii.eqb (peek ptr) "+" || Ascii.eqb (peek ptr) "-"
    then advance ptr else ptr in
  let ptr := skip_zeros ptr in
  let '(ds, ptr) := span_digits ptr in
  let digits := strlen ds in
  let ptr := if Ascii.eqb (peek ptr) "." then advance ptr else ptr in
  let '(fs, ptr) := span_digits ptr in
  let strscale := strlen fs in
  if negb (Ascii.eqb (peek ptr) NUL) || (digits + strscale =? 0) then _zero_
  else
    (* Adjust numbers. *)
    let strscale := MIN strscale scale in
    let n_scale := strscale in
    (* Copy relevant portion of string. *)
    let ptr := str in
    let nptr := ""%string in
    let ptr := if Ascii.eqb (peek ptr) "+" then advance ptr else ptr in
    let '(nptr, ptr) :=
      if Ascii.eqb (peek ptr) "-"
      then (nptr +:+ String (peek ptr) "", advance ptr) else (nptr, ptr) in
    let ptr := skip_zeros ptr in
    let '(ds, ptr) := span_digits ptr in
    let nptr := nptr +:+ ds in
    let ptr := if Ascii.eqb (peek ptr) "." then advance ptr else ptr in
    let '(fs, ptr) := span_digits_upto (Z.to_nat strscale) ptr in
    let nptr := nptr +:+ fs in
    (* Read in. *)
    mk_num n_scale (gmp_sscanf_Zd nptr 0).

(** The number of decimal digits of the stored integer. *)
Definition bc_num_length (num : number) : Z :=
  let nptr := sprintf_d (n_value num) in
  let n_len := strlen nptr in
  if Ascii.eqb (peek nptr) "-" then n_len - 1 else n_len.

(** ** Value layer: output in an arbitrary base

    The characters handed to [out_char], in order, are collected in a
    [string]. *)

(** The reference string for digits, and [ref_str[i]]. *)
Definition ref_str : string := "0123456789ABCDEF".

Definition ref_char (i : Z) : ascii :=
  default NUL (String.get (Z.to_nat i) ref_str).

Definition bc_out_long (val size space : Z) : string :=
  let lead := if negb (space =? 0) then " "%string else ""%string in
  let digits := sprintf_d val in
  let len := strlen digits in
  lead +:+ zeros (Z.to_nat (size - len)) +:+ digits.

Section HostLongOutput.

Variable LONG_MAX : Z.

(** The loop that pushes the digits of the integer part on a stack, least
    significant first; the stack is the list [digits], top first.  [fuel]
    bounds the number of iterations. *)
Fixpoint int_digits_loop (fuel : nat) (int_part base cur_dig : number)
    (digits : list Z) : option (list Z) :=
  if bc_is_zero int_part then Some digits
  else
    match fuel with
    | O => None
    | S fuel =>
      let cur_dig := default cur_dig (bc_modulo int_part base 0) in
      let digits := bc_num2long LONG_MAX cur_dig :: digits in
      let int_part := default int_part (bc_divide int_part base 0) in
      int_digits_loop fuel int_part base cur_dig digits
    end.

(** Printing the stack, top first. *)
Fixpoint print_digits (o_base ix : Z) (digits : list Z) : string :=
  match digits with
  | [] => ""
  | digit :: digits =>
    (if o_base <=? 16 then String (ref_char digit) ""
     else bc_out_long digit ix 1)
    +:+ print_digits o_base ix digits
  end.

(** The loop that prints the fraction; [scale] is [num->n_scale]. *)
Fixpoint frac_digits_loop (fuel : nat) (o_base ix scale : Z) (base : number)
    (frac_part t_num : number) (pre_space : Z) : option string :=
  let t_len := bc_num_length t_num in
  if t_len <=? scale then
    match fuel with
    | O => None
    | S fuel =>
      let frac_part := bc_multiply frac_part base scale in
      let fdigit := bc_num2long LONG_MAX frac_part in
      let int_part := bc_int2num fdigit in
      let frac_part := bc_sub frac_part int_part 0 in
      let '(out, pre_space) :=
        if o_base <=? 16 then (String (ref_char fdigit) "", pre_space)
        else (bc_out_long fdigit ix pre_space, 1) in
      let t_num := bc_multiply t_num base 0 in
      (fun rest => out +:+ rest)
        <$> frac_digits_loop fuel o_base ix scale base frac_part t_num
              pre_space
    end
  else Some ""%string.

(** [None] stands for a call that does not return: with a base below 2
    the digit loops never finish. *)
Definition bc_out_num (num : number) (o_base : Z) (leading_zero : Z)
  : option string :=
  let sign := if bc_is_neg num then "-"%string else ""%string in
  if bc_is_zero num then Some (sign +:+ "0")
  else if o_base =? 10 then
    let nptr := bc_num2str num in
    let iptr := if Ascii.eqb (peek nptr) "-" then advance nptr else nptr in
    Some (sign +:+ iptr)
  else
    let lead :=
      if negb (leading_zero =? 0) && bc_is_zero num
      then "0"%string else ""%string in
    let int_part := default _zero_ (bc_divide num _one_ 0) in
    let frac_part := bc_sub num int_part 0 in
    let int_part := mk_num (n_scale int_part) (Z.abs (n_value int_part)) in
    let frac_part := mk_num (n_scale frac_part) (Z.abs (n_value frac_part)) in
    let base := bc_int2num o_base in
    let max_o_digit := bc_int2num (o_base - 1) in
    let ix := strlen (bc_num2str max_o_digit) in
    match int_digits_loop (loop_fuel int_part) int_part base _zero_ [] with
    | None => None
    | Some digits =>
      let ints := print_digits o_base ix digits in
      let fraction :=
        if n_scale num >? 0 then
          (fun rest => "." +:+ rest)
            <$> frac_digits_loop (Z.to_nat (4 * n_scale num)) o_base ix
                  (n_scale num) base frac_part _one_ 0
        else Some ""%string in
      (fun fr => sign +:+ lead +:+ ints +:+ fr) <$> fraction
    end.

End HostLongOutput.

End Val.

Import Val.

(** * Storage layer *)

Module Heap.

(** ** Cells, handles and the store

    A [bc_num] is a pointer to a [bc_struct]; the null pointer is [None].
    Cells are addressed by their index in the list of all cells ever
    obtained from [bc_num_malloc].  An [mpz_t] that has not been
    initialised, or has been cleared, holds no integer. *)

Abbreviation addr := nat.
Definition bc_num := option addr.
Definition mpz_t := option Z.

Record bc_struct : Type := mk_struct {
  n_scale : Z;      (* The number of digits after the decimal point. *)
  n_refs : Z;       (* The number of pointers to this number. *)
  n_next : bc_num;  (* Linked list for available list. *)
  n_value : mpz_t   (* The number. *)
}.

(** The calls made to the two host routines. *)
Inductive host_call : Type :=
| rt_warn (mesg : string)
| rt_error (mesg : string).

Record heap : Type := mk_heap {
  cells : list bc_struct;
  _bc_Free_list : bc_num;
  _zero_ : bc_num;
  _one_ : bc_num;
  _two_ : bc_num;
  host_calls : list host_call   (* oldest call first *)
}.

(** ** The monad: state, and failure for undefined behaviour

    A computation fails when it dereferences a null or unallocated pointer,
    reads an integer that is not initialised, or runs out of fuel in a
    loop. *)

Definition M (A : Type) : Type := heap -> option (A * heap).

Definition ret {A} (x : A) : M A := fun h => Some (x, h).

Definition bind {A B} (m : M A) (k : A -> M B) : M B :=
  fun h => match m h with Some (x, h') => k x h' | None => None end.

Definition fail {A} : M A := fun _ => None.

Notation "x <- c1 ;; c2" := (bind c1 (fun x => c2))
  (at level 100, c1 at next level, right associativity).
Notation "c1 ;;; c2" := (bind c1 (fun _ => c2))
  (at level 100, right associativity).

Definition gets {A} (f : heap -> A) : M A := fun h => Some (f h, h).

(** ** Access to the fields of a cell *)

Definition deref (num : bc_num) : M bc_struct :=
  fun h =>
    match num with
    | None => None
    | Some a => match cells h !! a with Some c => Some (c, h) | None => None end
    end.

Definition with_cells (h : heap) (cs : list bc_struct) : heap :=
  mk_heap cs (_bc_Free_list h) (_zero_ h) (_one_ h) (_two_ h) (host_calls h).

(** Assignment to fields of the cell at [a]. *)
Definition update (a : addr) (f : bc_struct -> bc_struct) : M unit :=
  fun h =>
    match cells h !! a with
    | Some c => Some (tt, with_cells h (<[a:=f c]> (cells h)))
    | None => None
    end.

Definition get_scale (num : bc_num) : M Z := c <- deref num ;; ret (n_scale c).
Definition get_refs (num : bc_num) : M Z := c <- deref num ;; ret (n_refs c).
Definition get_next (num : bc_num) : M bc_num :=
  c <- deref num ;; ret (n_next c).

(** Reading [num->n_value] as an operand of a GMP routine. *)
Definition mpz_get (num : bc_num) : M Z :=
  c <- deref num ;;
  match n_value c with Some z => ret z | None => fail end.

Definition set_scale (a : addr) (scale : Z) : M unit :=
  update a (fun c => mk_struct scale (n_refs c) (n_next c) (n_value c)).

Definition set_refs (a : addr) (refs : Z) : M unit :=
  update a (fun c => mk_struct (n_scale c) refs (n_next c) (n_value c)).

Definition set_next (a : addr) (next : bc_num) : M unit :=
  update a (fun c => mk_struct (n_scale c) (n_refs c) next (n_value c)).

Definition mpz_init (a : addr) : M unit :=
  update a (fun c => mk_struct (n_scale c) (n_refs c) (n_next c) (Some 0)).

Definition mpz_clear (a : addr) : M unit :=
  update a (fun c => mk_struct (n_scale c) (n_refs c) (n_next c) None).

(** Writing [num->n_value] as the result of a GMP routine; the integer must
    have been initialised. *)
Definition mpz_set (num : bc_num) (z : Z) : M unit :=
  c <- deref num ;;
  match num, n_value c with
  | Some a, Some _ =>
    update a (fun c => mk_struct (n_scale c) (n_refs c) (n_next c) (Some z))
  | _, _ => fail
  end.

Definition set_Free_list (p : bc_num) : M unit :=
  fun h => Some (tt, mk_heap (cells h) p (_zero_ h) (_one_ h) (_two_ h)
                       (host_calls h)).

Definition set_zero (p : bc_num) : M unit :=
  fun h => Some (tt, mk_heap (cells h) (_bc_Free_list h) p (_one_ h)
                       (_two_ h) (host_calls h)).

Definition set_one (p : bc_num) : M unit :=
  fun h => Some (tt, mk_heap (cells h) (_bc_Free_list h) (_zero_ h) p
                       (_two_ h) (host_calls h)).

Definition set_two (p : bc_num) : M unit :=
  fun h => Some (tt, mk_heap (cells h) (_bc_Free_list h) (_zero_ h)
                       (_one_ h) p (host_calls h)).

(** The host routines return to their caller. *)
Definition bc_rt_warn (mesg : string) : M unit :=
  fun h => Some (tt, mk_heap (cells h) (_bc_Free_list h) (_zero_ h)
                       (_one_ h) (_two_ h) (host_calls h ++ [rt_warn mesg])).

Definition bc_rt_error (mesg : string) : M unit :=
  fun h => Some (tt, mk_heap (cells h) (_bc_Free_list h) (_zero_ h)
                       (_one_ h) (_two_ h) (host_calls h ++ [rt_error mesg])).

(** A block from the host allocator: a new address, contents not
    initialised. *)
Definition bc_num_malloc : M addr :=
  fun h =>
    Some (length (cells h),
          with_cells h (cells h ++ [mk_struct 0 0 None None])).

(** ** Allocation and sharing *)

Definition bc_new_num (length scale : Z) : M bc_num :=
  fl <- gets _bc_Free_list ;;
  temp <- match fl with
          | Some t =>
            next <- get_next fl ;;
            set_Free_list next ;;;
            ret t
          | None => bc_num_malloc
          end ;;
  set_scale temp scale ;;;
  set_refs temp 1 ;;;
  mpz_init temp ;;;
  ret (Some temp).

(** A parameter [bc_num *num] is the contents of the caller's variable on
    entry; the routine returns the contents on exit.  [bc_free_num] leaves
    the variable null. *)
Definition bc_free_num (num : bc_num) : M bc_num :=
  match num with
  | None => ret None
  | Some a =>
    refs <- get_refs num ;;
    set_refs a (refs - 1) ;;;
    refs <- get_refs num ;;
    (if refs =? 0 then
       mpz_clear a ;;;
       fl <- gets _bc_Free_list ;;
       set_next a fl ;;;
       set_Free_list num
     else ret tt) ;;;
    ret None
  end.

Definition bc_init_numbers : M unit :=
  z <- bc_new_num 1 0 ;;
  set_zero z ;;;
  o <- bc_new_num 1 0 ;;
  set_one o ;;;
  mpz_set o 1 ;;;
  t <- bc_new_num 1 0 ;;
  set_two t ;;;
  mpz_set t 2.

Definition bc_copy_num (num : bc_num) : M bc_num :=
  match num with
  | None => fail
  | Some a =>
    refs <- get_refs num ;;
    set_refs a (refs + 1) ;;;
    ret num
  end.

Definition bc_init_num : M bc_num :=
  z <- gets _zero_ ;;
  bc_copy_num z.

(** ** Routines that only read their operands

    They read the scale and the integer of each operand and compute as in
    the value layer. *)

Definition read_num (num : bc_num) : M Val.number :=
  scale <- get_scale num ;;
  value <- mpz_get num ;;
  ret (Val.mk_num scale value).

Definition _bc_do_compare (n1 n2 : bc_num) (use_sign : bool) : M Z :=
  a <- read_num n1 ;;
  b <- read_num n2 ;;
  ret (Val._bc_do_compare a b use_sign).

Definition bc_compare (n1 n2 : bc_num) : M Z := _bc_do_compare n1 n2 true.

Definition bc_is_neg (num : bc_num) : M bool :=
  a <- read_num num ;; ret (Val.bc_is_neg a).

Definition bc_is_zero (num : bc_num) : M bool :=
  a <- read_num num ;; ret (Val.bc_is_zero a).

Definition bc_num2long (LONG_MAX : Z) (num : bc_num) : M Z :=
  a <- read_num num ;; ret (Val.bc_num2long LONG_MAX a).

(** ** Arithmetic *)

Definition bc_sub (n1 n2 : bc_num) (result : bc_num) (scale_min : Z)
  : M bc_num :=
  s1 <- get_scale n1 ;;
  s2 <- get_scale n2 ;;
  let diff_scale := MAX s1 s2 in
  diff <- bc_new_num 1 (MAX diff_scale scale_min) ;;
  s1 <- get_scale n1 ;;
  s2 <- get_scale n2 ;;
  (if s1 >? s2 then
     copy <- mpz_get n2 ;;
     let step := 10 ^ (s1 - s2) in
     let copy := copy * step in
     v1 <- mpz_get n1 ;;
     mpz_set diff (v1 - copy)
   else if s1 <? s2 then
     copy <- mpz_get n1 ;;
     let step := 10 ^ (s2 - s1) in
     let copy := copy * step in
     v2 <- mpz_get n2 ;;
     mpz_set diff (copy - v2)
   else
     v1 <- mpz_get n1 ;;
     v2 <- mpz_get n2 ;;
     mpz_set diff (v1 - v2)) ;;;
  (if diff_scale <? scale_min then
     let step := 10 ^ (scale_min - diff_scale) in
     d <- mpz_get diff ;;
     mpz_set diff (d * step)
   else ret tt) ;;;
  bc_free_num result ;;;
  ret diff.

Definition bc_add (n1 n2 : bc_num) (result : bc_num) (scale_min : Z)
  : M bc_num :=
  s1 <- get_scale n1 ;;
  s2 <- get_scale n2 ;;
  let sum_scale := MAX s1 s2 in
  sum <- bc_new_num 1 (MAX sum_scale scale_min) ;;
  s1 <- get_scale n1 ;;
  s2 <- get_scale n2 ;;
  (if s1 >? s2 then
     copy <- mpz_get n2 ;;
     let step := 10 ^ (s1 - s2) in
     let copy := copy * step in
     v1 <- mpz_get n1 ;;
     mpz_set sum (v1 + copy)
   else if s1 <? s2 then
     copy <- mpz_get n1 ;;
     let step := 10 ^ (s2 - s1) in
     let copy := copy * step in
     v2 <- mpz_get n2 ;;
     mpz_set sum (copy + v2)
   else
     v1 <- mpz_get n1 ;;
     v2 <- mpz_get n2 ;;
     mpz_set sum (v1 + v2)) ;;;
  (if sum_scale <? scale_min then
     let step := 10 ^ (scale_min - sum_scale) in
     s <- mpz_get sum ;;
     mpz_set sum (s * step)
   else ret tt) ;;;
  bc_free_num result ;;;
  ret sum.

Definition bc_multiply (n1 n2 : bc_num) (prod : bc_num) (scale : Z)
  : M bc_num :=
  s1 <- get_scale n1 ;;
  s2 <- get_scale n2 ;;
  let full_scale := s1 + s2 in
  let prod_scale := MIN full_scale (MAX scale (MAX s1 s2)) in
  pval <- bc_new_num 1 prod_scale ;;
  v1 <- mpz_get n1 ;;
  v2 <- mpz_get n2 ;;
  mpz_set pval (v1 * v2) ;;;
  (if full_scale >? prod_scale then
     let step := 10 ^ (full_scale - prod_scale) in
     p <- mpz_get pval ;;
     mpz_set pval (Z.quot p step)
   else ret tt) ;;;
  bc_free_num prod ;;;
  ret pval.

(** A routine with a status returns it together with the contents of its
    result variable on exit. *)
Definition bc_divide (n1 n2 : bc_num) (quot : bc_num) (scale : Z)
  : M (Z * bc_num) :=
  z <- bc_is_zero n2 ;;
  if z then ret (-1, quot)
  else
    qval <- bc_new_num 1 scale ;;
    s2 <- get_scale n2 ;;
    s1 <- get_scale n1 ;;
    let step_amt := s2 + scale - s1 in
    (if negb (step_amt =? 0) then
       (if step_amt >? 0 then
          let step := 10 ^ step_amt in
          v1 <- mpz_get n1 ;;
          mpz_set qval (v1 * step)
        else
          let step := 10 ^ (- step_amt) in
          v1 <- mpz_get n1 ;;
          mpz_set qval (Z.quot v1 step)) ;;;
       q <- mpz_get qval ;;
       v2 <- mpz_get n2 ;;
       mpz_set qval (Z.quot q v2)
     else
       v1 <- mpz_get n1 ;;
       v2 <- mpz_get n2 ;;
       mpz_set qval (Z.quot v1 v2)) ;;;
    bc_free_num quot ;;;
    ret (0, qval).

(** [quot] is [None] when the caller passes a null pointer for the
    quotient, and [Some] of the variable's contents otherwise.  The two
    result variables are distinct variables. *)
Definition bc_divmod (num1 num2 : bc_num) (quot : option bc_num)
    (rem : bc_num) (scale : Z) : M (Z * option bc_num * bc_num) :=
  z <- bc_is_zero num2 ;;
  if z then ret (-1, quot, rem)
  else
    s1 <- get_scale num1 ;;
    s2 <- get_scale num2 ;;
    let rscale := MAX s1 (s2 + scale) in
    temp <- bc_init_num ;;
    r <- bc_divide num1 num2 temp scale ;;
    let temp := snd r in
    quotient <- match quot with
                | Some _ => bc_copy_num temp
                | None => ret None
                end ;;
    temp <- bc_multiply temp num2 temp rscale ;;
    rem <- bc_sub num1 temp rem rscale ;;
    temp <- bc_free_num temp ;;
    quot <- match quot with
            | Some q => bc_free_num q ;;; ret (Some quotient)
            | None => ret None
            end ;;
    ret (0, quot, rem).

Definition bc_modulo (num1 num2 : bc_num) (result : bc_num) (scale : Z)
  : M (Z * bc_num) :=
  r <- bc_divmod num1 num2 None result scale ;;
  ret (fst (fst r), snd r).

(** ** Powers *)

(** State of the loop of [bc_raisemod]: the four local handles. *)
Record raisemod_vars : Type := mk_vars {
  v_power : bc_num; v_exponent : bc_num; v_temp : bc_num; v_parity : bc_num
}.

Fixpoint raisemod_loop (fuel : nat) (modulus : bc_num) (scale rscale : Z)
    (vars : raisemod_vars) : M raisemod_vars :=
  let '(mk_vars power exponent temp parity) := vars in
  z <- bc_is_zero exponent ;;
  if z then ret vars
  else
    match fuel with
    | O => fail
    | S fuel =>
      two <- gets _two_ ;;
      r <- bc_divmod exponent two (Some exponent) parity 0 ;;
      let exponent := default None (snd (fst r)) in
      let parity := snd r in
      pz <- bc_is_zero parity ;;
      temp <- (if negb pz then
                 temp <- bc_multiply temp power temp rscale ;;
                 r <- bc_modulo temp modulus temp scale ;;
                 ret (snd r)
               else ret temp) ;;
      power <- bc_multiply power power power rscale ;;
      r <- bc_modulo power modulus power scale ;;
      let power := snd r in
      raisemod_loop fuel modulus scale rscale
        (mk_vars power exponent temp parity)
    end.

Definition bc_raisemod (base expo modulus : bc_num) (result : bc_num)
    (scale : Z) : M (Z * bc_num) :=
  z <- bc_is_zero modulus ;;
  if z then ret (-1, result)
  else
    n <- bc_is_neg expo ;;
    if n then ret (-1, result)
    else
      power <- bc_copy_num base ;;
      exponent <- bc_copy_num expo ;;
      one <- gets _one_ ;;
      temp <- bc_copy_num one ;;
      parity <- bc_init_num ;;
      bscale <- get_scale base ;;
      (if negb (bscale =? 0) then bc_rt_warn "non-zero scale in base"
       else ret tt) ;;;
      escale <- get_scale exponent ;;
      exponent <- (if negb (escale =? 0) then
                     bc_rt_warn "non-zero scale in exponent" ;;;
                     one <- gets _one_ ;;
                     r <- bc_divide exponent one exponent 0 ;;
                     ret (snd r)
                   else ret exponent) ;;
      mscale <- get_scale modulus ;;
      (if negb (mscale =? 0) then bc_rt_warn "non-zero scale in modulus"
       else ret tt) ;;;
      bscale <- get_scale base ;;
      let rscale := MAX scale bscale in
      e <- read_num exponent ;;
      vars <- raisemod_loop (Val.loop_fuel e) modulus scale rscale
                (mk_vars power exponent temp parity) ;;
      bc_free_num (v_power vars) ;;;
      bc_free_num (v_exponent vars) ;;;
      bc_free_num result ;;;
      ret (0, v_temp vars).

(** [bc_raise] keeps [exponent] in a [long] and [rscale], [diffscale] in
    [int] variables: the two assignments narrow the [long] products. *)

Section HostLong.

Variable LONG_MAX : Z.
Variable INT_MAX : Z.

Definition bc_raise (num1 num2 : bc_num) (result : bc_num) (scale : Z)
  : M bc_num :=
  scale2 <- get_scale num2 ;;
  (if negb (scale2 =? 0) then bc_rt_warn "non-zero scale in exponent"
   else ret tt) ;;;
  exponent <- bc_num2long LONG_MAX num2 ;;
  too_large <- (if exponent =? 0 then
                  one <- gets _one_ ;;
                  c <- _bc_do_compare num2 one false ;;
                  ret (c >? 0)
                else ret false) ;;
  (if too_large then bc_rt_error "exponent too large in raise"
   else ret tt) ;;;
  if exponent =? 0 then
    bc_free_num result ;;;
    one <- gets _one_ ;;
    bc_copy_num one
  else
    scale1 <- get_scale num1 ;;
    let '(neg, exponent, rscale) :=
      if exponent <? 0 then (true, - exponent, scale)
      else (false, exponent,
            int_of_long INT_MAX
              (MIN (scale1 * exponent) (MAX scale scale1))) in
    temp <- bc_new_num 1 rscale ;;
    scale1 <- get_scale num1 ;;
    let diffscale := int_of_long INT_MAX (scale1 * exponent - rscale) in
    v1 <- mpz_get num1 ;;
    mpz_set temp (v1 ^ exponent) ;;;
    (if negb (diffscale =? 0) then
       if diffscale <? 0 then
         let step := 10 ^ (- diffscale) in
         t <- mpz_get temp ;;
         mpz_set temp (t * step)
       else
         let step := 10 ^ diffscale in
         t <- mpz_get temp ;;
         mpz_set temp (Z.quot t step)
     else ret tt) ;;;
    if neg then
      one <- gets _one_ ;;
      r <- bc_divide one temp result rscale ;;
      ret (snd r)
    else
      bc_free_num result ;;;
      ret temp.

End HostLong.

(** ** Square root *)

Definition bc_sqrt (num : bc_num) (scale : Z) : M (Z * bc_num) :=
  zero <- gets _zero_ ;;
  cmp_res <- bc_compare num zero ;;
  if cmp_res <? 0 then ret (0, num)
  else if cmp_res =? 0 then
    bc_free_num num ;;;
    zero <- gets _zero_ ;;
    num <- bc_copy_num zero ;;
    ret (1, num)
  else
    one <- gets _one_ ;;
    cmp_res <- bc_compare num one ;;
    if cmp_res =? 0 then
      bc_free_num num ;;;
      one <- gets _one_ ;;
      num <- bc_copy_num one ;;
      ret (1, num)
    else
      nscale <- get_scale num ;;
      let rscale := MAX scale nscale in
      let step_amt := nscale + 2 * (rscale - nscale) in
      result <- bc_new_num 1 rscale ;;
      (if negb (step_amt =? 0) then
         (if step_amt >? 0 then
            let step := 10 ^ step_amt in
            v <- mpz_get num ;;
            mpz_set result (v * step)
          else
            let step := 10 ^ (- step_amt) in
            v <- mpz_get num ;;
            mpz_set result (Z.quot v step)) ;;;
         r <- mpz_get result ;;
         mpz_set result (Z.sqrt r)
       else
         v <- mpz_get num ;;
         mpz_set result (Z.sqrt v)) ;;;
      bc_free_num num ;;;
      ret (1, result).

(** ** Conversion from a machine integer, and negation

    The parameter [val] of [bc_int2num] is a C [int]: an argument of a
    wider type is converted to [int] at the call. *)

Section HostInt.

Variable INT_MAX : Z.

Definition bc_int2num (num : bc_num) (val : Z) : M bc_num :=
  let val := int_of_long INT_MAX val in
  bc_free_num num ;;;
  num <- bc_new_num 1 0 ;;
  mpz_set num val ;;;
  ret num.

End HostInt.

Definition bc_num_scale (num : bc_num) : M Z := get_scale num.

Definition bc_neg (num : bc_num) : M bc_num :=
  refs <- get_refs num ;;
  if refs =? 1 then
    v <- mpz_get num ;;
    mpz_set num (- v) ;;;
    ret num
  else
    nscale <- get_scale num ;;
    result <- bc_new_num 1 nscale ;;
    v <- mpz_get num ;;
    mpz_set result (- v) ;;;
    bc_free_num num ;;;
    ret result.

(** ** Conversion from text

    The two passes of [bc_str2num] over the text: the first counts the
    digits before and after the point and stops at the first character that
    does not belong to a number; the second copies the sign and the digits
    that are kept. *)

Definition count_digits (str : string) : Z * Z * ascii :=
  let ptr := str in
  let ptr :=
    if Ascii.eqb (peek ptr) "+" || Ascii.eqb (peek ptr) "-"
    then advance ptr else ptr in
  let ptr := skip_zeros ptr in
  let '(ds, ptr) := span_digits ptr in
  let digits := strlen ds in
  let ptr := if Ascii.eqb (peek ptr) "." then advance ptr else ptr in
  let '(fs, ptr) := span_digits ptr in
  let strscale := strlen fs in
  (digits, strscale, peek ptr).

Definition copy_digits (str : string) (strscale : Z) : string :=
  let ptr := str in
  let nptr := ""%string in
  let ptr := if Ascii.eqb (peek ptr) "+" then advance ptr else ptr in
  let '(nptr, ptr) :=
    if Ascii.eqb (peek ptr) "-"
    then (nptr +:+ String (peek ptr) "", advance ptr) else (nptr, ptr) in
  let ptr := skip_zeros ptr in
  let '(ds, ptr) := span_digits ptr in
  let nptr := nptr +:+ ds in
  let ptr := if Ascii.eqb (peek ptr) "." then advance ptr else ptr in
  let '(fs, ptr) := span_digits_upto (Z.to_nat strscale) ptr in
  nptr +:+ fs.

Definition bc_str2num (num : bc_num) (str : string) (scale : Z) : M bc_num :=
  bc_free_num num ;;;
  let '(digits, strscale, last) := count_digits str in
  if negb (Ascii.eqb last NUL) || (digits + strscale =? 0) then
    zero <- gets _zero_ ;;
    bc_copy_num zero
  else
    let strscale := MIN strscale scale in
    num <- bc_new_num 1 strscale ;;
    let nptr := copy_digits str strscale in
    old <- mpz_get num ;;
    mpz_set num (gmp_sscanf_Zd nptr old) ;;;
    ret num.

End Heap.

(** ** Specification vocabulary *)

(** Truncation of a rational toward zero, and at [k] decimal places. *)
Definition Qtrunc (q : Q) : Z :=
  if Qle_bool 0 q then Qfloor q else Qceiling q.


(** A text made of decimal digits only. *)
Fixpoint all_digits (s : string) : bool :=
  match s with
  | EmptyString => true
  | String c rest => isdigit c && all_digits rest
  end.

(** The decimal digits of [|z|], as [sprintf_d] writes them after the
    sign. *)
Definition dec_text (z : Z) : string :=
  dec_digits (S (Z.to_nat (Z.log2 (Z.abs z)))) (Z.abs z) "".

(** The sign [bc_num2str] and [bc_out_num] write in front of a number. *)
Definition sign_text (z : Z) : string := if z <? 0 then "-" else "".

(** The value of a list of digits in base [B], most significant first. *)
Definition horner (B : Z) (ds : list Z) : Z :=
  fold_left (fun acc d => acc * B + d) ds 0.

(** A digit written in decimal and padded with zeros to width [w]. *)
Definition padded_digit (w d : Z) : string :=
  zeros (Z.to_nat (w - strlen (dec_text d))) +:+ dec_text d.

(** Padded digits, each preceded by one space; the first one only when
    [space] is set. *)
Fixpoint spaced_digits (space : bool) (w : Z) (ds : list Z) : string :=
  match ds with
  | [] => ""
  | d :: ds =>
    (if space then " " else "") +:+ padded_digit w d
    +:+ spaced_digits true w ds
  end.


(** Digits written with the characters of [ref_str], one character each. *)
Fixpoint ref_digits (ds : list Z) : string :=
  match ds with
  | [] => ""
  | d :: ds => String (ref_char d) (ref_digits ds)
  end.

(** ** Reading a store *)

(** What a live cell holds: its number and its reference count.  A cell
    with no reference left, or whose integer has been cleared, is not
    live. *)
Definition view_cell (c : Heap.bc_struct) : option (number * Z) :=
  if 0 <? Heap.n_refs c then
    match Heap.n_value c with
    | Some v => Some (mk_num (Heap.n_scale c) v, Heap.n_refs c)
    | None => None
    end
  else None.

(** The live cells of a store, by address. *)
Definition live (h : Heap.heap) : gmap nat (number * Z) :=
  omap view_cell (map_seq 0 (Heap.cells h)).

(** The free list is a chain of distinct cells without references. *)
Fixpoint free_chain (cs : list Heap.bc_struct) (p : Heap.bc_num)
    (fl : list nat) : Prop :=
  match fl with
  | [] => p = None
  | a :: fl =>
    p = Some a
    /\ exists c, cs !! a = Some c /\ Heap.n_refs c = 0
                 /\ free_chain cs (Heap.n_next c) fl
  end.

Definition wf (h : Heap.heap) : Prop :=
  exists fl, NoDup fl /\ free_chain (Heap.cells h) (Heap._bc_Free_list h) fl.

(** The three shared constants and the calls made to the host so far. *)
Definition env (h : Heap.heap)
  : Heap.bc_num * Heap.bc_num * Heap.bc_num * list Heap.host_call :=
  (Heap._zero_ h, Heap._one_ h, Heap._two_ h, Heap.host_calls h).

(** A well-formed store with live cells [L] and environment [E]. *)
Definition models (h : Heap.heap) (L : gmap nat (number * Z))
    (E : Heap.bc_num * Heap.bc_num * Heap.bc_num * list Heap.host_call)
  : Prop :=
  wf h /\ live h = L /\ env h = E.

(** Dropping one reference to a cell; the cell goes away with its last
    reference. *)
Definition drop_ref (o : option (number * Z)) : option (number * Z) :=
  match o with
  | Some (v, r) => if r =? 1 then None else Some (v, r - 1)
  | None => None
  end.

(** Releasing a handle: nothing for the null pointer, one reference less
    for the cell it points to otherwise. *)
Definition release (p : Heap.bc_num) (L : gmap nat (number * Z))
  : gmap nat (number * Z) :=
  match p with
  | None => L
  | Some a => partial_alter drop_ref a L
  end.

(** A handle that may be released: null, or pointing to a live cell. *)
Definition releasable (L : gmap nat (number * Z)) (p : Heap.bc_num) : Prop :=
  match p with None => True | Some a => is_Some (L !! a) end.

(** A computation returns, and its result and final store satisfy [Q]. *)
Definition wp {A} (m : Heap.M A) (Q : A -> Heap.heap -> Prop)
    (h : Heap.heap) : Prop :=
  exists x h', m h = Some (x, h') /\ Q x h'.

(** Releasing several handles, the first of the list first; and handles
    that can be released one after the other, each owning a reference of
    its own. *)
Fixpoint release_all (ps : list Heap.bc_num) (L : gmap nat (number * Z))
  : gmap nat (number * Z) :=
  match ps with
  | [] => L
  | p :: ps => release_all ps (release p L)
  end.

Fixpoint releasable_all (L : gmap nat (number * Z)) (ps : list Heap.bc_num)
  : Prop :=
  match ps with
  | [] => True
  | p :: ps => releasable L p /\ releasable_all (release p L) ps
  end.


(** The local variables of a routine, each with the address it holds and
    the number stored there: every one of them owns a reference, and giving
    all of them back leaves the store [B]. *)
Definition handles (l : list (nat * number)) : list Heap.bc_num :=
  map (fun x => Some (fst x)) l.

Definition locals_inv (B S : gmap nat (number * Z))
    (l : list (nat * number)) : Prop :=
  Forall (fun x => exists r, S !! fst x = Some (snd x, r)) l
  /\ releasable_all S (handles l)
  /\ release_all (handles l) S = B.

(** A store for examples: the three constants as [bc_init_numbers] leaves
    them, and the numbers 17, 5 and [- 2 ^ 63], one reference each. *)
Definition cell (s v : Z) : Heap.bc_struct := Heap.mk_struct s 1 None (Some v).

Definition sample_heap : Heap.heap :=
  Heap.mk_heap
    [cell 0 0; cell 0 1; cell 0 2; cell 0 17; cell 0 5; cell 0 (- 2 ^ 63)]
    None (Some 0%nat) (Some 1%nat) (Some 2%nat) [].

(** What the caller sees of the store after a routine: every cell that was
    live before the call and that no result variable in [slots] pointed to
    is live, with the number it held. *)
Definition frame (L : gmap nat (number * Z)) (slots : list Heap.bc_num)
    (h' : Heap.heap) : Prop :=
  forall a v r,
    L !! a = Some (v, r) -> Some a ∉ slots ->
    exists r', live h' !! a = Some (v, r').


(** The store before [bc_init_numbers]: no cell, no constant, no call. *)
Definition empty_heap : Heap.heap := Heap.mk_heap [] None None None None [].

(** * Properties *)

(** ** Arithmetic helpers *)

Lemma MAX_max a b : MAX a b = Z.max a b.
Proof. unfold MAX. destruct (Z.gtb_spec a b); lia. Qed.

Lemma MIN_min a b : MIN a b = Z.min a b.
Proof. unfold MIN. destruct (Z.gtb_spec a b); lia. Qed.

Lemma pow10_pos k : 0 < 10 ^ k \/ (k < 0 /\ 10 ^ k = 0).
Proof.
  destruct (Z.le_gt_cases 0 k) as [Hk|Hk].
  - left. apply Z.pow_pos_nonneg; lia.
  - right. split; [lia|]. apply Z.pow_neg_r; lia.
Qed.

Lemma pow10_gt0 k : 0 <= k -> 0 < 10 ^ k.
Proof. intros Hk. apply Z.pow_pos_nonneg; lia. Qed.

Lemma pow10_split a b : 0 <= a -> 0 <= b -> 10 ^ (a + b) = 10 ^ a * 10 ^ b.
Proof. intros. apply Z.pow_add_r; lia. Qed.

(** Equality of two decimal fractions by cross multiplication. *)
Lemma Qdiv_inject_eq a b c d :
  0 < b -> 0 < d -> a * d = c * b ->
  (inject_Z a / inject_Z b == inject_Z c / inject_Z d)%Q.
Proof.
  intros Hb Hd Heq.
  assert (Hb' : ~ (inject_Z b == 0)%Q).
  { unfold Qeq; simpl. lia. }
  assert (Hd' : ~ (inject_Z d == 0)%Q).
  { unfold Qeq; simpl. lia. }
  apply (Qmult_inj_r _ _ (inject_Z b * inject_Z d)).
  - intros H. apply Qmult_integral in H. tauto.
  - transitivity (inject_Z (a * d)).
    + rewrite inject_Z_mult. field. assumption.
    + rewrite Heq, inject_Z_mult. field. assumption.
Qed.

Lemma Qtrunc_comp p q : (p == q)%Q -> Qtrunc p = Qtrunc q.
Proof.
  intros H. unfold Qtrunc.
  assert (Hb : Qle_bool 0 p = Qle_bool 0 q).
  { apply eq_true_iff_eq. rewrite !Qle_bool_iff, H. tauto. }
  rewrite Hb. destruct (Qle_bool 0 q).
  - apply Qfloor_comp, H.
  - apply Qceiling_comp, H.
Qed.

Lemma Qtrunc_Qmake a b : Qtrunc (a # b) = Z.quot a (Z.pos b).
Proof.
  unfold Qtrunc. destruct (Qle_bool 0 (a # b)) eqn:E.
  - apply Qle_bool_iff in E. unfold Qle in E. simpl in E.
    unfold Qfloor. symmetry. apply Z.quot_div_nonneg; lia.
  - assert (Ha : a < 0).
    { destruct (Z.lt_ge_cases a 0) as [|Hge]; [assumption|].
      assert (Ht : Qle_bool 0 (a # b) = true).
      { apply Qle_bool_iff. unfold Qle. simpl. lia. }
      congruence. }
    unfold Qceiling, Qfloor. simpl.
    rewrite <- (Z.opp_involutive a) at 2.
    rewrite Z.quot_opp_l by lia.
    f_equal. symmetry. apply Z.quot_div_nonneg; lia.
Qed.

Lemma Qtrunc_div a b : 0 < b -> Qtrunc (inject_Z a / inject_Z b) = Z.quot a b.
Proof.
  intros Hb. destruct b as [|b|b]; try lia.
  rewrite <- Qtrunc_Qmake. apply Qtrunc_comp.
  symmetry. apply Qmake_Qdiv.
Qed.

Lemma inject_Z_nonzero b : 0 < b -> ~ (inject_Z b == 0)%Q.
Proof. intros Hb. unfold Qeq; simpl. lia. Qed.


Lemma Qdiv_inject_sub a b c d :
  0 < b -> 0 < d ->
  (inject_Z a / inject_Z b - inject_Z c / inject_Z d
   == inject_Z (a * d - c * b) / inject_Z (b * d))%Q.
Proof.
  intros Hb Hd.
  unfold Z.sub. rewrite inject_Z_plus, inject_Z_opp, !inject_Z_mult.
  field. split; apply inject_Z_nonzero; assumption.
Qed.

Lemma Qdiv_inject_add a b c d :
  0 < b -> 0 < d ->
  (inject_Z a / inject_Z b + inject_Z c / inject_Z d
   == inject_Z (a * d + c * b) / inject_Z (b * d))%Q.
Proof.
  intros Hb Hd.
  rewrite inject_Z_plus, !inject_Z_mult.
  field. split; apply inject_Z_nonzero; assumption.
Qed.

(** Powers of ten with a larger exponent factor through a smaller one. *)
Lemma pow10_factor a b : 0 <= b <= a -> 10 ^ a = 10 ^ b * 10 ^ (a - b).
Proof.
  intros H. rewrite <- pow10_split by lia. f_equal. lia.
Qed.

(** ** Subtraction and multiplication denote what they should *)

Lemma bc_sub_scale n1 n2 scale_min :
  n_scale (bc_sub n1 n2 scale_min)
  = Z.max (Z.max (n_scale n1) (n_scale n2)) scale_min.
Proof. unfold bc_sub. simpl. now rewrite !MAX_max. Qed.

Lemma bc_sub_val n1 n2 scale_min :
  0 <= n_scale n1 -> 0 <= n_scale n2 ->
  (bc_val (bc_sub n1 n2 scale_min) == bc_val n1 - bc_val n2)%Q.
Proof.
  destruct n1 as [s1 v1], n2 as [s2 v2]. simpl. intros H1 H2.
  unfold bc_sub, bc_val. simpl. rewrite !MAX_max.
  pose proof (pow10_gt0 s1 H1) as P1.
  pose proof (pow10_gt0 s2 H2) as P2.
  rewrite Qdiv_inject_sub by assumption.
  set (m := Z.max s1 s2).
  assert (Hm : 0 <= m) by lia.
  pose proof (pow10_gt0 (Z.max m scale_min) ltac:(lia)) as P3.
  apply Qdiv_inject_eq; [assumption|nia|].
  assert (Hd : (if s1 >? s2 then v1 - v2 * 10 ^ (s1 - s2)
                else if s1 <? s2 then v1 * 10 ^ (s2 - s1) - v2
                else v1 - v2) * (10 ^ s1 * 10 ^ s2)
               = (v1 * 10 ^ s2 - v2 * 10 ^ s1) * 10 ^ m).
  { subst m. destruct (Z.gtb_spec s1 s2); [|destruct (Z.ltb_spec s1 s2)].
    - rewrite Z.max_l by lia. rewrite (pow10_factor s1 s2) by lia. ring.
    - rewrite Z.max_r by lia. rewrite (pow10_factor s2 s1) by lia. ring.
    - replace s2 with s1 by lia. rewrite Z.max_id. ring. }
  destruct (Z.ltb_spec m scale_min).
  - rewrite (Z.max_r m) by lia.
    rewrite (pow10_factor scale_min m) by lia.
    rewrite <- Z.mul_assoc, (Z.mul_comm (10 ^ (scale_min - m))), Z.mul_assoc.
    rewrite Hd. ring.
  - rewrite (Z.max_l m) by lia. exact Hd.
Qed.



(** ** Division with remainder *)

Lemma bc_divide_some n1 n2 scale :
  n_value n2 <> 0 ->
  exists qv, bc_divide n1 n2 scale = Some (mk_num scale qv).
Proof.
  intros Hz. unfold bc_divide, bc_is_zero.
  destruct (Z.eqb_spec (Z.sgn (n_value n2)) 0) as [E|E].
  - lia.
  - eexists. reflexivity.
Qed.


(** ** Order on decimal fractions *)


Lemma Qdiv_inject_lt a b c d :
  0 < b -> 0 < d ->
  (inject_Z a / inject_Z b < inject_Z c / inject_Z d)%Q <-> a * d < c * b.
Proof.
  intros Hb Hd.
  destruct b as [|b|b]; try lia. destruct d as [|d|d]; try lia.
  rewrite <- !Qmake_Qdiv. unfold Qlt. simpl. reflexivity.
Qed.

(** ** Square root *)

Lemma bc_compare_zero num :
  0 <= n_scale num -> bc_compare num _zero_ = Z.sgn (n_value num).
Proof.
  intros Hs. unfold bc_compare, _bc_do_compare, _zero_, mpz_cmp.
  cbn [n_scale n_value]. rewrite Z.mul_0_l.
  destruct (Z.gtb_spec (n_scale num) 0); [|destruct (Z.ltb_spec (n_scale num) 0)];
    try lia;
    destruct (Z.compare_spec (n_value num) 0); cbn; lia.
Qed.




Lemma Qdiv_inject_eq_iff a b c d :
  0 < b -> 0 < d ->
  (inject_Z a / inject_Z b == inject_Z c / inject_Z d)%Q <-> a * d = c * b.
Proof.
  intros Hb Hd.
  destruct b as [|b|b]; try lia. destruct d as [|d|d]; try lia.
  rewrite <- !Qmake_Qdiv. unfold Qeq. simpl. reflexivity.
Qed.


Lemma bc_val_zero num :
  0 <= n_scale num -> (bc_val num == 0)%Q <-> n_value num = 0.
Proof.
  intros Hs. pose proof (pow10_gt0 _ Hs) as P.
  unfold bc_val. change 0%Q with (inject_Z 0 / inject_Z 1)%Q.
  rewrite Qdiv_inject_eq_iff by lia. nia.
Qed.


(** ** Texts *)

Lemma append_cons c s t : String c s +:+ t = String c (s +:+ t).
Proof. reflexivity. Qed.

Lemma append_nil_l s : "" +:+ s = s.
Proof. reflexivity. Qed.

Lemma append_nil_r s : s +:+ "" = s.
Proof.
  induction s as [|c s IH]; [reflexivity|].
  rewrite append_cons. f_equal. exact IH.
Qed.

Lemma append_assoc s t u : (s +:+ t) +:+ u = s +:+ (t +:+ u).
Proof.
  induction s as [|c s IH]; [reflexivity|].
  rewrite !append_cons. f_equal. exact IH.
Qed.

Lemma strlen_append s t : strlen (s +:+ t) = strlen s + strlen t.
Proof.
  unfold strlen. induction s as [|c s IH].
  - reflexivity.
  - rewrite append_cons. cbn [String.length]. rewrite !Nat2Z.inj_succ. lia.
Qed.

Lemma strlen_nonneg s : 0 <= strlen s.
Proof. unfold strlen. lia. Qed.

Lemma strlen_cons c s : strlen (String c s) = strlen s + 1.
Proof. unfold strlen. simpl String.length. lia. Qed.

Lemma strlen_zero_inv s : strlen s = 0 -> s = "".
Proof. destruct s; [reflexivity|]. rewrite strlen_cons. pose proof (strlen_nonneg s). lia. Qed.

Lemma strlen_zeros n : strlen (zeros n) = Z.of_nat n.
Proof.
  induction n as [|n IH]; [reflexivity|].
  cbn [zeros]. rewrite strlen_cons, IH. lia.
Qed.

Lemma all_digits_append s t :
  all_digits (s +:+ t) = all_digits s && all_digits t.
Proof.
  induction s as [|c s IH]; [reflexivity|].
  rewrite append_cons. cbn [all_digits]. now rewrite IH, andb_assoc.
Qed.

Lemma all_digits_zeros n : all_digits (zeros n) = true.
Proof. induction n as [|n IH]; [reflexivity|]. simpl. exact IH. Qed.

(** ** Decimal digits *)

Lemma digit_char_ok d :
  0 <= d < 10 ->
  isdigit (digit_char d) = true /\ digit_value (digit_char d) = d
  /\ (Ascii.eqb (digit_char d) "0" = (d =? 0)).
Proof.
  intros H.
  assert (Hd : d = 0 \/ d = 1 \/ d = 2 \/ d = 3 \/ d = 4 \/ d = 5 \/ d = 6
               \/ d = 7 \/ d = 8 \/ d = 9) by lia.
  repeat (destruct Hd as [->|Hd]; [repeat split|]); subst; repeat split.
Qed.

Lemma scan_digits_append ds rest acc :
  all_digits ds = true ->
  scan_digits acc (ds +:+ rest)
  = scan_digits (scan_digits acc ds) rest.
Proof.
  revert acc. induction ds as [|c ds IH]; intros acc Hd.
  - reflexivity.
  - rewrite append_cons. cbn [scan_digits all_digits] in *.
    apply andb_prop in Hd as [Hc Hds]. rewrite Hc. apply IH, Hds.
Qed.

Lemma scan_digits_zeros n acc rest :
  acc = 0 -> scan_digits acc (zeros n +:+ rest) = scan_digits 0 rest.
Proof.
  intros ->. induction n as [|n IH]; [reflexivity|].
  cbn [zeros]. rewrite append_cons. cbn. exact IH.
Qed.

(** What [dec_digits] produces when the fuel covers the binary length of
    [n]: a non-empty run of digits whose value is [n], with no leading zero
    unless [n] is zero. *)

Lemma peek_nonempty_append s t : 0 < strlen s -> peek (s +:+ t) = peek s.
Proof.
  destruct s as [|c s]; intros Hl; [|reflexivity].
  unfold strlen in Hl. simpl in Hl. lia.
Qed.

Lemma strlen_single c : strlen (String c "") = 1.
Proof. reflexivity. Qed.

Lemma dec_digits_S fuel n acc :
  dec_digits (S fuel) n acc
  = if n <? 10 then String (digit_char (n mod 10)) acc
    else dec_digits fuel (n / 10) (String (digit_char (n mod 10)) acc).
Proof. reflexivity. Qed.

(** What [dec_digits] produces when the fuel covers the binary length of
    [n]: a non-empty run of digits whose value is [n], with no leading zero
    unless [n] is zero. *)
Lemma dec_digits_spec fuel n acc :
  0 <= n < 2 ^ Z.of_nat (S fuel) ->
  exists D,
    dec_digits (S fuel) n acc = D +:+ acc
    /\ dec_digits (S fuel) n "" = D
    /\ all_digits D = true
    /\ 0 < strlen D
    /\ (forall a, scan_digits a D = a * 10 ^ strlen D + n)
    /\ (Ascii.eqb (peek D) "0" = (n =? 0))
    /\ n < 10 ^ strlen D
    /\ (n <> 0 -> 10 ^ (strlen D - 1) <= n).
Proof.
  assert (Hsingle : forall n acc, 0 <= n < 10 ->
    exists D,
      String (digit_char (n mod 10)) acc = D +:+ acc
      /\ String (digit_char (n mod 10)) "" = D
      /\ all_digits D = true
      /\ 0 < strlen D
      /\ (forall a, scan_digits a D = a * 10 ^ strlen D + n)
      /\ (Ascii.eqb (peek D) "0" = (n =? 0))
      /\ n < 10 ^ strlen D
      /\ (n <> 0 -> 10 ^ (strlen D - 1) <= n)).
  { clear. intros n acc Hn.
    destruct (digit_char_ok n Hn) as (Hd & Hv & Hz).
    rewrite Z.mod_small by lia.
    exists (String (digit_char n) "").
    rewrite strlen_single.
    split; [reflexivity|]. split; [reflexivity|].
    split; [cbn [all_digits]; now rewrite Hd|].
    split; [lia|].
    split; [intros a; cbn [scan_digits]; rewrite Hd, Hv, Z.pow_1_r; lia|].
    split; [exact Hz|].
    split; [rewrite Z.pow_1_r; lia|]. intros Hne. change (10 ^ (1 - 1)) with 1. lia. }
  revert n acc. induction fuel as [|fuel IH]; intros n acc Hn.
  - assert (Hsmall : n < 10).
    { change (2 ^ Z.of_nat 1) with 2 in Hn. lia. }
    rewrite (dec_digits_S 0 n acc), (dec_digits_S 0 n "").
    destruct (Z.ltb_spec n 10); [|lia].
    apply Hsingle. lia.
  - rewrite (dec_digits_S (S fuel) n acc), (dec_digits_S (S fuel) n "").
    destruct (Z.ltb_spec n 10) as [Hsmall|Hbig].
    + apply Hsingle. lia.
    + destruct (digit_char_ok (n mod 10)) as (Hd & Hv & Hz).
      { apply Z.mod_pos_bound. lia. }
      assert (Hq : 0 <= n / 10 < 2 ^ Z.of_nat (S fuel)).
      { split; [apply Z.div_pos; lia|].
        apply Z.div_lt_upper_bound; [lia|].
        rewrite (Nat2Z.inj_succ (S fuel)), Z.pow_succ_r in Hn by lia.
        lia. }
      set (d := String (digit_char (n mod 10)) "").
      destruct (IH (n / 10) (d +:+ acc) Hq)
        as (D & HD & HD0 & Hall & Hlen & Hscan & Hlead & Hup & Hlo).
      assert (HDd : dec_digits (S fuel) (n / 10) d = D +:+ d).
      { destruct (IH (n / 10) d Hq) as (D' & HD' & HD0' & _).
        rewrite HD'. congruence. }
      assert (Hq0 : n / 10 <> 0).
      { intros E. apply Z.div_small_iff in E; lia. }
      exists (D +:+ d).
      assert (Hlen' : strlen (D +:+ d) = strlen D + 1).
      { rewrite strlen_append. reflexivity. }
      assert (Hn10 : n = 10 * (n / 10) + n mod 10) by (apply Z.div_mod; lia).
      pose proof (Z.mod_pos_bound n 10 ltac:(lia)) as Hm.
      split.
      { change (String (digit_char (n mod 10)) acc) with (d +:+ acc).
        rewrite HD. symmetry. apply append_assoc. }
      split; [exact HDd|].
      split.
      { rewrite all_digits_append, Hall. subst d. cbn [all_digits].
        now rewrite Hd. }
      split; [lia|].
      split.
      { intros a. rewrite scan_digits_append by assumption.
        rewrite Hscan. subst d. cbn [scan_digits]. rewrite Hd, Hv, Hlen'.
        rewrite Z.pow_add_r by lia. lia. }
      split.
      { rewrite peek_nonempty_append by lia. rewrite Hlead.
        destruct (Z.eqb_spec (n / 10) 0); [contradiction|].
        destruct (Z.eqb_spec n 0); [lia|reflexivity]. }
      split.
      { rewrite Hlen', Z.pow_add_r by lia. lia. }
      intros _. rewrite Hlen'.
      replace (strlen D + 1 - 1) with (strlen D - 1 + 1) by lia.
      rewrite Z.pow_add_r by lia. specialize (Hlo Hq0). lia.
Qed.

Lemma dec_text_spec v :
  let D := dec_text v in
  all_digits D = true
  /\ 0 < strlen D
  /\ (forall a, scan_digits a D = a * 10 ^ strlen D + Z.abs v)
  /\ (Ascii.eqb (peek D) "0" = (v =? 0))
  /\ Z.abs v < 10 ^ strlen D
  /\ (v <> 0 -> 10 ^ (strlen D - 1) <= Z.abs v).
Proof.
  intros D.
  destruct (dec_digits_spec (Z.to_nat (Z.log2 (Z.abs v))) (Z.abs v) "")
    as (D' & _ & HD & Hall & Hlen & Hscan & Hlead & Hup & Hlo).
  { split; [lia|].
    rewrite Nat2Z.inj_succ, Z2Nat.id by apply Z.log2_nonneg.
    destruct (Z.eq_dec (Z.abs v) 0) as [E|E].
    - rewrite E. reflexivity.
    - apply Z.log2_spec. lia. }
  assert (E : D = D') by exact HD. rewrite E.
  repeat split; try assumption.
  - rewrite Hlead. destruct (Z.eqb_spec (Z.abs v) 0), (Z.eqb_spec v 0); lia.
  - intros Hv. apply Hlo. lia.
Qed.

Lemma sprintf_d_text v : sprintf_d v = sign_text v +:+ dec_text v.
Proof. reflexivity. Qed.

Lemma copy_chars_append n s t :
  strlen s = Z.of_nat n -> copy_chars n (s +:+ t) = (s, t).
Proof.
  revert s. induction n as [|n IH]; intros s Hs.
  - apply strlen_zero_inv in Hs. subst s. destruct t; reflexivity.
  - destruct s as [|c s].
    { unfold strlen in Hs. simpl in Hs. lia. }
    rewrite append_cons. cbn [copy_chars].
    rewrite IH; [reflexivity|]. rewrite strlen_cons in Hs. lia.
Qed.

Lemma copy_chars_whole n s :
  strlen s = Z.of_nat n -> copy_chars n s = (s, "").
Proof.
  intros Hs. rewrite <- (append_nil_r s) at 1. now apply copy_chars_append.
Qed.

Lemma string_split_at s n :
  0 <= n <= strlen s ->
  exists a b, s = a +:+ b /\ strlen a = n.
Proof.
  revert n. induction s as [|c s IH]; intros n Hn.
  - exists "", "". split; [reflexivity|]. unfold strlen in *. simpl in *. lia.
  - destruct (Z.eq_dec n 0) as [->|Hne].
    + exists "", (String c s). split; reflexivity.
    + rewrite strlen_cons in Hn.
      destruct (IH (n - 1) ltac:(lia)) as (a & b & -> & Ha).
      exists (String c a), b. split; [reflexivity|].
      rewrite strlen_cons. lia.
Qed.

Lemma bc_is_neg_ltb num : bc_is_neg num = (n_value num <? 0).
Proof.
  unfold bc_is_neg.
  destruct (Z.eqb_spec (Z.sgn (n_value num)) (-1)), (Z.ltb_spec (n_value num) 0);
    lia.
Qed.


(** The part of [bc_num2str] after the sign has been dealt with: [str] is
    the text written so far, [iptr] points at the digits, of which there
    are [n_len]. *)
Lemma bc_num2str_unfold num :
  bc_num2str num
  = let str := sign_text (n_value num) in
    let iptr := dec_text (n_value num) in
    let n_len := strlen iptr in
    if n_len >=? n_scale num then
      let '(whole, iptr) := copy_chars (Z.to_nat (n_len - n_scale num)) iptr in
      let str := str +:+ whole in
      if n_scale num >? 0 then
        let '(frac, iptr) := copy_chars (Z.to_nat (n_scale num)) iptr in
        str +:+ "." +:+ frac
      else str
    else
      let str := str +:+ "." in
      let str := str +:+ zeros (Z.to_nat (n_scale num - n_len)) in
      let '(digs, iptr) := copy_chars (Z.to_nat n_len) iptr in
      str +:+ digs.
Proof.
  unfold bc_num2str. rewrite bc_is_neg_ltb, sprintf_d_text.
  unfold sign_text. destruct (n_value num <? 0).
  - rewrite strlen_append. change (strlen "-") with 1.
    replace (1 + strlen (dec_text (n_value num)) - 1)
      with (strlen (dec_text (n_value num))) by lia.
    reflexivity.
  - reflexivity.
Qed.

(** The shape of the text [bc_num2str] builds: the sign, the integer
    digits, and for a positive scale a point and the fraction digits.
    Integer and fraction digits together are the decimal digits of the
    stored integer, preceded by the zeros needed to reach [scale] digits. *)
Lemma bc_num2str_shape num :
  0 <= n_scale num ->
  let k := n_scale num in
  let D := dec_text (n_value num) in
  exists ints fracs,
    bc_num2str num
    = sign_text (n_value num) +:+ ints
      +:+ (if k >? 0 then "." +:+ fracs else "")
    /\ ints +:+ fracs = zeros (Z.to_nat (k - strlen D)) +:+ D
    /\ strlen fracs = k
    /\ strlen ints = Z.max 0 (strlen D - k).
Proof.
  intros Hk k D.
  destruct (dec_text_spec (n_value num)) as (Hall & Hlen & _).
  fold D in Hall, Hlen.
  rewrite bc_num2str_unfold. cbv zeta. fold D. fold k.
  destruct (Z.geb_spec (strlen D) k) as [Hge|Hlt].
  - destruct (string_split_at D (strlen D - k) ltac:(lia))
      as (A & B & HD & HA).
    assert (HB : strlen B = k).
    { pose proof (strlen_append A B) as H. rewrite <- HD in H. lia. }
    assert (Hc1 : copy_chars (Z.to_nat (strlen D - k)) D = (A, B)).
    { rewrite HD at 2. apply copy_chars_append. lia. }
    assert (Hc2 : copy_chars (Z.to_nat k) B = (B, "")).
    { apply copy_chars_whole. lia. }
    rewrite Hc1. cbv beta iota. rewrite Hc2. cbv beta iota.
    exists A, B.
    replace (Z.to_nat (k - strlen D)) with O by lia.
    cbn [zeros]. rewrite append_nil_l.
    split; [|split; [symmetry; exact HD|split; [exact HB|lia]]].
    destruct (Z.gtb_spec k 0).
    + now rewrite append_assoc.
    + assert (E : B = "") by (apply strlen_zero_inv; lia).
      now rewrite append_nil_r.
  - assert (Hc : copy_chars (Z.to_nat (strlen D)) D = (D, "")).
    { apply copy_chars_whole. lia. }
    rewrite Hc. cbv beta iota.
    exists "", (zeros (Z.to_nat (k - strlen D)) +:+ D).
    destruct (Z.gtb_spec k 0); [|lia].
    rewrite append_nil_l.
    split; [now rewrite !append_assoc|].
    split; [reflexivity|].
    split; [rewrite strlen_append, strlen_zeros; lia|].
    change (strlen "") with 0. lia.
Qed.
(** ** Reading back a text of digits *)

Lemma peek_append_cons c s t : peek (String c s +:+ t) = c.
Proof. reflexivity. Qed.

Lemma isdigit_not_sign c :
  isdigit c = true ->
  Ascii.eqb c "+" = false /\ Ascii.eqb c "-" = false
  /\ Ascii.eqb c "." = false /\ Ascii.eqb c NUL = false.
Proof.
  intros Hd.
  repeat split; apply Ascii.eqb_neq; intros ->; vm_compute in Hd; discriminate.
Qed.

Lemma skip_zeros_id s : Ascii.eqb (peek s) "0" = false -> skip_zeros s = s.
Proof. destruct s as [|c s]; [reflexivity|]. simpl. now intros ->. Qed.

Lemma span_digits_append ds rest :
  all_digits ds = true -> isdigit (peek rest) = false ->
  span_digits (ds +:+ rest) = (ds, rest).
Proof.
  intros Hd Hr. induction ds as [|c ds IH].
  - rewrite append_nil_l. destruct rest as [|r rest]; [reflexivity|].
    simpl in *. now rewrite Hr.
  - rewrite append_cons. cbn [span_digits all_digits] in *.
    apply andb_prop in Hd as [Hc Hds]. rewrite Hc, (IH Hds). reflexivity.
Qed.

Lemma span_digits_all ds :
  all_digits ds = true -> span_digits ds = (ds, "").
Proof.
  intros Hd. rewrite <- (append_nil_r ds) at 1.
  now apply span_digits_append.
Qed.

Lemma span_digits_upto_all n ds :
  all_digits ds = true -> strlen ds = Z.of_nat n ->
  span_digits_upto n ds = (ds, "").
Proof.
  revert ds. induction n as [|n IH]; intros ds Hd Hn.
  - apply strlen_zero_inv in Hn. now subst ds.
  - destruct ds as [|c ds].
    { unfold strlen in Hn. simpl in Hn. lia. }
    cbn [span_digits_upto all_digits] in *.
    apply andb_prop in Hd as [Hc Hds]. rewrite Hc.
    rewrite IH; [reflexivity|assumption|]. rewrite strlen_cons in Hn. lia.
Qed.

Lemma all_digits_peek ds :
  all_digits ds = true -> 0 < strlen ds -> isdigit (peek ds) = true.
Proof.
  destruct ds as [|c ds]; intros Hd Hl.
  - unfold strlen in Hl. simpl in Hl. lia.
  - simpl in *. now apply andb_prop in Hd as [Hc _].
Qed.


(** [bc_str2num] on a text of the shape [bc_num2str] writes: a sign [S],
    integer digits without a leading zero, and a point followed by fraction
    digits when there are any.  All the fraction digits are kept when the
    requested scale is their number. *)
Lemma bc_str2num_formatted S ints fracs :
  S = "" \/ S = "-" ->
  all_digits ints = true -> all_digits fracs = true ->
  let tail := if strlen fracs >? 0 then "." +:+ fracs else "" in
  Ascii.eqb (peek (ints +:+ tail)) "0" = false ->
  strlen ints + strlen fracs <> 0 ->
  bc_str2num (S +:+ ints +:+ tail) (strlen fracs)
  = mk_num (strlen fracs) (gmp_sscanf_Zd (S +:+ ints +:+ fracs) 0).
Proof.
  intros HS Hi Hf tail Hlead Hne.
  set (body := ints +:+ tail) in *.
  set (k := strlen fracs) in *.
  assert (Hk : 0 <= k) by apply strlen_nonneg.
  assert (Htail : isdigit (peek tail) = false
                  /\ (if Ascii.eqb (peek tail) "." then advance tail else tail)
                     = fracs).
  { subst tail. destruct (Z.gtb_spec k 0) as [Hpos|Hz].
    - split; reflexivity.
    - assert (E : fracs = "") by (apply strlen_zero_inv; lia).
      rewrite E. split; reflexivity. }
  destruct Htail as [Htd Hdot].
  assert (Hbody : Ascii.eqb (peek body) "+" = false
                  /\ Ascii.eqb (peek body) "-" = false).
  { subst body. destruct ints as [|c ints].
    - rewrite append_nil_l. subst tail.
      destruct (Z.gtb_spec k 0); split; reflexivity.
    - rewrite peek_append_cons. simpl in Hi.
      apply andb_prop in Hi as [Hc _].
      destruct (isdigit_not_sign c Hc) as (H1 & H2 & _). now split. }
  destruct Hbody as [Hplus Hminus].
  assert (Hfirst :
    (if Ascii.eqb (peek (S +:+ body)) "+" || Ascii.eqb (peek (S +:+ body)) "-"
     then advance (S +:+ body) else S +:+ body) = body).
  { destruct HS as [->| ->].
    - rewrite append_nil_l, Hplus, Hminus. reflexivity.
    - reflexivity. }
  assert (Hsecond_plus :
    (if Ascii.eqb (peek (S +:+ body)) "+"
     then advance (S +:+ body) else S +:+ body) = S +:+ body).
  { destruct HS as [->| ->].
    - rewrite append_nil_l, Hplus. reflexivity.
    - reflexivity. }
  assert (Hsecond_minus :
    (if Ascii.eqb (peek (S +:+ body)) "-"
     then ("" +:+ String (peek (S +:+ body)) "", advance (S +:+ body))
     else ("", S +:+ body))
    = (S, body)).
  { destruct HS as [->| ->].
    - rewrite append_nil_l, Hminus. reflexivity.
    - reflexivity. }
  assert (Hskip : skip_zeros body = body) by (apply skip_zeros_id, Hlead).
  assert (Hspan : span_digits body = (ints, tail)).
  { subst body. apply span_digits_append; assumption. }
  assert (Hspanf : span_digits fracs = (fracs, "")).
  { apply span_digits_all, Hf. }
  assert (Hupto : span_digits_upto (Z.to_nat k) fracs = (fracs, "")).
  { apply span_digits_upto_all; [assumption|]. subst k.
    rewrite Z2Nat.id by apply strlen_nonneg. reflexivity. }
  assert (Hmin : MIN k k = k) by (rewrite MIN_min; lia).
  unfold bc_str2num.
  rewrite Hfirst, Hskip, Hspan. cbv beta iota zeta.
  rewrite Hdot, Hspanf. cbv beta iota zeta. fold k.
  change (Ascii.eqb (peek "") NUL) with true. cbn [negb orb].
  destruct (Z.eqb_spec (strlen ints + k) 0) as [E|_]; [contradiction|].
  rewrite Hmin, Hsecond_plus, Hsecond_minus. cbv beta iota zeta.
  rewrite Hskip, Hspan. cbv beta iota zeta.
  rewrite Hdot, Hupto. cbv beta iota zeta.
  now rewrite append_assoc.
Qed.

Lemma gmp_sscanf_Zd_formatted v n :
  gmp_sscanf_Zd (sign_text v +:+ zeros n +:+ dec_text v) 0 = v.
Proof.
  destruct (dec_text_spec v) as (Hall & Hlen & Hscan & _).
  set (W := zeros n +:+ dec_text v).
  assert (HW : all_digits W = true).
  { subst W. now rewrite all_digits_append, all_digits_zeros. }
  assert (HWlen : 0 < strlen W).
  { subst W. rewrite strlen_append, strlen_zeros. lia. }
  pose proof (all_digits_peek W HW HWlen) as Hpk.
  assert (Hval : scan_digits 0 W = Z.abs v).
  { subst W. rewrite scan_digits_zeros by reflexivity. rewrite Hscan. lia. }
  unfold gmp_sscanf_Zd, sign_text.
  destruct (Z.ltb_spec v 0).
  - change (Ascii.eqb (peek ("-" +:+ W)) "-") with true.
    change (advance ("-" +:+ W)) with W.
    cbv beta iota zeta. rewrite Hpk, Hval. lia.
  - rewrite append_nil_l.
    destruct (isdigit_not_sign _ Hpk) as (_ & Hm & _). rewrite Hm.
    cbv beta iota zeta. rewrite Hpk, Hval. lia.
Qed.


(** Reading back what [bc_num2str] wrote, at the number's own scale. *)
Lemma bc_str2num_num2str num :
  0 <= n_scale num -> bc_str2num (bc_num2str num) (n_scale num) = num.
Proof.
  destruct num as [k v]. cbn [n_scale]. intros Hk.
  destruct (Z.eq_dec v 0) as [Hv0|Hv0];
    [destruct (Z.eq_dec k 0) as [Hk0|Hk0]|].
  { subst. reflexivity. }
  all: destruct (bc_num2str_shape (mk_num k v) Hk)
         as (ints & fracs & Hout & Hcat & Hf & Hi);
       cbn [n_scale n_value] in *;
       destruct (dec_text_spec v) as (Hall & Hlen & _ & Hlead & _);
       assert (Hboth : all_digits (ints +:+ fracs) = true)
         by (rewrite Hcat, all_digits_append, all_digits_zeros; exact Hall);
       rewrite all_digits_append in Hboth;
       apply andb_prop in Hboth as [Hai Haf];
       assert (HS : sign_text v = "" \/ sign_text v = "-")
         by (unfold sign_text; destruct (v <? 0); auto);
       pose proof (bc_str2num_formatted (sign_text v) ints fracs HS Hai Haf)
         as Hparse;
       cbv zeta in Hparse; rewrite Hf in Hparse;
       rewrite Hout, Hparse.
  (* v = 0, k <> 0 *)
  - f_equal. rewrite Hcat.
    apply gmp_sscanf_Zd_formatted.
  - subst v. change (strlen (dec_text 0)) with 1 in Hi.
    assert (E : ints = "") by (apply strlen_zero_inv; lia).
    rewrite E, append_nil_l.
    destruct (Z.gtb_spec k 0); [reflexivity|lia].
  - lia.
  (* v <> 0 *)
  - f_equal. rewrite Hcat.
    apply gmp_sscanf_Zd_formatted.
  - destruct (Z.le_gt_cases (strlen (dec_text v)) k) as [Hle|Hgt].
    + assert (E : ints = "") by (apply strlen_zero_inv; lia).
      rewrite E, append_nil_l.
      destruct (Z.gtb_spec k 0); [reflexivity|lia].
    + replace (Z.to_nat (k - strlen (dec_text v))) with O in Hcat by lia.
      cbn [zeros] in Hcat. rewrite append_nil_l in Hcat.
      rewrite peek_nonempty_append by lia.
      rewrite <- (peek_nonempty_append ints fracs) by lia.
      rewrite Hcat, Hlead. now apply Z.eqb_neq.
  - lia.
Qed.

Lemma bc_str2num_cases str scale :
  bc_str2num str scale = _zero_
  \/ exists fs v, bc_str2num str scale = mk_num (MIN (strlen fs) scale) v.
Proof.
  unfold bc_str2num.
  destruct (span_digits (skip_zeros _)) as [ds ptr].
  destruct (span_digits (if Ascii.eqb (peek ptr) "." then _ else _))
    as [fs ptr'].
  destruct (negb _ || _); [left; reflexivity|].
  right. exists fs.
  repeat match goal with
         | |- context [let '(_, _) := ?e in _] => destruct e
         end.
  eexists. reflexivity.
Qed.

Lemma bc_str2num_scale_nonneg str scale :
  0 <= scale -> 0 <= n_scale (bc_str2num str scale).
Proof.
  intros Hs. destruct (bc_str2num_cases str scale) as [->|(fs & v & ->)].
  - simpl. lia.
  - cbn [n_scale]. rewrite MIN_min. pose proof (strlen_nonneg fs). lia.
Qed.

(** ** Output in a base above 16 *)

Lemma bc_divide_int V B :
  0 <= V -> 0 < B ->
  bc_divide (mk_num 0 V) (mk_num 0 B) 0 = Some (mk_num 0 (V / B)).
Proof.
  intros HV HB. unfold bc_divide, bc_is_zero. cbn [n_scale n_value].
  destruct (Z.eqb_spec (Z.sgn B) 0); [exfalso; lia|].
  change (0 + 0 - 0) with 0. change (0 =? 0) with true. cbn [negb].
  rewrite Z.quot_div_nonneg by lia. reflexivity.
Qed.

Lemma bc_sub_int a b : bc_sub (mk_num 0 a) (mk_num 0 b) 0 = mk_num 0 (a - b).
Proof. reflexivity. Qed.

Lemma bc_multiply_int a b :
  bc_multiply (mk_num 0 a) (mk_num 0 b) 0 = mk_num 0 (a * b).
Proof. reflexivity. Qed.

Lemma bc_modulo_int V B :
  0 <= V -> 0 < B ->
  bc_modulo (mk_num 0 V) (mk_num 0 B) 0 = Some (mk_num 0 (V mod B)).
Proof.
  intros HV HB. unfold bc_modulo, bc_divmod, bc_is_zero.
  rewrite bc_divide_int by assumption. cbn [n_scale n_value].
  destruct (Z.eqb_spec (Z.sgn B) 0); [exfalso; lia|].
  cbn [default from_option id].
  change (MAX 0 (0 + 0)) with 0.
  rewrite bc_multiply_int, bc_sub_int.
  cbn [fmap option_fmap option_map snd].
  f_equal. f_equal. rewrite (Z.mod_eq V B) by lia. lia.
Qed.

Lemma bc_num2long_small LONG_MAX d :
  0 <= d <= LONG_MAX -> bc_num2long LONG_MAX (mk_num 0 d) = d.
Proof.
  intros Hd. unfold bc_num2long, mpz_fits_slong_p. cbn [n_scale n_value].
  cbn [Z.gtb Z.compare].
  destruct (Z.leb_spec (- LONG_MAX - 1) d); [|exfalso; lia].
  destruct (Z.leb_spec d LONG_MAX); [|exfalso; lia]. cbn [andb negb].
  destruct (Z.eqb_spec d (- LONG_MAX - 1)); [exfalso; lia|reflexivity].
Qed.

Lemma horner_snoc B ds d : horner B (ds ++ [d]) = horner B ds * B + d.
Proof. unfold horner. rewrite fold_left_app. reflexivity. Qed.

(** The digit loop leaves the base-[B] digits of the integer part on the
    stack, most significant on top. *)
Lemma int_digits_loop_spec LONG_MAX B fuel V cur acc :
  2 <= B -> B - 1 <= LONG_MAX ->
  0 <= V < 2 ^ Z.of_nat fuel ->
  exists ds,
    int_digits_loop LONG_MAX fuel (mk_num 0 V) (mk_num 0 B) cur acc
    = Some (ds ++ acc)
    /\ Forall (fun d => 0 <= d < B) ds
    /\ horner B ds = V
    /\ (V = 0 -> ds = [])
    /\ (V <> 0 -> hd 0 ds <> 0).
Proof.
  intros HB HL. revert V cur acc.
  induction fuel as [|fuel IH]; intros V cur acc HV.
  - assert (V = 0) by (change (2 ^ Z.of_nat 0) with 1 in HV; lia). subst V.
    exists []. repeat split; [constructor|intros H; exfalso; lia].
  - cbn [int_digits_loop]. unfold bc_is_zero at 1. cbn [n_value].
    destruct (Z.eqb_spec (Z.sgn V) 0) as [E|E].
    + assert (V = 0) by lia. subst V.
      exists []. repeat split; [constructor|intros H; exfalso; lia].
    + rewrite bc_modulo_int, bc_divide_int by lia.
      cbn [default from_option id].
      pose proof (Z.mod_pos_bound V B ltac:(lia)) as Hm.
      rewrite bc_num2long_small by lia.
      assert (Hq : 0 <= V / B < 2 ^ Z.of_nat fuel).
      { split; [apply Z.div_pos; lia|].
        apply Z.div_lt_upper_bound; [lia|].
        rewrite Nat2Z.inj_succ, Z.pow_succ_r in HV by lia. nia. }
      destruct (IH (V / B) (mk_num 0 (V mod B)) (V mod B :: acc) Hq)
        as (ds & Hloop & Hall & Hval & Hnil & Hhd).
      exists (ds ++ [V mod B]).
      split; [rewrite Hloop, <- app_assoc; reflexivity|].
      split; [apply Forall_app; split; [exact Hall|repeat constructor; lia]|].
      split; [|split].
      * rewrite horner_snoc, Hval. rewrite (Z.div_mod V B) at 3 by lia. lia.
      * intros HV0. exfalso. lia.
      * intros _. destruct (Z.eq_dec (V / B) 0) as [E0|E0].
        -- rewrite (Hnil E0). cbn [app hd].
           apply Z.div_small_iff in E0; [|lia].
           rewrite Z.mod_small by lia. lia.
        -- specialize (Hhd E0).
           destruct ds as [|d ds]; [contradiction|exact Hhd].
Qed.

Lemma sprintf_d_nonneg d : 0 <= d -> sprintf_d d = dec_text d.
Proof.
  intros Hd. rewrite sprintf_d_text. unfold sign_text.
  destruct (Z.ltb_spec d 0); [exfalso; lia|]. apply append_nil_l.
Qed.

Lemma bc_out_long_spaced d w :
  0 <= d -> bc_out_long d w 1 = " " +:+ padded_digit w d.
Proof.
  intros Hd. unfold bc_out_long, padded_digit.
  rewrite sprintf_d_nonneg by assumption. reflexivity.
Qed.

Lemma print_digits_wide o_base ix ds :
  16 < o_base -> Forall (fun d => 0 <= d) ds ->
  print_digits o_base ix ds = spaced_digits true ix ds.
Proof.
  intros Hb Hds. induction Hds as [|d ds Hd Hds IH]; [reflexivity|].
  cbn [print_digits spaced_digits].
  destruct (Z.leb_spec o_base 16); [exfalso; lia|].
  rewrite bc_out_long_spaced by assumption. rewrite IH.
  now rewrite append_assoc.
Qed.

Lemma dec_text_length_mono d m :
  0 <= d <= m -> strlen (dec_text d) <= strlen (dec_text m).
Proof.
  intros Hdm.
  destruct (dec_text_spec d) as (_ & Hld & _ & _ & _ & Hlo).
  destruct (dec_text_spec m) as (_ & Hlm & _ & _ & Hup & _).
  destruct (Z.eq_dec d 0) as [->|Hd0].
  - change (strlen (dec_text 0)) with 1. lia.
  - specialize (Hlo Hd0).
    assert (H : 10 ^ (strlen (dec_text d) - 1) < 10 ^ strlen (dec_text m))
      by lia.
    apply Z.pow_lt_mono_r_iff in H; lia.
Qed.

Lemma padded_digit_width w d :
  strlen (dec_text d) <= w -> strlen (padded_digit w d) = w.
Proof.
  intros H. unfold padded_digit. rewrite strlen_append, strlen_zeros. lia.
Qed.

Lemma bc_num2str_int m : 0 <= m -> bc_num2str (mk_num 0 m) = dec_text m.
Proof.
  intros Hm. rewrite bc_num2str_unfold. cbn [n_scale n_value]. cbv zeta.
  unfold sign_text. destruct (Z.ltb_spec m 0); [exfalso; lia|].
  pose proof (strlen_nonneg (dec_text m)) as Hl.
  destruct (Z.geb_spec (strlen (dec_text m)) 0); [|exfalso; lia].
  rewrite copy_chars_whole by lia. reflexivity.
Qed.

Lemma bc_num_length_nonneg_int T :
  0 <= T -> bc_num_length (mk_num 0 T) = strlen (dec_text T).
Proof.
  intros HT. unfold bc_num_length. cbn [n_value].
  rewrite sprintf_d_nonneg by assumption.
  destruct (dec_text_spec T) as (Hall & Hlen & _).
  pose proof (all_digits_peek _ Hall Hlen) as Hpk.
  destruct (isdigit_not_sign _ Hpk) as (_ & Hm & _). now rewrite Hm.
Qed.

Lemma frac_digits_loop_S LONG_MAX fuel o_base ix scale base frac_part t_num
    pre_space :
  frac_digits_loop LONG_MAX (S fuel) o_base ix scale base frac_part t_num
    pre_space
  = if bc_num_length t_num <=? scale then
      let frac_part := bc_multiply frac_part base scale in
      let fdigit := bc_num2long LONG_MAX frac_part in
      let int_part := bc_int2num fdigit in
      let frac_part := bc_sub frac_part int_part 0 in
      let '(out, pre_space) :=
        if o_base <=? 16 then (String (ref_char fdigit) "", pre_space)
        else (bc_out_long fdigit ix pre_space, 1) in
      let t_num := bc_multiply t_num base 0 in
      (fun rest => out +:+ rest)
        <$> frac_digits_loop LONG_MAX fuel o_base ix scale base frac_part
              t_num pre_space
    else Some ""%string.
Proof. reflexivity. Qed.

Lemma frac_digits_loop_O LONG_MAX o_base ix scale base frac_part t_num
    pre_space :
  frac_digits_loop LONG_MAX O o_base ix scale base frac_part t_num pre_space
  = if bc_num_length t_num <=? scale then None else Some ""%string.
Proof. reflexivity. Qed.

(** The fraction loop returns: its counter [t_num] is multiplied by the
    base in every round and soon has more digits than the scale. *)
Lemma frac_digits_loop_total LONG_MAX fuel o_base ix scale B frac_part T
    pre_space :
  2 <= B -> 1 <= T -> 0 <= scale -> 16 ^ scale <= T * 2 ^ Z.of_nat fuel ->
  exists fr,
    frac_digits_loop LONG_MAX fuel o_base ix scale (mk_num 0 B) frac_part
      (mk_num 0 T) pre_space = Some fr.
Proof.
  intros HB. revert frac_part T pre_space.
  induction fuel as [|fuel IH]; intros frac_part T pre_space HT Hs Hbig.
  - rewrite frac_digits_loop_O, bc_num_length_nonneg_int by lia.
    destruct (dec_text_spec T) as (_ & Hlen & _ & _ & Hup & _).
    destruct (Z.leb_spec (strlen (dec_text T)) scale) as [Hle|Hgt];
      [|eexists; reflexivity].
    exfalso. change (2 ^ Z.of_nat 0) with 1 in Hbig.
    assert (H1 : 10 ^ strlen (dec_text T) <= 10 ^ scale)
      by (apply Z.pow_le_mono_r; lia).
    assert (H2 : 10 ^ scale <= 16 ^ scale)
      by (apply Z.pow_le_mono_l; lia).
    lia.
  - rewrite frac_digits_loop_S.
    destruct (bc_num_length (mk_num 0 T) <=? scale); [|eexists; reflexivity].
    cbv zeta. rewrite bc_multiply_int.
    assert (Hbig' : 16 ^ scale <= T * B * 2 ^ Z.of_nat fuel).
    { rewrite Nat2Z.inj_succ, Z.pow_succ_r in Hbig by lia.
      assert (0 < 2 ^ Z.of_nat fuel) by (apply Z.pow_pos_nonneg; lia). nia. }
    destruct (o_base <=? 16);
      match goal with
      | |- context [frac_digits_loop _ fuel _ _ _ _ ?fp _ ?ps] =>
          destruct (IH fp (T * B) ps ltac:(nia) Hs Hbig') as (fr & Hfr)
      end; rewrite Hfr; eexists; reflexivity.
Qed.

Lemma bc_divide_one num :
  0 <= n_scale num ->
  bc_divide num _one_ 0
  = Some (mk_num 0 (Z.quot (n_value num) (10 ^ n_scale num))).
Proof.
  intros Hs. unfold bc_divide, _one_, bc_is_zero. cbn [n_scale n_value].
  change (Z.sgn 1 =? 0) with false. cbv iota.
  replace (0 + 0 - n_scale num) with (- n_scale num) by lia.
  rewrite Z.opp_involutive, !Z.quot_1_r.
  destruct (Z.eqb_spec (- n_scale num) 0) as [E|E]; cbn [negb].
  - replace (n_scale num) with 0 by lia. now rewrite Z.pow_0_r, Z.quot_1_r.
  - destruct (Z.gtb_spec (- n_scale num) 0); [exfalso; lia|reflexivity].
Qed.

Lemma loop_fuel_covers V :
  0 <= V -> V < 2 ^ Z.of_nat (loop_fuel (mk_num 0 V)).
Proof.
  intros HV. unfold loop_fuel. cbn [n_value].
  rewrite Nat2Z.inj_succ, Z2Nat.id by apply Z.log2_nonneg.
  rewrite Z.abs_eq by assumption.
  destruct (Z.eq_dec V 0) as [->|Hne]; [reflexivity|].
  apply Z.log2_spec. lia.
Qed.

(** What [bc_out_num] writes for a non-zero number in a base above 16. *)
Lemma bc_out_num_wide LONG_MAX num o_base leading_zero :
  0 <= n_scale num -> n_value num <> 0 ->
  16 < o_base -> o_base - 1 <= LONG_MAX ->
  let w := strlen (dec_text (o_base - 1)) in
  exists ds fr,
    bc_out_num LONG_MAX num o_base leading_zero
    = Some (sign_text (n_value num) +:+ spaced_digits true w ds +:+ fr)
    /\ Forall (fun d => 0 <= d < o_base) ds
    /\ horner o_base ds = Z.abs (Z.quot (n_value num) (10 ^ n_scale num))
    /\ hd 1 ds <> 0
    /\ (if n_scale num >? 0 then Ascii.eqb (peek fr) "." = true
        else fr = "").
Proof.
  intros Hs Hv Hb HL w.
  unfold bc_out_num.
  rewrite bc_is_neg_ltb. fold (sign_text (n_value num)).
  assert (Hz : bc_is_zero num = false).
  { unfold bc_is_zero. apply Z.eqb_neq. lia. }
  rewrite Hz. rewrite andb_false_r.
  destruct (Z.eqb_spec o_base 10); [exfalso; lia|].
  rewrite bc_divide_one by assumption.
  cbn [default from_option id n_scale n_value].
  unfold bc_int2num. rewrite bc_num2str_int by lia. fold w.
  set (V := Z.abs (Z.quot (n_value num) (10 ^ n_scale num))).
  destruct (int_digits_loop_spec LONG_MAX o_base (loop_fuel (mk_num 0 V))
              V _zero_ [] ltac:(lia) HL)
    as (ds & Hloop & Hall & Hval & Hnil & Hhd).
  { split; [subst V; lia|]. apply loop_fuel_covers. subst V. lia. }
  rewrite Hloop, app_nil_r.
  assert (Hall0 : Forall (fun d => 0 <= d) ds).
  { eapply Forall_impl; [exact Hall|]. cbv beta. intros. lia. }
  rewrite print_digits_wide by assumption.
  assert (Hhd1 : hd 1 ds <> 0).
  { destruct ds as [|d ds]; [cbn; lia|].
    cbn [hd] in *. apply Hhd. intros E. specialize (Hnil E). discriminate. }
  destruct (Z.gtb_spec (n_scale num) 0) as [Hpos|Hzero].
  - match goal with
    | |- context [frac_digits_loop _ ?f _ _ _ _ ?fp _ ?ps] =>
        destruct (frac_digits_loop_total LONG_MAX f o_base w (n_scale num)
                    o_base fp 1 ps ltac:(lia) ltac:(lia) Hs)
          as (fr & Hfr)
    end.
    { rewrite Z2Nat.id by lia. rewrite Z.pow_mul_r by lia.
      change (2 ^ 4) with 16. lia. }
    change _one_ with (mk_num 0 1). rewrite Hfr.
    cbn [fmap option_fmap option_map].
    exists ds, ("." +:+ fr).
    split; [rewrite append_nil_l; reflexivity|].
    repeat split; assumption.
  - cbn [fmap option_fmap option_map].
    exists ds, "".
    split; [rewrite append_nil_l; reflexivity|].
    repeat split; assumption.
Qed.

(** ** The loop of [bc_raisemod] ends *)

Lemma bc_divmod_two e :
  n_scale e = 0 ->
  exists r, bc_divmod e _two_ 0 = Some (mk_num 0 (Z.quot (n_value e) 2), r).
Proof.
  intros Hs. unfold bc_divmod, bc_divide.
  change (bc_is_zero _two_) with false. cbv iota.
  change (n_scale _two_) with 0. change (n_value _two_) with 2.
  rewrite Hs. change (0 + 0 - 0) with 0. change (negb (0 =? 0)) with false.
  cbv iota. cbn [default from_option id]. eauto.
Qed.

Lemma loop_fuel_abs e : Z.abs (n_value e) < 2 ^ Z.of_nat (loop_fuel e).
Proof.
  unfold loop_fuel.
  rewrite Nat2Z.inj_succ, Z2Nat.id by apply Z.log2_nonneg.
  destruct (Z.eq_dec (Z.abs (n_value e)) 0) as [->|Hne]; [reflexivity|].
  apply Z.log2_spec. lia.
Qed.

Lemma raisemod_loop_total fuel :
  forall modulus scale rscale power e temp parity,
  n_scale e = 0 -> Z.abs (n_value e) < 2 ^ Z.of_nat fuel ->
  is_Some (raisemod_loop fuel modulus scale rscale power e temp parity).
Proof.
  induction fuel as [|fuel IH]; intros modulus scale rscale power e temp parity
    Hs Hv; cbn [raisemod_loop]; unfold bc_is_zero at 1;
    destruct (Z.eqb_spec (Z.sgn (n_value e)) 0) as [Hz|Hz]; eauto.
  - exfalso. change (2 ^ Z.of_nat 0) with 1 in Hv. lia.
  - destruct (bc_divmod_two e Hs) as [r ->].
    cbn [default from_option id]. apply IH; [reflexivity|].
    cbn [n_value]. rewrite Nat2Z.inj_succ, Z.pow_succ_r in Hv by lia.
    rewrite <- Z.quot_abs by lia. change (Z.abs 2) with 2.
    apply Z.quot_lt_upper_bound; lia.
Qed.

Lemma bc_raisemod_total base expo modulus scale :
  bc_is_zero modulus = false -> bc_is_neg expo = false ->
  is_Some (bc_raisemod base expo modulus scale).
Proof.
  intros Hm Hn. unfold bc_raisemod. rewrite Hm, Hn.
  apply raisemod_loop_total; [|apply loop_fuel_abs].
  destruct (Z.eqb_spec (n_scale expo) 0) as [Hs|Hs]; [exact Hs|].
  cbn [negb].
  destruct (bc_divide_some expo _one_ 0) as [qv ->]; [discriminate|].
  reflexivity.
Qed.

Lemma bc_divmod_two_parts e :
  n_scale e = 0 ->
  bc_divmod e _two_ 0
  = Some (mk_num 0 (Z.quot (n_value e) 2), mk_num 0 (Z.rem (n_value e) 2)).
Proof.
  destruct e as [s v]. cbn [n_scale n_value]. intros ->.
  replace (Z.rem v 2) with (v - Z.quot v 2 * 2)
    by (pose proof (Z.quot_rem' v 2); lia).
  reflexivity.
Qed.

(** Halving a non-zero integer exponent: an even one has a non-zero
    half. *)
Lemma halving_nonzero e :
  n_scale e = 0 -> bc_is_zero e = false ->
  bc_is_zero (mk_num 0 (Z.rem (n_value e) 2)) = true ->
  bc_is_zero (mk_num 0 (Z.quot (n_value e) 2)) = false.
Proof.
  unfold bc_is_zero. cbn [n_value]. intros _ Hnz Hr.
  apply Z.eqb_neq in Hnz. apply Z.eqb_eq in Hr. apply Z.eqb_neq.
  pose proof (Z.quot_rem' (n_value e) 2). lia.
Qed.

(** ** The exponent of [bc_raise] *)

Lemma bc_num2long_cases LONG_MAX n :
  0 <= n_scale n ->
  bc_num2long LONG_MAX n
  = let q := Z.quot (n_value n) (10 ^ n_scale n) in
    if (- LONG_MAX - 1 <? q) && (q <=? LONG_MAX) then q else 0.
Proof.
  intros Hn. unfold bc_num2long, mpz_fits_slong_p. cbn zeta.
  destruct (Z.gtb_spec (n_scale n) 0) as [Hpos|Hzero].
  - destruct (Z.leb_spec (- LONG_MAX - 1)
                (Z.quot (n_value n) (10 ^ n_scale n)));
      destruct (Z.leb_spec (Z.quot (n_value n) (10 ^ n_scale n)) LONG_MAX);
      destruct (Z.ltb_spec (- LONG_MAX - 1)
                  (Z.quot (n_value n) (10 ^ n_scale n)));
      destruct (Z.eqb_spec (Z.quot (n_value n) (10 ^ n_scale n))
                  (- LONG_MAX - 1));
      cbn; lia.
  - replace (n_scale n) with 0 by lia.
    rewrite Z.pow_0_r, Z.quot_1_r.
    destruct (Z.leb_spec (- LONG_MAX - 1) (n_value n));
      destruct (Z.leb_spec (n_value n) LONG_MAX);
      destruct (Z.ltb_spec (- LONG_MAX - 1) (n_value n));
      destruct (Z.eqb_spec (n_value n) (- LONG_MAX - 1));
      cbn; lia.
Qed.

Lemma bc_num2long_zero_iff LONG_MAX n :
  0 <= n_scale n ->
  let q := Z.quot (n_value n) (10 ^ n_scale n) in
  bc_num2long LONG_MAX n = 0
  <-> q = 0 \/ ~ (- LONG_MAX - 1 < q <= LONG_MAX).
Proof.
  intros Hn q. rewrite bc_num2long_cases by assumption. fold q. cbn zeta.
  destruct (Z.ltb_spec (- LONG_MAX - 1) q); destruct (Z.leb_spec q LONG_MAX);
    cbn; lia.
Qed.

(** The comparison of magnitudes with one. *)
Lemma cmpabs_one n :
  0 <= n_scale n ->
  _bc_do_compare n _one_ false > 0 <-> 10 ^ n_scale n < Z.abs (n_value n).
Proof.
  intros Hs. pose proof (pow10_gt0 _ Hs) as P.
  unfold _bc_do_compare, _one_, mpz_cmpabs, mpz_cmp.
  cbn [n_scale n_value]. rewrite Z.mul_1_l, Z.sub_0_r.
  rewrite (Z.abs_eq (10 ^ n_scale n)) by lia. change (Z.abs 1) with 1.
  destruct (Z.gtb_spec (n_scale n) 0); [|destruct (Z.ltb_spec (n_scale n) 0)];
    try lia.
  - destruct (Z.compare_spec (Z.abs (n_value n)) (10 ^ n_scale n)); cbn; lia.
  - replace (n_scale n) with 0 in * by lia. rewrite Z.pow_0_r.
    destruct (Z.compare_spec (Z.abs (n_value n)) 1); cbn; lia.
Qed.

Lemma bc_val_beyond_one n :
  0 <= n_scale n ->
  (bc_val n < - (1) \/ 1 < bc_val n)%Q <-> 10 ^ n_scale n < Z.abs (n_value n).
Proof.
  intros Hs. pose proof (pow10_gt0 _ Hs) as P. unfold bc_val.
  change (- (1))%Q with (inject_Z (-1) / inject_Z 1)%Q.
  change 1%Q with (inject_Z 1 / inject_Z 1)%Q.
  rewrite !Qdiv_inject_lt by lia. lia.
Qed.

Lemma quot_nonzero_of_large v b : 0 < b -> b < Z.abs v -> Z.quot v b <> 0.
Proof.
  intros Hb Hv Hq. apply Z.quot_small_iff in Hq; lia.
Qed.


Lemma bc_is_zero_nonzero v : n_value v <> 0 -> bc_is_zero v = false.
Proof.
  intros Hv. unfold bc_is_zero.
  destruct (Z.eqb_spec (Z.sgn (n_value v)) 0); [lia|reflexivity].
Qed.

(** ** Sums, comparisons and quotients as rationals *)

Lemma bc_add_scale n1 n2 scale_min :
  n_scale (bc_add n1 n2 scale_min)
  = Z.max (Z.max (n_scale n1) (n_scale n2)) scale_min.
Proof. unfold bc_add. simpl. now rewrite !MAX_max. Qed.

Lemma bc_add_val n1 n2 scale_min :
  0 <= n_scale n1 -> 0 <= n_scale n2 ->
  (bc_val (bc_add n1 n2 scale_min) == bc_val n1 + bc_val n2)%Q.
Proof.
  destruct n1 as [s1 v1], n2 as [s2 v2]. simpl. intros H1 H2.
  unfold bc_add, bc_val. simpl. rewrite !MAX_max.
  pose proof (pow10_gt0 s1 H1) as P1.
  pose proof (pow10_gt0 s2 H2) as P2.
  rewrite Qdiv_inject_add by assumption.
  set (m := Z.max s1 s2).
  assert (Hm : 0 <= m) by lia.
  pose proof (pow10_gt0 (Z.max m scale_min) ltac:(lia)) as P3.
  apply Qdiv_inject_eq; [assumption|nia|].
  assert (Hd : (if s1 >? s2 then v1 + v2 * 10 ^ (s1 - s2)
                else if s1 <? s2 then v1 * 10 ^ (s2 - s1) + v2
                else v1 + v2) * (10 ^ s1 * 10 ^ s2)
               = (v1 * 10 ^ s2 + v2 * 10 ^ s1) * 10 ^ m).
  { subst m. destruct (Z.gtb_spec s1 s2); [|destruct (Z.ltb_spec s1 s2)].
    - rewrite Z.max_l by lia. rewrite (pow10_factor s1 s2) by lia. ring.
    - rewrite Z.max_r by lia. rewrite (pow10_factor s2 s1) by lia. ring.
    - replace s2 with s1 by lia. rewrite Z.max_id. ring. }
  destruct (Z.ltb_spec m scale_min).
  - rewrite (Z.max_r m) by lia.
    rewrite (pow10_factor scale_min m) by lia.
    rewrite <- Z.mul_assoc, (Z.mul_comm (10 ^ (scale_min - m))), Z.mul_assoc.
    rewrite Hd. ring.
  - rewrite (Z.max_l m) by lia. exact Hd.
Qed.

Lemma mpz_cmp_sgn a b : mpz_cmp a b = Z.sgn (a - b).
Proof. unfold mpz_cmp. destruct (Z.compare_spec a b); lia. Qed.

Lemma normalise_sgn x :
  (let result := Z.sgn x in
   let result := if result <? 0 then -1 else result in
   if result >? 0 then 1 else result) = Z.sgn x.
Proof.
  cbn zeta. destruct (Z.ltb_spec (Z.sgn x) 0).
  - destruct (Z.gtb_spec (-1) 0); lia.
  - destruct (Z.gtb_spec (Z.sgn x) 0); lia.
Qed.

Lemma sgn_scale x k : 0 < k -> Z.sgn (x * k) = Z.sgn x.
Proof. intros Hk. rewrite Z.sgn_mul, (Z.sgn_pos k) by lia. lia. Qed.

Lemma bc_compare_sgn n1 n2 :
  0 <= n_scale n1 -> 0 <= n_scale n2 ->
  bc_compare n1 n2
  = Z.sgn (n_value n1 * 10 ^ n_scale n2 - n_value n2 * 10 ^ n_scale n1).
Proof.
  destruct n1 as [s1 v1], n2 as [s2 v2]. cbn [n_scale n_value].
  intros H1 H2. unfold bc_compare, _bc_do_compare. cbn [n_scale n_value].
  pose proof (pow10_gt0 s1 H1) as P1.
  pose proof (pow10_gt0 s2 H2) as P2.
  rewrite !mpz_cmp_sgn.
  destruct (Z.gtb_spec s1 s2); [|destruct (Z.ltb_spec s1 s2)];
    rewrite normalise_sgn.
  - rewrite <- (sgn_scale (v1 - v2 * 10 ^ (s1 - s2)) (10 ^ s2)) by lia.
    f_equal. rewrite (pow10_factor s1 s2) by lia. ring.
  - rewrite <- (sgn_scale (v1 * 10 ^ (s2 - s1) - v2) (10 ^ s1)) by lia.
    f_equal. rewrite (pow10_factor s2 s1) by lia. ring.
  - replace s2 with s1 by lia.
    rewrite <- Z.mul_sub_distr_r. now rewrite sgn_scale.
Qed.

Lemma bc_cmpabs_sgn n1 n2 :
  0 <= n_scale n1 -> 0 <= n_scale n2 ->
  _bc_do_compare n1 n2 false
  = Z.sgn (Z.abs (n_value n1) * 10 ^ n_scale n2
           - Z.abs (n_value n2) * 10 ^ n_scale n1).
Proof.
  destruct n1 as [s1 v1], n2 as [s2 v2]. cbn [n_scale n_value].
  intros H1 H2. unfold _bc_do_compare, mpz_cmpabs. cbn [n_scale n_value].
  pose proof (pow10_gt0 s1 H1) as P1.
  pose proof (pow10_gt0 s2 H2) as P2.
  rewrite !mpz_cmp_sgn.
  destruct (Z.gtb_spec s1 s2); [|destruct (Z.ltb_spec s1 s2)];
    rewrite normalise_sgn.
  - rewrite Z.abs_mul, (Z.abs_eq (10 ^ (s1 - s2)))
      by (apply Z.pow_nonneg; lia).
    rewrite <- (sgn_scale (Z.abs v1 - Z.abs v2 * 10 ^ (s1 - s2)) (10 ^ s2))
      by lia.
    f_equal. rewrite (pow10_factor s1 s2) by lia. ring.
  - rewrite Z.abs_mul, (Z.abs_eq (10 ^ (s2 - s1)))
      by (apply Z.pow_nonneg; lia).
    rewrite <- (sgn_scale (Z.abs v1 * 10 ^ (s2 - s1) - Z.abs v2) (10 ^ s1))
      by lia.
    f_equal. rewrite (pow10_factor s2 s1) by lia. ring.
  - replace s2 with s1 by lia.
    rewrite <- Z.mul_sub_distr_r. now rewrite sgn_scale.
Qed.





Lemma bc_divmod_int a b :
  b <> 0 ->
  bc_divmod (mk_num 0 a) (mk_num 0 b) 0
  = Some (mk_num 0 (Z.quot a b), mk_num 0 (Z.rem a b)).
Proof.
  intros Hb. unfold bc_divmod, bc_divide.
  rewrite bc_is_zero_nonzero by exact Hb. cbn [n_scale n_value].
  change (0 + 0 - 0) with 0. change (negb (0 =? 0)) with false. cbv iota.
  cbn [default from_option id].
  change (MAX 0 (0 + 0)) with 0.
  rewrite bc_multiply_int, bc_sub_int.
  do 3 f_equal. pose proof (Z.quot_rem' a b). lia.
Qed.

(** ** Modular exponentiation on integers *)

Lemma pow_mod_base x k m : 0 < m -> ((x mod m) ^ k) mod m = (x ^ k) mod m.
Proof. intros _. apply Z.mod_pow_l. Qed.

Lemma square_step t p e m :
  0 < m -> 0 <= e ->
  (t * ((p * p) mod m) ^ e) mod m = (t * p ^ (2 * e)) mod m.
Proof.
  intros Hm He.
  rewrite Z.mul_mod, pow_mod_base, <- Z.mul_mod by lia.
  rewrite <- Z.pow_2_r, <- Z.pow_mul_r by lia. reflexivity.
Qed.

Lemma raisemod_loop_int m fuel :
  0 < m ->
  forall p e t y,
  0 <= p -> 0 <= t -> 0 <= e < 2 ^ Z.of_nat fuel ->
  exists r,
    raisemod_loop fuel (mk_num 0 m) 0 0 (mk_num 0 p) (mk_num 0 e)
      (mk_num 0 t) y = Some (mk_num 0 r)
    /\ (e = 0 -> r = t)
    /\ (0 < e -> r = (t * p ^ e) mod m).
Proof.
  intros Hm. induction fuel as [|fuel IH]; intros p e t y Hp Ht He;
    cbn [raisemod_loop]; unfold bc_is_zero at 1; cbn [n_value].
  - change (2 ^ Z.of_nat 0) with 1 in He. replace e with 0 by lia.
    exists t. split; [reflexivity|]. split; [reflexivity|lia].
  - destruct (Z.eqb_spec (Z.sgn e) 0) as [Hz|Hz].
    + exists t. split; [reflexivity|]. split; [reflexivity|lia].
    + assert (Hpos : 0 < e) by lia.
      rewrite (bc_divmod_two_parts (mk_num 0 e)) by reflexivity.
      cbn [default from_option id n_value].
      rewrite Z.quot_div_nonneg, Z.rem_mod_nonneg by lia.
      rewrite !bc_multiply_int.
      rewrite (bc_modulo_int (p * p) m) by nia.
      cbn [default from_option id].
      assert (Hhalf : 0 <= e / 2 < 2 ^ Z.of_nat fuel).
      { rewrite Nat2Z.inj_succ, Z.pow_succ_r in He by lia.
        split; [apply Z.div_pos; lia|].
        apply Z.div_lt_upper_bound; lia. }
      pose proof (Z.div_mod e 2 ltac:(lia)) as Hdm.
      pose proof (Z.mod_pos_bound e 2 ltac:(lia)) as Hbit.
      pose proof (Z.mod_pos_bound (p * p) m Hm) as Hpp.
      unfold bc_is_zero at 1. cbn [n_value].
      destruct (Z.eqb_spec (Z.sgn (e mod 2)) 0) as [Heven|Hodd];
        cbn [negb].
      * destruct (IH ((p * p) mod m) (e / 2) t (mk_num 0 (e mod 2)))
          as (r & Hr & _ & Hgt); [lia..|].
        exists r. split; [exact Hr|]. split; [lia|]. intros _.
        rewrite Hgt by lia. rewrite square_step by lia.
        do 3 f_equal. lia.
      * rewrite (bc_modulo_int (t * p) m) by nia.
        cbn [default from_option id].
        pose proof (Z.mod_pos_bound (t * p) m Hm) as Htp.
        destruct (IH ((p * p) mod m) (e / 2) ((t * p) mod m)
                    (mk_num 0 (e mod 2)))
          as (r & Hr & Heq & Hgt); [lia..|].
        exists r. split; [exact Hr|]. split; [lia|]. intros _.
        destruct (Z.eq_dec (e / 2) 0) as [H0|H0].
        -- rewrite Heq by exact H0. replace e with 1 by lia.
           now rewrite Z.pow_1_r.
        -- rewrite Hgt by lia. rewrite square_step by lia.
           rewrite Z.mul_mod_idemp_l by lia.
           replace e with (2 * (e / 2) + 1) at 2 by lia.
           rewrite Z.pow_add_r, Z.pow_1_r by lia.
           f_equal. ring.
Qed.

(** ** Powers with a positive exponent *)

Lemma int_of_long_fits INT_MAX z :
  - INT_MAX - 1 <= z <= INT_MAX -> int_of_long INT_MAX z = z.
Proof.
  intros Hz. unfold int_of_long. rewrite Z.mod_small by lia. lia.
Qed.

Lemma int_of_long_range INT_MAX z :
  0 <= INT_MAX -> - INT_MAX - 1 <= int_of_long INT_MAX z <= INT_MAX.
Proof.
  intros Hi. unfold int_of_long.
  pose proof (Z.mod_pos_bound (z + (INT_MAX + 1)) (2 * (INT_MAX + 1))
                ltac:(lia)).
  lia.
Qed.




(** Two calls on a host with 64-bit [long] and 32-bit [int] in which the
    difference of scales does not fit an [int].  For [0.01 ^ (2 ^ 31)] at
    scale 2 the difference [2 ^ 32 - 2] is stored as [-2], so the power
    [1] is multiplied by [10 ^ 2].  For [0.1 ^ (- 2 ^ 32)] at scale 0 the
    difference [2 ^ 32] is stored as [0], and the quotient is [1 / 1]. *)
Example bc_raise_narrowed_positive :
  bc_raise (2 ^ 63 - 1) (2 ^ 31 - 1) (mk_num 2 1) (mk_num 0 (2 ^ 31)) 2
  = Some (mk_num 2 100).
Proof.
  unfold bc_raise.
  replace (bc_num2long (2 ^ 63 - 1) (mk_num 0 (2 ^ 31))) with (2 ^ 31)
    by (vm_compute; reflexivity).
  change (2 ^ 31 =? 0) with false. change (2 ^ 31 <? 0) with false.
  cbv beta iota zeta. cbn [n_scale n_value].
  replace (int_of_long (2 ^ 31 - 1) (MIN (2 * 2 ^ 31) (MAX 2 2))) with 2
    by (vm_compute; reflexivity).
  replace (int_of_long (2 ^ 31 - 1) (2 * 2 ^ 31 - 2)) with (-2)
    by (vm_compute; reflexivity).
  change (negb (-2 =? 0)) with true. change (-2 <? 0) with true.
  cbv iota. rewrite Z.pow_1_l by lia. reflexivity.
Qed.

Example bc_raise_narrowed_negative :
  bc_raise (2 ^ 63 - 1) (2 ^ 31 - 1) (mk_num 1 1) (mk_num 0 (- 2 ^ 32)) 0
  = Some (mk_num 0 1).
Proof.
  unfold bc_raise.
  replace (bc_num2long (2 ^ 63 - 1) (mk_num 0 (- 2 ^ 32))) with (- 2 ^ 32)
    by (vm_compute; reflexivity).
  change (- 2 ^ 32 =? 0) with false. change (- 2 ^ 32 <? 0) with true.
  cbv beta iota zeta. cbn [n_scale n_value].
  replace (int_of_long (2 ^ 31 - 1) (1 * - - 2 ^ 32 - 0)) with 0
    by (vm_compute; reflexivity).
  change (negb (0 =? 0)) with false. cbv iota.
  rewrite Z.pow_1_l by lia. reflexivity.
Qed.

(** ** More on texts *)

Lemma skip_zeros_digits ds c rest :
  all_digits ds = true -> isdigit c = false ->
  exists ds',
    skip_zeros (ds +:+ String c rest) = ds' +:+ String c rest
    /\ all_digits ds' = true.
Proof.
  intros Hd Hc. induction ds as [|d ds IH].
  - exists "". split; [|reflexivity]. rewrite append_nil_l.
    cbn [skip_zeros]. destruct (Ascii.eqb_spec c "0") as [->|_];
      [vm_compute in Hc; discriminate|reflexivity].
  - cbn [all_digits] in Hd. apply andb_prop in Hd as [Hd1 Hd2].
    rewrite append_cons. cbn [skip_zeros].
    destruct (Ascii.eqb d "0").
    + exact (IH Hd2).
    + exists (String d ds). split; [reflexivity|].
      cbn [all_digits]. now rewrite Hd1, Hd2.
Qed.

Lemma bc_num_length_digits num :
  bc_num_length num = strlen (dec_text (n_value num)).
Proof.
  unfold bc_num_length. rewrite sprintf_d_text. unfold sign_text.
  destruct (dec_text_spec (n_value num)) as (Hd & Hl & _).
  destruct (Z.ltb_spec (n_value num) 0).
  - rewrite strlen_append. change (strlen "-") with 1.
    rewrite append_cons. cbn [peek]. change (Ascii.eqb "-" "-") with true. cbv iota. lia.
  - rewrite append_nil_l.
    pose proof (all_digits_peek _ Hd Hl) as Hfirst.
    destruct (isdigit_not_sign _ Hfirst) as (_ & -> & _). reflexivity.
Qed.

Lemma bc_num2str_starts num :
  0 <= n_scale num -> 0 <= n_value num ->
  Ascii.eqb (peek (bc_num2str num)) "-" = false.
Proof.
  intros Hs Hv.
  destruct (bc_num2str_shape num Hs) as (ints & fracs & -> & Hcat & Hf & Hi).
  cbn zeta in *.
  unfold sign_text. destruct (Z.ltb_spec (n_value num) 0); [lia|].
  rewrite append_nil_l.
  destruct (dec_text_spec (n_value num)) as (Hd & Hl & _).
  assert (Hall : all_digits (ints +:+ fracs) = true).
  { rewrite Hcat, all_digits_append, all_digits_zeros. exact Hd. }
  rewrite all_digits_append in Hall. apply andb_prop in Hall as [Hai _].
  destruct ints as [|c ints].
  - rewrite append_nil_l.
    destruct (Z.gtb_spec (n_scale num) 0); [reflexivity|].
    exfalso. change (strlen "") with 0 in Hi. lia.
  - rewrite append_cons. cbn [peek]. cbn [all_digits] in Hai.
    apply andb_prop in Hai as [Hc _].
    now destruct (isdigit_not_sign _ Hc) as (_ & -> & _).
Qed.

Lemma bc_num2str_negative num :
  n_value num < 0 ->
  exists rest, bc_num2str num = "-" +:+ rest.
Proof.
  intros Hv. rewrite bc_num2str_unfold. unfold sign_text.
  destruct (Z.ltb_spec (n_value num) 0); [|lia]. cbn zeta.
  destruct (_ >=? _).
  - destruct (copy_chars _ _) as [whole iptr].
    destruct (_ >? _).
    + destruct (copy_chars _ _) as [frac iptr'].
      eexists. rewrite !append_assoc. reflexivity.
    + eexists. reflexivity.
  - destruct (copy_chars _ _) as [digs iptr].
    eexists. rewrite !append_assoc. reflexivity.
Qed.

(** ** Output in a base up to 16 *)

Lemma print_digits_narrow o_base ix ds :
  o_base <= 16 -> print_digits o_base ix ds = ref_digits ds.
Proof.
  intros Hb. induction ds as [|d ds IH]; [reflexivity|].
  cbn [print_digits ref_digits].
  destruct (Z.leb_spec o_base 16); [|exfalso; lia].
  rewrite IH. reflexivity.
Qed.

Lemma bc_out_num_narrow LONG_MAX num o_base leading_zero :
  0 <= n_scale num -> n_value num <> 0 ->
  2 <= o_base <= 16 -> o_base <> 10 -> o_base - 1 <= LONG_MAX ->
  exists ds fr,
    bc_out_num LONG_MAX num o_base leading_zero
    = Some (sign_text (n_value num) +:+ ref_digits ds +:+ fr)
    /\ Forall (fun d => 0 <= d < o_base) ds
    /\ horner o_base ds = Z.abs (Z.quot (n_value num) (10 ^ n_scale num))
    /\ hd 1 ds <> 0
    /\ (if n_scale num >? 0 then Ascii.eqb (peek fr) "." = true
        else fr = "").
Proof.
  intros Hs Hv Hb H10 HL.
  unfold bc_out_num.
  rewrite bc_is_neg_ltb. fold (sign_text (n_value num)).
  rewrite bc_is_zero_nonzero by exact Hv. rewrite andb_false_r.
  destruct (Z.eqb_spec o_base 10); [exfalso; lia|].
  rewrite bc_divide_one by assumption.
  cbn [default from_option id n_scale n_value].
  unfold bc_int2num. rewrite bc_num2str_int by lia.
  set (w := strlen (dec_text (o_base - 1))).
  set (V := Z.abs (Z.quot (n_value num) (10 ^ n_scale num))).
  destruct (int_digits_loop_spec LONG_MAX o_base (loop_fuel (mk_num 0 V))
              V _zero_ [] ltac:(lia) HL)
    as (ds & Hloop & Hall & Hval & Hnil & Hhd).
  { split; [subst V; lia|]. apply loop_fuel_covers. subst V. lia. }
  rewrite Hloop, app_nil_r.
  rewrite print_digits_narrow by lia.
  assert (Hhd1 : hd 1 ds <> 0).
  { destruct ds as [|d ds]; [cbn; lia|].
    cbn [hd] in *. apply Hhd. intros E. specialize (Hnil E). discriminate. }
  destruct (Z.gtb_spec (n_scale num) 0) as [Hpos|Hzero].
  - match goal with
    | |- context [frac_digits_loop _ ?f _ _ _ _ ?fp _ ?ps] =>
        destruct (frac_digits_loop_total LONG_MAX f o_base w (n_scale num)
                    o_base fp 1 ps ltac:(lia) ltac:(lia) Hs)
          as (fr & Hfr)
    end.
    { rewrite Z2Nat.id by lia. rewrite Z.pow_mul_r by lia.
      change (2 ^ 4) with 16. lia. }
    change _one_ with (mk_num 0 1). rewrite Hfr.
    cbn [fmap option_fmap option_map].
    exists ds, ("." +:+ fr).
    split; [rewrite append_nil_l; reflexivity|].
    repeat split; assumption.
  - cbn [fmap option_fmap option_map].
    exists ds, "".
    split; [rewrite append_nil_l; reflexivity|].
    repeat split; assumption.
Qed.

(** * The storage layer *)

(** ** Weakest preconditions *)

Lemma wp_ret {A} (x : A) Q h : Q x h -> wp (Heap.ret x) Q h.
Proof. intros H. exists x, h. split; [reflexivity|exact H]. Qed.

Lemma wp_bind {A B} (m : Heap.M A) (k : A -> Heap.M B) Q h :
  wp m (fun x h' => wp (k x) Q h') h -> wp (Heap.bind m k) Q h.
Proof.
  intros (x & h' & Hm & y & h'' & Hk & HQ).
  exists y, h''. split; [|exact HQ]. unfold Heap.bind. now rewrite Hm.
Qed.

Lemma wp_mono {A} (m : Heap.M A) (Q Q' : A -> Heap.heap -> Prop) h :
  wp m Q h -> (forall x h', Q x h' -> Q' x h') -> wp m Q' h.
Proof. intros (x & h' & Hm & HQ) Himp. exists x, h'. auto. Qed.

Lemma wp_gets {A} (f : Heap.heap -> A) Q h : Q (f h) h -> wp (Heap.gets f) Q h.
Proof. intros H. exists (f h), h. split; [reflexivity|exact H]. Qed.

Lemma wp_run {A} (m : Heap.M A) Q h x h' :
  m h = Some (x, h') -> Q x h' -> wp m Q h.
Proof. intros Hm HQ. exists x, h'. auto. Qed.

(** ** Live cells and updates of the store *)

Lemma live_lookup h a : live h !! a = Heap.cells h !! a ≫= view_cell.
Proof. unfold live. now rewrite lookup_omap, lookup_map_seq_0. Qed.

Lemma live_cell h a v r :
  live h !! a = Some (v, r) ->
  exists c,
    Heap.cells h !! a = Some c
    /\ Heap.n_scale c = n_scale v
    /\ Heap.n_value c = Some (n_value v)
    /\ Heap.n_refs c = r
    /\ 0 < r.
Proof.
  rewrite live_lookup. destruct (Heap.cells h !! a) as [c|]; [|discriminate].
  cbn. unfold view_cell.
  destruct (Z.ltb_spec 0 (Heap.n_refs c)); [|discriminate].
  destruct (Heap.n_value c) as [z|] eqn:Hz; [|discriminate].
  intros [= <- <-]. exists c. cbn [n_scale n_value].
  repeat split; try reflexivity; assumption.
Qed.

Lemma live_refs_pos h a v r : live h !! a = Some (v, r) -> 0 < r.
Proof. intros H. destruct (live_cell _ _ _ _ H) as (c & _ & _ & _ & _ & Hr). exact Hr. Qed.

Lemma live_insert_cell h a c c' :
  Heap.cells h !! a = Some c ->
  live (Heap.with_cells h (<[a:=c']> (Heap.cells h)))
  = partial_alter (fun _ => view_cell c') a (live h).
Proof.
  intros Ha. apply map_eq. intros i. rewrite live_lookup. cbn [Heap.with_cells Heap.cells].
  destruct (decide (a = i)) as [->|Hne].
  - rewrite list_lookup_insert_eq by (eapply lookup_lt_Some; eassumption).
    now rewrite lookup_partial_alter_eq.
  - rewrite list_lookup_insert_ne, lookup_partial_alter_ne by assumption.
    now rewrite live_lookup.
Qed.

Lemma live_app_dead h :
  live (Heap.with_cells h (Heap.cells h ++ [Heap.mk_struct 0 0 None None]))
  = live h.
Proof.
  apply map_eq. intros i. rewrite !live_lookup. cbn [Heap.with_cells Heap.cells].
  destruct (Heap.cells h !! i) as [c|] eqn:Hi.
  - now rewrite (lookup_app_l_Some _ _ _ _ Hi).
  - apply lookup_ge_None in Hi. rewrite lookup_app_r by assumption.
    destruct (i - length (Heap.cells h))%nat as [|n]; reflexivity.
Qed.

(** ** The free list *)

Lemma free_chain_insert cs p fl a c' :
  a ∉ fl -> free_chain cs p fl -> free_chain (<[a:=c']> cs) p fl.
Proof.
  revert p. induction fl as [|b fl IH]; intros p Hnot Hch; [exact Hch|].
  destruct Hch as (-> & c & Hc & Hr & Hrest).
  split; [reflexivity|]. exists c.
  rewrite list_lookup_insert_ne by (intros ->; apply Hnot; left).
  split; [exact Hc|]. split; [exact Hr|].
  apply IH; [|exact Hrest]. intros Hin. apply Hnot. now right.
Qed.

Lemma free_chain_app cs p fl x :
  free_chain cs p fl -> free_chain (cs ++ [x]) p fl.
Proof.
  revert p. induction fl as [|b fl IH]; intros p Hch; [exact Hch|].
  destruct Hch as (-> & c & Hc & Hr & Hrest).
  split; [reflexivity|]. exists c.
  split; [now apply lookup_app_l_Some|]. split; [exact Hr|]. now apply IH.
Qed.

Lemma free_chain_refs cs p fl a :
  free_chain cs p fl -> a ∈ fl ->
  exists c, cs !! a = Some c /\ Heap.n_refs c = 0.
Proof.
  revert p. induction fl as [|b fl IH]; intros p Hch Hin.
  - inversion Hin.
  - destruct Hch as (-> & c & Hc & Hr & Hrest).
    apply elem_of_cons in Hin as [->|Hin]; [eauto|]. eapply IH; eassumption.
Qed.

Lemma live_not_free h fl a v r :
  free_chain (Heap.cells h) (Heap._bc_Free_list h) fl ->
  live h !! a = Some (v, r) -> a ∉ fl.
Proof.
  intros Hch Hl Hin.
  destruct (free_chain_refs _ _ _ _ Hch Hin) as (c & Hc & Hr).
  destruct (live_cell _ _ _ _ Hl) as (c' & Hc' & _ & _ & Hr' & Hpos).
  rewrite Hc in Hc'. injection Hc' as <-. lia.
Qed.

(** ** Running the field accesses *)

Lemma deref_run h a c :
  Heap.cells h !! a = Some c -> Heap.deref (Some a) h = Some (c, h).
Proof. intros Hc. unfold Heap.deref. now rewrite Hc. Qed.

Lemma update_run h a c f :
  Heap.cells h !! a = Some c ->
  Heap.update a f h
  = Some (tt, Heap.with_cells h (<[a:=f c]> (Heap.cells h))).
Proof. intros Hc. unfold Heap.update. now rewrite Hc. Qed.

Lemma lookup_updated h a c x :
  Heap.cells h !! a = Some c ->
  Heap.cells (Heap.with_cells h (<[a:=x]> (Heap.cells h))) !! a = Some x.
Proof.
  intros Hc. cbn [Heap.with_cells Heap.cells].
  apply list_lookup_insert_eq. eapply lookup_lt_Some, Hc.
Qed.

Lemma with_cells_twice h cs cs' :
  Heap.with_cells (Heap.with_cells h cs) cs' = Heap.with_cells h cs'.
Proof. reflexivity. Qed.

(** An update of a cell that is not on the free list. *)
Lemma models_update h L E a c c' :
  models h L E -> Heap.cells h !! a = Some c -> Heap.n_refs c <> 0 ->
  models (Heap.with_cells h (<[a:=c']> (Heap.cells h)))
    (partial_alter (fun _ => view_cell c') a L) E.
Proof.
  intros ((fl & Hnd & Hch) & <- & <-) Hc Hr.
  split; [|split; [eapply live_insert_cell; eassumption|reflexivity]].
  exists fl. split; [exact Hnd|]. cbn [Heap.with_cells Heap.cells Heap._bc_Free_list].
  apply free_chain_insert; [|exact Hch].
  intros Hin. destruct (free_chain_refs _ _ _ _ Hch Hin) as (c0 & Hc0 & Hr0).
  congruence.
Qed.

(** ** Reading a live cell *)

Lemma wp_get_scale h L E a v r Q :
  models h L E -> L !! a = Some (v, r) ->
  Q (n_scale v) h -> wp (Heap.get_scale (Some a)) Q h.
Proof.
  intros (_ & <- & _) Hl HQ.
  destruct (live_cell _ _ _ _ Hl) as (c & Hc & Hs & _).
  eapply wp_run; [|exact HQ].
  unfold Heap.get_scale, Heap.bind. rewrite (deref_run _ _ _ Hc).
  unfold Heap.ret. now rewrite Hs.
Qed.

Lemma wp_get_refs h L E a v r Q :
  models h L E -> L !! a = Some (v, r) ->
  Q r h -> wp (Heap.get_refs (Some a)) Q h.
Proof.
  intros (_ & <- & _) Hl HQ.
  destruct (live_cell _ _ _ _ Hl) as (c & Hc & _ & _ & Hr & _).
  eapply wp_run; [|exact HQ].
  unfold Heap.get_refs, Heap.bind. rewrite (deref_run _ _ _ Hc).
  unfold Heap.ret. now rewrite Hr.
Qed.

Lemma wp_mpz_get h L E a v r Q :
  models h L E -> L !! a = Some (v, r) ->
  Q (n_value v) h -> wp (Heap.mpz_get (Some a)) Q h.
Proof.
  intros (_ & <- & _) Hl HQ.
  destruct (live_cell _ _ _ _ Hl) as (c & Hc & _ & Hv & _).
  eapply wp_run; [|exact HQ].
  unfold Heap.mpz_get, Heap.bind. rewrite (deref_run _ _ _ Hc), Hv.
  reflexivity.
Qed.

Lemma wp_read_num h L E a v r Q :
  models h L E -> L !! a = Some (v, r) ->
  Q v h -> wp (Heap.read_num (Some a)) Q h.
Proof.
  intros Hm Hl HQ. unfold Heap.read_num.
  apply wp_bind. eapply wp_get_scale; [eassumption..|].
  apply wp_bind. eapply wp_mpz_get; [eassumption..|].
  apply wp_ret. destruct v. exact HQ.
Qed.

Lemma wp_bc_is_zero h L E a v r Q :
  models h L E -> L !! a = Some (v, r) ->
  Q (bc_is_zero v) h -> wp (Heap.bc_is_zero (Some a)) Q h.
Proof.
  intros Hm Hl HQ. unfold Heap.bc_is_zero.
  apply wp_bind. eapply wp_read_num; [eassumption..|]. now apply wp_ret.
Qed.

Lemma wp_bc_is_neg h L E a v r Q :
  models h L E -> L !! a = Some (v, r) ->
  Q (bc_is_neg v) h -> wp (Heap.bc_is_neg (Some a)) Q h.
Proof.
  intros Hm Hl HQ. unfold Heap.bc_is_neg.
  apply wp_bind. eapply wp_read_num; [eassumption..|]. now apply wp_ret.
Qed.

Lemma wp_bc_num2long LONG_MAX h L E a v r Q :
  models h L E -> L !! a = Some (v, r) ->
  Q (bc_num2long LONG_MAX v) h -> wp (Heap.bc_num2long LONG_MAX (Some a)) Q h.
Proof.
  intros Hm Hl HQ. unfold Heap.bc_num2long.
  apply wp_bind. eapply wp_read_num; [eassumption..|]. now apply wp_ret.
Qed.

Lemma wp_bc_do_compare h L E a1 v1 r1 a2 v2 r2 use_sign Q :
  models h L E -> L !! a1 = Some (v1, r1) -> L !! a2 = Some (v2, r2) ->
  Q (_bc_do_compare v1 v2 use_sign) h ->
  wp (Heap._bc_do_compare (Some a1) (Some a2) use_sign) Q h.
Proof.
  intros Hm H1 H2 HQ. unfold Heap._bc_do_compare.
  apply wp_bind. eapply wp_read_num; [eassumption..|].
  apply wp_bind. eapply wp_read_num; [eassumption..|]. now apply wp_ret.
Qed.

(** ** Writing the integer of a live cell *)

Lemma view_cell_live c v r :
  Heap.n_scale c = n_scale v -> Heap.n_value c = Some (n_value v) ->
  Heap.n_refs c = r -> 0 < r -> view_cell c = Some (v, r).
Proof.
  intros Hs Hv Hr Hpos. unfold view_cell. rewrite Hv, Hs, Hr.
  destruct (Z.ltb_spec 0 r); [|lia]. now destruct v.
Qed.

Lemma wp_mpz_set h L E a v r z Q :
  models h L E -> L !! a = Some (v, r) ->
  (forall h', models h' (<[a:=(mk_num (n_scale v) z, r)]> L) E -> Q tt h') ->
  wp (Heap.mpz_set (Some a) z) Q h.
Proof.
  intros Hm Hl HQ. pose proof Hm as (_ & HL & _). subst L.
  destruct (live_cell _ _ _ _ Hl) as (c & Hc & Hs & Hv & Hr & Hpos).
  eapply wp_run.
  - unfold Heap.mpz_set, Heap.bind. rewrite (deref_run _ _ _ Hc), Hv.
    apply (update_run _ _ _ _ Hc).
  - apply HQ.
    pose proof (models_update h _ E a c
                  (Heap.mk_struct (Heap.n_scale c) (Heap.n_refs c)
                     (Heap.n_next c) (Some z)) Hm Hc ltac:(lia)) as Hm'.
    rewrite (view_cell_live _ (mk_num (n_scale v) z) r) in Hm'
      by (cbn; auto).
    exact Hm'.
Qed.

(** ** Sharing *)

Lemma wp_bc_copy_num h L E a v r Q :
  models h L E -> L !! a = Some (v, r) ->
  (forall h', models h' (<[a:=(v, r + 1)]> L) E -> Q (Some a) h') ->
  wp (Heap.bc_copy_num (Some a)) Q h.
Proof.
  intros Hm Hl HQ. pose proof Hm as (_ & HL & _). subst L.
  destruct (live_cell _ _ _ _ Hl) as (c & Hc & Hs & Hv & Hr & Hpos).
  eapply wp_run.
  - unfold Heap.bc_copy_num, Heap.get_refs, Heap.set_refs, Heap.bind,
      Heap.ret.
    rewrite (deref_run _ _ _ Hc), (update_run _ _ _ _ Hc). reflexivity.
  - apply HQ.
    pose proof (models_update h _ E a c
                  (Heap.mk_struct (Heap.n_scale c) (Heap.n_refs c + 1)
                     (Heap.n_next c) (Heap.n_value c)) Hm Hc ltac:(lia)) as Hm'.
    rewrite (view_cell_live _ v (r + 1)) in Hm' by (cbn; auto; lia).
    exact Hm'.
Qed.

(** ** Release *)

Lemma live_same_cells h h' : Heap.cells h = Heap.cells h' -> live h = live h'.
Proof. intros H. unfold live. now rewrite H. Qed.

Lemma release_live (L : gmap nat (number * Z)) a v r :
  L !! a = Some (v, r) ->
  release (Some a) L = if r =? 1 then delete a L else <[a:=(v, r - 1)]> L.
Proof.
  intros Hl. apply map_eq. intros i. unfold release.
  rewrite lookup_partial_alter, Hl. cbn [drop_ref].
  destruct (r =? 1); [rewrite lookup_delete|rewrite lookup_insert];
    case_decide; reflexivity.
Qed.

Lemma wp_bc_free_num_live h L E a v r Q :
  models h L E -> L !! a = Some (v, r) ->
  (forall h', models h' (release (Some a) L) E -> Q None h') ->
  wp (Heap.bc_free_num (Some a)) Q h.
Proof.
  intros Hm Hl HQ. pose proof Hm as ((fl & Hnd & Hch) & HL & HE). subst L.
  destruct (live_cell _ _ _ _ Hl) as (c & Hc & Hs & Hv & Hr & Hpos).
  set (c1 := Heap.mk_struct (Heap.n_scale c) (Heap.n_refs c - 1)
               (Heap.n_next c) (Heap.n_value c)).
  set (h1 := Heap.with_cells h (<[a:=c1]> (Heap.cells h))).
  assert (Hc1 : Heap.cells h1 !! a = Some c1) by (eapply lookup_updated, Hc).
  assert (Hrun1 :
    Heap.bc_free_num (Some a) h
    = Heap.bind
        (if Heap.n_refs c1 =? 0 then
           Heap.bind (Heap.mpz_clear a) (fun _ =>
           Heap.bind (Heap.gets Heap._bc_Free_list) (fun fl =>
           Heap.bind (Heap.set_next a fl) (fun _ =>
           Heap.set_Free_list (Some a))))
         else Heap.ret tt)
        (fun _ => Heap.ret None) h1).
  { unfold Heap.bc_free_num, Heap.get_refs, Heap.set_refs.
    unfold Heap.bind at 1 2. rewrite (deref_run _ _ _ Hc).
    unfold Heap.ret at 1. unfold Heap.bind at 1.
    rewrite (update_run _ _ _ _ Hc). fold c1. fold h1.
    unfold Heap.bind at 1 2. rewrite (deref_run _ _ _ Hc1).
    unfold Heap.ret at 1. reflexivity. }
  rewrite (release_live _ _ _ _ Hl) in HQ.
  destruct (Z.eqb_spec r 1) as [->|Hne].
  - (* the last reference *)
    set (c3 := Heap.mk_struct (Heap.n_scale c) 0 (Heap._bc_Free_list h) None).
    set (h4 := Heap.mk_heap (<[a:=c3]> (Heap.cells h)) (Some a)
                 (Heap._zero_ h) (Heap._one_ h) (Heap._two_ h)
                 (Heap.host_calls h)).
    eapply (wp_run _ _ _ None h4).
    + rewrite Hrun1. subst c1. cbn [Heap.n_refs]. rewrite Hr.
      change (1 - 1 =? 0) with true. cbv iota.
      unfold Heap.mpz_clear, Heap.set_next, Heap.set_Free_list, Heap.gets,
        Heap.bind, Heap.ret.
      rewrite (update_run _ _ _ _ Hc1).
      erewrite update_run by (eapply lookup_updated, Hc1).
      subst h4 h1 c3. cbn [Heap.with_cells Heap.cells Heap._bc_Free_list
        Heap._zero_ Heap._one_ Heap._two_ Heap.host_calls Heap.n_scale
        Heap.n_refs Heap.n_next Heap.n_value].
      rewrite !list_insert_insert_eq, Hr. reflexivity.
    + apply HQ. split; [|split].
      * exists (a :: fl). split.
        -- constructor; [|exact Hnd]. eapply live_not_free; eassumption.
        -- cbn [free_chain]. split; [reflexivity|]. exists c3.
           subst h4. cbn [Heap.cells Heap._bc_Free_list].
           split; [apply list_lookup_insert_eq; eapply lookup_lt_Some, Hc|].
           split; [reflexivity|]. cbn [Heap.n_next c3].
           apply free_chain_insert; [|exact Hch].
           eapply live_not_free; eassumption.
      * rewrite (live_same_cells h4 (Heap.with_cells h (<[a:=c3]> (Heap.cells h))))
          by reflexivity.
        rewrite (live_insert_cell _ _ _ _ Hc). reflexivity.
      * exact HE.
  - eapply (wp_run _ _ _ None h1).
    + rewrite Hrun1. subst c1. cbn [Heap.n_refs]. rewrite Hr.
      destruct (Z.eqb_spec (r - 1) 0); [lia|]. reflexivity.
    + apply HQ.
      pose proof (models_update h _ E a c c1 Hm Hc ltac:(lia)) as Hm'.
      rewrite (view_cell_live _ v (r - 1)) in Hm'
        by (subst c1; cbn; auto; lia).
      exact Hm'.
Qed.

Lemma wp_bc_free_num h L E p Q :
  models h L E -> releasable L p ->
  (forall h', models h' (release p L) E -> Q None h') ->
  wp (Heap.bc_free_num p) Q h.
Proof.
  intros Hm Hp HQ. destruct p as [a|].
  - destruct Hp as [[v r] Hl]. eapply wp_bc_free_num_live; eassumption.
  - apply wp_ret. apply HQ. exact Hm.
Qed.

(** ** Allocation *)

Lemma wp_bc_new_num h L E len scale Q :
  models h L E ->
  (forall p h',
     L !! p = None -> models h' (<[p:=(mk_num scale 0, 1)]> L) E ->
     Q (Some p) h') ->
  wp (Heap.bc_new_num len scale) Q h.
Proof.
  intros Hm HQ. pose proof Hm as ((fl & Hnd & Hch) & HL & HE). subst L.
  set (fresh c := Heap.mk_struct scale 1 (Heap.n_next c) (Some 0)).
  assert (Hinit : forall h0 t c,
    Heap.cells h0 !! t = Some c ->
    Heap.bind (Heap.set_scale t scale) (fun _ =>
    Heap.bind (Heap.set_refs t 1) (fun _ =>
    Heap.bind (Heap.mpz_init t) (fun _ => Heap.ret (Some t)))) h0
    = Some (Some t, Heap.with_cells h0 (<[t:=fresh c]> (Heap.cells h0)))).
  { intros h0 t c Hc.
    unfold Heap.set_scale, Heap.set_refs, Heap.mpz_init, Heap.bind, Heap.ret.
    rewrite (update_run _ _ _ _ Hc).
    pose proof (lookup_updated h0 t c
      (Heap.mk_struct scale (Heap.n_refs c) (Heap.n_next c) (Heap.n_value c))
      Hc) as Hc1.
    rewrite (update_run _ _ _ _ Hc1).
    pose proof (lookup_updated _ t _
      (Heap.mk_struct scale 1 (Heap.n_next c) (Heap.n_value c)) Hc1) as Hc2.
    rewrite (update_run _ _ _ _ Hc2).
    cbn [Heap.with_cells Heap.cells Heap._bc_Free_list Heap._zero_ Heap._one_
         Heap._two_ Heap.host_calls Heap.n_scale Heap.n_refs Heap.n_next
         Heap.n_value].
    rewrite !list_insert_insert_eq. reflexivity. }
  destruct (Heap._bc_Free_list h) as [t|] eqn:Hfl.
  - (* a cell from the free list *)
    destruct fl as [|t' fl']; [discriminate Hch|].
    destruct Hch as ([= <-] & c & Hc & Hr & Hrest).
    set (h1 := Heap.mk_heap (Heap.cells h) (Heap.n_next c) (Heap._zero_ h)
                 (Heap._one_ h) (Heap._two_ h) (Heap.host_calls h)).
    eapply (wp_run _ _ _ (Some t)
              (Heap.with_cells h1 (<[t:=fresh c]> (Heap.cells h)))).
    + unfold Heap.bc_new_num. unfold Heap.bind at 1. unfold Heap.gets at 1.
      rewrite Hfl. unfold Heap.bind at 1.
      unfold Heap.get_next, Heap.set_Free_list.
      unfold Heap.bind at 1 2 3. rewrite (deref_run _ _ _ Hc).
      unfold Heap.ret at 1 2. fold h1.
      rewrite (Hinit h1 t c Hc). reflexivity.
    + apply NoDup_cons in Hnd as [Hnotin Hnd'].
      assert (Hdead : live h !! t = None).
      { rewrite live_lookup, Hc. cbn. unfold view_cell. rewrite Hr.
        reflexivity. }
      apply HQ; [exact Hdead|]. split; [|split].
      * exists fl'. split; [exact Hnd'|].
        cbn [Heap.with_cells Heap.cells Heap._bc_Free_list h1].
        apply free_chain_insert; assumption.
      * rewrite (live_same_cells _ (Heap.with_cells h (<[t:=fresh c]> (Heap.cells h))))
          by reflexivity.
        rewrite (live_insert_cell _ _ _ _ Hc). reflexivity.
      * exact HE.
  - (* a cell from the host allocator *)
    set (t := length (Heap.cells h)).
    set (junk := Heap.mk_struct 0 0 None None).
    set (h1 := Heap.with_cells h (Heap.cells h ++ [junk])).
    assert (Hc : Heap.cells h1 !! t = Some junk).
    { subst h1 t. cbn [Heap.with_cells Heap.cells].
      rewrite lookup_app_r by lia. now rewrite Nat.sub_diag. }
    eapply (wp_run _ _ _ (Some t)
              (Heap.with_cells h1 (<[t:=fresh junk]> (Heap.cells h1)))).
    + unfold Heap.bc_new_num. unfold Heap.bind at 1. unfold Heap.gets at 1.
      rewrite Hfl. unfold Heap.bind at 1. unfold Heap.bc_num_malloc.
      fold junk. fold h1. fold t.
      rewrite (Hinit h1 t junk Hc). reflexivity.
    + assert (Hdead : live h !! t = None).
      { rewrite live_lookup. subst t.
        rewrite (lookup_ge_None_2 (Heap.cells h)) by lia. reflexivity. }
      apply HQ; [exact Hdead|]. split; [|split].
      * exists fl. split; [exact Hnd|].
        destruct fl as [|b fl']; [|destruct Hch as [Hb _]; discriminate Hb].
        cbn. exact Hfl.
      * rewrite (live_insert_cell _ _ _ _ Hc).
        subst h1 junk. rewrite live_app_dead. reflexivity.
      * exact HE.
Qed.

(** ** Calls to the host *)

Lemma wp_bc_rt_warn h L G calls mesg Q :
  models h L (G, calls) ->
  (forall h', models h' L (G, calls ++ [Heap.rt_warn mesg]) -> Q tt h') ->
  wp (Heap.bc_rt_warn mesg) Q h.
Proof.
  intros (Hwf & HL & HE) HQ. eapply wp_run; [reflexivity|].
  apply HQ. split; [exact Hwf|]. split; [exact HL|].
  unfold env in *. cbn. injection HE as <- <-. reflexivity.
Qed.

Lemma wp_bc_rt_error h L G calls mesg Q :
  models h L (G, calls) ->
  (forall h', models h' L (G, calls ++ [Heap.rt_error mesg]) -> Q tt h') ->
  wp (Heap.bc_rt_error mesg) Q h.
Proof.
  intros (Hwf & HL & HE) HQ. eapply wp_run; [reflexivity|].
  apply HQ. split; [exact Hwf|]. split; [exact HL|].
  unfold env in *. cbn. injection HE as <- <-. reflexivity.
Qed.

(** ** Stepping through a routine *)

Lemma fresh_ne (L : gmap nat (number * Z)) p a x :
  L !! p = None -> L !! a = Some x -> p <> a.
Proof. intros Hp Ha ->. congruence. Qed.

Lemma releasable_insert L p q x :
  L !! p = None -> releasable L q -> releasable (<[p:=x]> L) q.
Proof.
  intros Hp Hq. destruct q as [a|]; [|exact I].
  destruct Hq as [y Hy]. cbn.
  rewrite lookup_insert_ne by (eapply fresh_ne; eassumption). eauto.
Qed.

Ltac lookup_tac :=
  repeat first
    [ rewrite lookup_insert_eq
    | rewrite lookup_insert_ne by (eapply fresh_ne; eassumption)
    | rewrite insert_insert_eq ];
  first [ reflexivity | eassumption ].

(** One statement of a routine: split the sequence, apply the rule of the
    statement and name the new store. *)
Ltac wp_read :=
  apply wp_bind;
  first
    [ eapply wp_get_scale; [eassumption|lookup_tac|]
    | eapply wp_mpz_get; [eassumption|lookup_tac|]
    | eapply wp_get_refs; [eassumption|lookup_tac|]
    | eapply wp_bc_is_zero; [eassumption|lookup_tac|]
    | eapply wp_bc_is_neg; [eassumption|lookup_tac|]
    | eapply wp_read_num; [eassumption|lookup_tac|]
    | eapply wp_gets ];
  cbn [n_scale n_value].

Ltac wp_write Hm :=
  first
    [ eapply wp_mpz_set; [eassumption|lookup_tac|]
    | eapply wp_bc_copy_num; [eassumption|lookup_tac|] ];
  cbn [n_scale n_value];
  let h' := fresh "h" in intros h' Hm;
  rewrite ?insert_insert_eq in Hm.

Lemma wp_bc_multiply h L E n1 v1 r1 n2 v2 r2 prod scale Q :
  models h L E ->
  L !! n1 = Some (v1, r1) -> L !! n2 = Some (v2, r2) ->
  releasable L prod ->
  (forall p h',
     L !! p = None ->
     models h' (release prod (<[p:=(bc_multiply v1 v2 scale, 1)]> L)) E ->
     Q (Some p) h') ->
  wp (Heap.bc_multiply (Some n1) (Some n2) prod scale) Q h.
Proof.
  intros Hm H1 H2 Hprod HQ. unfold Heap.bc_multiply.
  wp_read. wp_read.
  apply wp_bind. eapply wp_bc_new_num; [eassumption|].
  intros p h1 Hfresh Hm1.
  wp_read. wp_read.
  apply wp_bind. wp_write Hm2.
  apply wp_bind.
  assert (Hres : forall x,
    x = (if n_scale v1 + n_scale v2
            >? MIN (n_scale v1 + n_scale v2)
                 (MAX scale (MAX (n_scale v1) (n_scale v2)))
         then Z.quot (n_value v1 * n_value v2)
                (10 ^ (n_scale v1 + n_scale v2
                       - MIN (n_scale v1 + n_scale v2)
                           (MAX scale (MAX (n_scale v1) (n_scale v2)))))
         else n_value v1 * n_value v2) ->
    mk_num (MIN (n_scale v1 + n_scale v2)
              (MAX scale (MAX (n_scale v1) (n_scale v2)))) x
    = bc_multiply v1 v2 scale).
  { intros x ->. reflexivity. }
  destruct (n_scale v1 + n_scale v2
            >? MIN (n_scale v1 + n_scale v2)
                 (MAX scale (MAX (n_scale v1) (n_scale v2)))) eqn:Hcmp.
  - wp_read. wp_write Hm3.
    rewrite Hres in Hm3 by reflexivity.
    apply wp_bind. eapply wp_bc_free_num;
      [eassumption|apply releasable_insert; assumption|].
    intros h4 Hm4. apply wp_ret. now apply HQ.
  - apply wp_ret.
    rewrite Hres in Hm2 by reflexivity.
    apply wp_bind. eapply wp_bc_free_num;
      [eassumption|apply releasable_insert; assumption|].
    intros h4 Hm4. apply wp_ret. now apply HQ.
Qed.

(** The end of an arithmetic routine: release the old occupant of the
    result variable and return the new cell. *)
Ltac wp_install HQ :=
  apply wp_bind;
  eapply wp_bc_free_num;
    [eassumption|apply releasable_insert; assumption|];
  let h' := fresh "h" in
  let Hm' := fresh "Hm" in
  intros h' Hm'; apply wp_ret; apply HQ; [assumption|];
  match goal with
  | Hm : models ?h (release ?r (<[?p:=(?x, 1)]> ?L)) ?E
    |- models ?h (release ?r (<[?p:=(?y, 1)]> ?L)) ?E =>
      replace y with x; [exact Hm|]
  end.

Lemma wp_bc_sub h L E n1 v1 r1 n2 v2 r2 result scale_min Q :
  models h L E ->
  L !! n1 = Some (v1, r1) -> L !! n2 = Some (v2, r2) ->
  releasable L result ->
  (forall p h',
     L !! p = None ->
     models h' (release result (<[p:=(bc_sub v1 v2 scale_min, 1)]> L)) E ->
     Q (Some p) h') ->
  wp (Heap.bc_sub (Some n1) (Some n2) result scale_min) Q h.
Proof.
  intros Hm H1 H2 Hres HQ. unfold Heap.bc_sub.
  wp_read. wp_read.
  apply wp_bind. eapply wp_bc_new_num; [eassumption|].
  intros p h1 Hfresh Hm1.
  wp_read. wp_read. apply wp_bind.
  destruct (n_scale v1 >? n_scale v2) eqn:Hgt;
    [|destruct (n_scale v1 <? n_scale v2) eqn:Hlt];
    wp_read; wp_read; wp_write Hm2;
    (apply wp_bind;
     destruct (MAX (n_scale v1) (n_scale v2) <? scale_min) eqn:Hmin;
     [wp_read; wp_write Hm3|apply wp_ret]);
    wp_install HQ;
    unfold bc_sub; rewrite ?Hgt, ?Hlt, ?Hmin; reflexivity.
Qed.

Lemma wp_bc_add h L E n1 v1 r1 n2 v2 r2 result scale_min Q :
  models h L E ->
  L !! n1 = Some (v1, r1) -> L !! n2 = Some (v2, r2) ->
  releasable L result ->
  (forall p h',
     L !! p = None ->
     models h' (release result (<[p:=(bc_add v1 v2 scale_min, 1)]> L)) E ->
     Q (Some p) h') ->
  wp (Heap.bc_add (Some n1) (Some n2) result scale_min) Q h.
Proof.
  intros Hm H1 H2 Hres HQ. unfold Heap.bc_add.
  wp_read. wp_read.
  apply wp_bind. eapply wp_bc_new_num; [eassumption|].
  intros p h1 Hfresh Hm1.
  wp_read. wp_read. apply wp_bind.
  destruct (n_scale v1 >? n_scale v2) eqn:Hgt;
    [|destruct (n_scale v1 <? n_scale v2) eqn:Hlt];
    wp_read; wp_read; wp_write Hm2;
    (apply wp_bind;
     destruct (MAX (n_scale v1) (n_scale v2) <? scale_min) eqn:Hmin;
     [wp_read; wp_write Hm3|apply wp_ret]);
    wp_install HQ;
    unfold bc_add; rewrite ?Hgt, ?Hlt, ?Hmin; reflexivity.
Qed.

(** [bc_divide]: a refused call leaves store and variable alone. *)
Lemma wp_bc_divide h L E n1 v1 r1 n2 v2 r2 quot scale Q :
  models h L E ->
  L !! n1 = Some (v1, r1) -> L !! n2 = Some (v2, r2) ->
  releasable L quot ->
  (bc_divide v1 v2 scale = None -> Q (-1, quot) h) ->
  (forall q p h',
     bc_divide v1 v2 scale = Some q ->
     L !! p = None ->
     models h' (release quot (<[p:=(q, 1)]> L)) E ->
     Q (0, Some p) h') ->
  wp (Heap.bc_divide (Some n1) (Some n2) quot scale) Q h.
Proof.
  intros Hm H1 H2 Hquot Hfail HQ. unfold Heap.bc_divide.
  wp_read.
  destruct (bc_is_zero v2) eqn:Hz.
  { apply wp_ret, Hfail. unfold bc_divide. now rewrite Hz. }
  assert (Hok : forall x,
    x = (if negb (n_scale v2 + scale - n_scale v1 =? 0) then
           Z.quot (if n_scale v2 + scale - n_scale v1 >? 0
                   then n_value v1 * 10 ^ (n_scale v2 + scale - n_scale v1)
                   else Z.quot (n_value v1)
                          (10 ^ (- (n_scale v2 + scale - n_scale v1))))
             (n_value v2)
         else Z.quot (n_value v1) (n_value v2)) ->
    bc_divide v1 v2 scale = Some (mk_num scale x)).
  { intros x ->. unfold bc_divide. now rewrite Hz. }
  apply wp_bind. eapply wp_bc_new_num; [eassumption|].
  intros p h1 Hfresh Hm1.
  wp_read. wp_read. apply wp_bind.
  destruct (negb (n_scale v2 + scale - n_scale v1 =? 0)) eqn:Hstep.
  - apply wp_bind.
    destruct (n_scale v2 + scale - n_scale v1 >? 0) eqn:Hpos;
      wp_read; wp_write Hm2; wp_read; wp_read; wp_write Hm3;
      (apply wp_bind;
       eapply wp_bc_free_num;
         [eassumption|apply releasable_insert; assumption|];
       intros h4 Hm4; apply wp_ret;
       eapply HQ; [|assumption|exact Hm4];
       apply Hok; rewrite ?Hstep, ?Hpos; reflexivity).
  - wp_read. wp_read. wp_write Hm2.
    apply wp_bind.
    eapply wp_bc_free_num;
      [eassumption|apply releasable_insert; assumption|].
    intros h4 Hm4. apply wp_ret.
    eapply HQ; [|assumption|exact Hm4].
    apply Hok. rewrite ?Hstep. reflexivity.
Qed.

(** ** Algebra of release and installation *)

Lemma drop_ref_succ v r : 0 < r -> drop_ref (Some (v, r + 1)) = Some (v, r).
Proof.
  intros Hr. cbn [drop_ref]. destruct (Z.eqb_spec (r + 1) 1); [lia|].
  do 2 f_equal. lia.
Qed.

Lemma models_refs_pos h L E a v r :
  models h L E -> L !! a = Some (v, r) -> 0 < r.
Proof. intros (_ & <- & _) Hl. eapply live_refs_pos, Hl. Qed.

Ltac pointwise :=
  apply map_eq; intros ?; unfold release;
  repeat first
    [ rewrite lookup_partial_alter
    | rewrite lookup_insert
    | rewrite lookup_delete ];
  repeat case_decide; subst; try congruence; try reflexivity.

Lemma release_insert_fresh (L : gmap nat (number * Z)) p x :
  L !! p = None -> release (Some p) (<[p:=(x, 1)]> L) = L.
Proof. intros Hp. pointwise. now rewrite Hp. Qed.

Lemma release_comm (L : gmap nat (number * Z)) a b :
  release a (release b L) = release b (release a L).
Proof.
  destruct a as [a|], b as [b|]; try reflexivity.
  destruct (decide (a = b)) as [->|Hne]; [reflexivity|]. pointwise.
Qed.

Lemma release_insert_ne (L : gmap nat (number * Z)) q p x :
  q <> Some p -> release q (<[p:=x]> L) = <[p:=x]> (release q L).
Proof. intros Hq. destruct q as [a|]; [|reflexivity]. pointwise. Qed.

Lemma release_retain (L : gmap nat (number * Z)) z v r :
  L !! z = Some (v, r) -> 0 < r ->
  release (Some z) (<[z:=(v, r + 1)]> L) = L.
Proof. intros Hz Hr. pointwise. now rewrite drop_ref_succ, Hz. Qed.

Lemma lookup_release_ne (L : gmap nat (number * Z)) q b :
  q <> Some b -> release q L !! b = L !! b.
Proof.
  intros Hq. destruct q as [a|]; [|reflexivity]. unfold release.
  rewrite lookup_partial_alter_ne by congruence. reflexivity.
Qed.

Lemma lookup_release_inv (L : gmap nat (number * Z)) q a v r :
  release q L !! a = Some (v, r) -> exists r', L !! a = Some (v, r').
Proof.
  destruct q as [b|]; [|eauto]. unfold release.
  rewrite lookup_partial_alter. case_decide; [subst|eauto].
  destruct (L !! a) as [[v' r']|]; [|discriminate]. cbn [drop_ref].
  destruct (r' =? 1); [discriminate|]. intros [= <- <-]. eauto.
Qed.

Lemma lookup_release_None (L : gmap nat (number * Z)) q a :
  L !! a = None -> release q L !! a = None.
Proof.
  intros Ha. destruct q as [b|]; [|exact Ha]. unfold release.
  rewrite lookup_partial_alter. case_decide; [subst|exact Ha].
  now rewrite Ha.
Qed.

Lemma releasable_live (L : gmap nat (number * Z)) a x :
  L !! a = Some x -> releasable L (Some a).
Proof. intros H. cbn. eauto. Qed.

Lemma handle_fresh_ne (L : gmap nat (number * Z)) q p :
  L !! p = None -> releasable L q -> q <> Some p.
Proof. intros Hp Hq ->. destruct Hq as [x Hx]. congruence. Qed.

Lemma release_insert_same (L : gmap nat (number * Z)) a v r :
  0 < r -> release (Some a) (<[a:=(v, r + 1)]> L) = <[a:=(v, r)]> L.
Proof. intros Hr. pointwise. now rewrite drop_ref_succ. Qed.

Lemma lookup_insert_live (L : gmap nat (number * Z)) z vz rz rz' a v r :
  L !! z = Some (vz, rz) -> L !! a = Some (v, r) ->
  exists r', <[z:=(vz, rz')]> L !! a = Some (v, r').
Proof.
  intros Hz Ha. rewrite lookup_insert. case_decide; [subst|eauto].
  rewrite Hz in Ha. injection Ha as -> ->. eauto.
Qed.

Lemma models_constants h L zp op tp calls :
  models h L (zp, op, tp, calls) ->
  Heap._zero_ h = zp /\ Heap._one_ h = op /\ Heap._two_ h = tp
  /\ Heap.host_calls h = calls.
Proof. intros (_ & _ & HE). unfold env in HE. now injection HE as -> -> -> ->. Qed.

Lemma wp_bc_init_num h L z op tp calls vz rz Q :
  models h L (Some z, op, tp, calls) -> L !! z = Some (vz, rz) ->
  (forall h', models h' (<[z:=(vz, rz + 1)]> L) (Some z, op, tp, calls) ->
              Q (Some z) h') ->
  wp Heap.bc_init_num Q h.
Proof.
  intros Hm Hz HQ. unfold Heap.bc_init_num.
  apply wp_bind, wp_gets.
  destruct (models_constants _ _ _ _ _ _ Hm) as (-> & _).
  eapply wp_bc_copy_num; eassumption.
Qed.

(** [bc_divmod]: quotient and remainder are new cells; the old occupants
    of the two result variables are released. *)
Lemma wp_bc_divmod h L z op tp calls vz rz num1 v1 r1 num2 v2 r2 quot rem
    scale Q :
  let E := (Some z, op, tp, calls) in
  models h L E -> L !! z = Some (vz, rz) ->
  L !! num1 = Some (v1, r1) -> L !! num2 = Some (v2, r2) ->
  releasable L rem ->
  match quot with
  | Some q => releasable (release rem L) q
  | None => True
  end ->
  (bc_divmod v1 v2 scale = None -> Q (-1, quot, rem) h) ->
  (forall qv rv pr h',
     bc_divmod v1 v2 scale = Some (qv, rv) -> L !! pr = None ->
     match quot with
     | None =>
       models h' (release rem (<[pr:=(rv, 1)]> L)) E ->
       Q (0, None, Some pr) h'
     | Some q =>
       forall pq, L !! pq = None -> pq <> pr ->
       models h'
         (release q (release rem (<[pr:=(rv, 1)]> (<[pq:=(qv, 1)]> L)))) E ->
       Q (0, Some (Some pq), Some pr) h'
     end) ->
  wp (Heap.bc_divmod (Some num1) (Some num2) quot rem scale) Q h.
Proof.
  intros E Hm Hz H1 H2 Hrem Hquot Hfail HQ. unfold Heap.bc_divmod.
  wp_read.
  destruct (bc_is_zero v2) eqn:Hzero.
  { apply wp_ret, Hfail. unfold bc_divmod. now rewrite Hzero. }
  wp_read. wp_read.
  apply wp_bind. eapply wp_bc_init_num; [eassumption..|]. intros h1 Hm1.
  pose proof (models_refs_pos _ _ _ _ _ _ Hm Hz) as Hrz.
  destruct (lookup_insert_live L z vz rz (rz + 1) num1 v1 r1 Hz H1) as (r1' & H1').
  destruct (lookup_insert_live L z vz rz (rz + 1) num2 v2 r2 Hz H2) as (r2' & H2').
  (* the quotient *)
  apply wp_bind. eapply wp_bc_divide;
    [exact Hm1|exact H1'|exact H2'
    |eapply releasable_live; apply lookup_insert_eq| |].
  { intros Hnone. unfold bc_divide in Hnone. rewrite Hzero in Hnone.
    discriminate. }
  intros q A h2 Hdiv HA Hm2. cbn [snd].
  apply lookup_insert_None in HA as [HA HzA].
  rewrite release_insert_ne, release_retain in Hm2
    by (assumption || congruence).
  set (rscale := MAX (n_scale v1) (n_scale v2 + scale)) in *.
  assert (Hval : bc_divmod v1 v2 scale
                 = Some (q, bc_sub v1 (bc_multiply q v2 rscale) rscale)).
  { unfold bc_divmod. rewrite Hzero, Hdiv. reflexivity. }
  assert (HA1 : A <> num1) by (eapply fresh_ne; eassumption).
  assert (HA2 : A <> num2) by (eapply fresh_ne; eassumption).
  destruct quot as [q0|].
  - (* quotient requested *)
    apply wp_bind. eapply wp_bc_copy_num; [exact Hm2|apply lookup_insert_eq|].
    intros h3 Hm3. rewrite insert_insert_eq in Hm3.
    apply wp_bind. eapply wp_bc_multiply;
      [exact Hm3|apply lookup_insert_eq
      |rewrite lookup_insert_ne by assumption; exact H2
      |eapply releasable_live; apply lookup_insert_eq|].
    intros B h4 HB Hm4.
    apply lookup_insert_None in HB as [HB HAB].
    rewrite release_insert_ne, release_insert_same in Hm4 by (lia || congruence).
    assert (HB1 : B <> num1) by (eapply fresh_ne; eassumption).
    apply wp_bind. eapply wp_bc_sub;
      [exact Hm4
      |rewrite !lookup_insert_ne by assumption; exact H1
      |apply lookup_insert_eq
      |do 2 (apply releasable_insert;
             [rewrite ?lookup_insert_ne by congruence; assumption|]);
       exact Hrem|].
    intros C h5 HC Hm5.
    apply lookup_insert_None in HC as [HC HBC].
    apply lookup_insert_None in HC as [HC HAC].
    assert (HremB : rem <> Some B) by (eapply handle_fresh_ne; eassumption).
    assert (HremA : rem <> Some A) by (eapply handle_fresh_ne; eassumption).
    assert (HremC : rem <> Some C) by (eapply handle_fresh_ne; eassumption).
    apply wp_bind. eapply wp_bc_free_num; [exact Hm5| |].
    { eapply releasable_live. rewrite lookup_release_ne by assumption.
      rewrite lookup_insert_ne by congruence. apply lookup_insert_eq. }
    intros h6 Hm6.
    rewrite release_comm, (release_insert_ne _ (Some B) C),
      release_insert_fresh in Hm6
      by (congruence || (rewrite lookup_insert_ne by congruence; assumption)).
    apply wp_bind. apply wp_bind. eapply wp_bc_free_num; [exact Hm6| |].
    { rewrite !release_insert_ne by assumption.
      destruct q0 as [a|]; [|exact I]. destruct Hquot as [x Hx]. cbn.
      assert (a <> C).
      { intros ->. rewrite lookup_release_None in Hx by assumption.
        discriminate. }
      assert (a <> A).
      { intros ->. rewrite lookup_release_None in Hx by assumption.
        discriminate. }
      rewrite !lookup_insert_ne by congruence. eauto. }
    intros h7 Hm7. apply wp_ret. apply wp_ret.
    eapply (HQ _ _ C h7 Hval HC A HA); [congruence|exact Hm7].
  - (* no quotient *)
    apply wp_bind. apply wp_ret.
    apply wp_bind. eapply wp_bc_multiply;
      [exact Hm2|apply lookup_insert_eq
      |rewrite lookup_insert_ne by assumption; exact H2
      |eapply releasable_live; apply lookup_insert_eq|].
    intros B h4 HB Hm4.
    apply lookup_insert_None in HB as [HB HAB].
    rewrite release_insert_ne, release_insert_fresh in Hm4
      by (assumption || congruence).
    assert (HB1 : B <> num1) by (eapply fresh_ne; eassumption).
    apply wp_bind. eapply wp_bc_sub;
      [exact Hm4
      |rewrite !lookup_insert_ne by assumption; exact H1
      |apply lookup_insert_eq
      |apply releasable_insert; assumption|].
    intros C h5 HC Hm5.
    apply lookup_insert_None in HC as [HC HBC].
    assert (HremB : rem <> Some B) by (eapply handle_fresh_ne; eassumption).
    assert (HremC : rem <> Some C) by (eapply handle_fresh_ne; eassumption).
    apply wp_bind. eapply wp_bc_free_num; [exact Hm5| |].
    { eapply releasable_live. rewrite lookup_release_ne by assumption.
      rewrite lookup_insert_ne by congruence. apply lookup_insert_eq. }
    intros h6 Hm6.
    rewrite release_comm, (release_insert_ne _ (Some B) C),
      release_insert_fresh in Hm6 by (congruence || assumption).
    apply wp_bind. apply wp_ret. apply wp_ret.
    eapply (HQ _ _ C h6 Hval HC). exact Hm6.
Qed.

(** ** Handles held by local variables *)

Lemma releasable_release_ne (L : gmap nat (number * Z)) a b :
  a <> b -> releasable (release a L) b <-> releasable L b.
Proof.
  intros Hne. destruct b as [b|]; [|tauto]. cbn.
  rewrite lookup_release_ne by congruence. tauto.
Qed.

Lemma releasable_swap (L : gmap nat (number * Z)) a b :
  releasable L a /\ releasable (release a L) b ->
  releasable L b /\ releasable (release b L) a.
Proof.
  destruct (decide (a = b)) as [->|Hne]; [tauto|].
  rewrite !releasable_release_ne by congruence. tauto.
Qed.

Lemma releasable_all_perm L ps ps' :
  Permutation ps ps' -> releasable_all L ps -> releasable_all L ps'.
Proof.
  intros Hp. revert L. induction Hp as [|x l l' _ IH|x y l|l l' l'' _ IH1 _ IH2];
    intros L H.
  - exact H.
  - destruct H as [Hx Hl]. split; [exact Hx|]. now apply IH.
  - destruct H as (Hy & Hx & Hl). cbn [releasable_all].
    destruct (releasable_swap L y x (conj Hy Hx)) as [Hx' Hy'].
    split; [exact Hx'|]. split; [exact Hy'|]. now rewrite release_comm.
  - now apply IH2, IH1.
Qed.

Lemma release_all_perm L ps ps' :
  Permutation ps ps' -> release_all ps L = release_all ps' L.
Proof.
  intros Hp. revert L. induction Hp as [|x l l' _ IH|x y l|l l' l'' _ IH1 _ IH2];
    intros L.
  - reflexivity.
  - cbn. apply IH.
  - cbn. now rewrite release_comm.
  - now rewrite IH1.
Qed.

Lemma releasable_all_head L p ps :
  releasable_all L (p :: ps) -> releasable L p.
Proof. now intros [H _]. Qed.

Lemma releasable_all_elem L ps p :
  p ∈ ps -> releasable_all L ps -> releasable L p.
Proof.
  intros Hin H. apply elem_of_Permutation in Hin as [ps' Hp].
  eapply releasable_all_head, releasable_all_perm; eassumption.
Qed.

(** A routine replaces the contents [x] of a local variable by a new cell
    [p]. *)
Lemma replace_head (S : gmap nat (number * Z)) x p res rest :
  S !! p = None -> releasable_all S (x :: rest) ->
  let S' := release x (<[p:=(res, 1)]> S) in
  releasable_all S' (Some p :: rest)
  /\ release_all (Some p :: rest) S' = release_all (x :: rest) S.
Proof.
  intros Hp [Hx Hrest] S'.
  assert (Hxp : x <> Some p) by (eapply handle_fresh_ne; eassumption).
  assert (Hrel : release (Some p) S' = release x S).
  { subst S'. rewrite release_comm. now rewrite release_insert_fresh. }
  split.
  - split.
    + subst S'. apply releasable_release_ne; [exact Hxp|].
      eapply releasable_live, lookup_insert_eq.
    + now rewrite Hrel.
  - cbn [release_all]. now rewrite Hrel.
Qed.

(** Cells survive, with their contents, when they can still be released
    afterwards. *)
Lemma lookup_after_replace (S : gmap nat (number * Z)) x p res a v r :
  S !! p = None -> S !! a = Some (v, r) ->
  releasable (release x (<[p:=(res, 1)]> S)) (Some a) ->
  exists r', release x (<[p:=(res, 1)]> S) !! a = Some (v, r').
Proof.
  intros Hp Ha [[v' r'] Hl]. exists r'. rewrite Hl.
  destruct (lookup_release_inv _ _ _ _ _ Hl) as (r'' & Hl').
  rewrite lookup_insert_ne in Hl' by (eapply fresh_ne; eassumption).
  congruence.
Qed.

Lemma lookup_release_all_inv ps (L : gmap nat (number * Z)) a v r :
  release_all ps L !! a = Some (v, r) -> exists r', L !! a = Some (v, r').
Proof.
  revert L r. induction ps as [|p ps IH]; intros L r H; [eauto|].
  cbn in H. destruct (IH _ _ H) as (r' & H').
  eapply lookup_release_inv, H'.
Qed.

Lemma lookup_release_all_None ps (L : gmap nat (number * Z)) a :
  L !! a = None -> release_all ps L !! a = None.
Proof.
  revert L. induction ps as [|p ps IH]; intros L H; [exact H|].
  cbn. apply IH, lookup_release_None, H.
Qed.

(** [bc_modulo] is [bc_divmod] without a quotient variable. *)
Lemma wp_bc_modulo h L z op tp calls vz rz num1 v1 r1 num2 v2 r2 result
    scale Q :
  let E := (Some z, op, tp, calls) in
  models h L E -> L !! z = Some (vz, rz) ->
  L !! num1 = Some (v1, r1) -> L !! num2 = Some (v2, r2) ->
  releasable L result ->
  (bc_modulo v1 v2 scale = None -> Q (-1, result) h) ->
  (forall rv pr h',
     bc_modulo v1 v2 scale = Some rv -> L !! pr = None ->
     models h' (release result (<[pr:=(rv, 1)]> L)) E ->
     Q (0, Some pr) h') ->
  wp (Heap.bc_modulo (Some num1) (Some num2) result scale) Q h.
Proof.
  intros E Hm Hz H1 H2 Hres Hfail Hok. unfold Heap.bc_modulo.
  apply wp_bind.
  eapply (wp_bc_divmod h L z op tp calls vz rz num1 v1 r1 num2 v2 r2 None);
    try eassumption; [exact I| |].
  - intros Hnone. apply wp_ret. cbn [fst snd]. apply Hfail.
    unfold bc_modulo. now rewrite Hnone.
  - intros qv rv pr h' Hsome Hpr Hm'. apply wp_ret. cbn [fst snd].
    apply (Hok rv); [|exact Hpr|exact Hm'].
    unfold bc_modulo. now rewrite Hsome.
Qed.


(** ** Calls to the host *)

Lemma wp_warn_if (b : bool) h L G calls mesg Q :
  models h L (G, calls) ->
  (forall h',
     models h' L (G, calls ++ (if b then [Heap.rt_warn mesg] else [])) ->
     Q tt h') ->
  wp (if b then Heap.bc_rt_warn mesg else Heap.ret tt) Q h.
Proof.
  intros Hm HQ. destruct b.
  - eapply wp_bc_rt_warn; eassumption.
  - apply wp_ret, HQ. now rewrite app_nil_r.
Qed.

Lemma wp_error_if (b : bool) h L G calls mesg Q :
  models h L (G, calls) ->
  (forall h',
     models h' L (G, calls ++ (if b then [Heap.rt_error mesg] else [])) ->
     Q tt h') ->
  wp (if b then Heap.bc_rt_error mesg else Heap.ret tt) Q h.
Proof.
  intros Hm HQ. destruct b.
  - eapply wp_bc_rt_error; eassumption.
  - apply wp_ret, HQ. now rewrite app_nil_r.
Qed.

(** [bc_raise].  The calls to the host depend on the exponent alone.  With
    a negative exponent the power is a cell of its own, which the routine
    does not release. *)
Lemma wp_bc_raise LONG_MAX INT_MAX h L zp o tp calls ro num1 v1 r1 num2 v2 r2
    result scale Q :
  let long := bc_num2long LONG_MAX v2 in
  let E' := (zp, Some o, tp,
             (calls
              ++ (if negb (n_scale v2 =? 0)
                  then [Heap.rt_warn "non-zero scale in exponent"] else []))
              ++ (if (long =? 0) && (_bc_do_compare v2 _one_ false >? 0)
                  then [Heap.rt_error "exponent too large in raise"]
                  else [])) in
  models h L (zp, Some o, tp, calls) ->
  L !! o = Some (_one_, ro) ->
  L !! num1 = Some (v1, r1) -> L !! num2 = Some (v2, r2) ->
  releasable L result ->
  is_Some (release result L !! o) ->
  (forall ro' h',
     long = 0 -> release result L !! o = Some (_one_, ro') ->
     models h' (<[o:=(_one_, ro' + 1)]> (release result L)) E' ->
     Q (Some o) h') ->
  (forall res p h',
     0 < long -> bc_raise LONG_MAX INT_MAX v1 v2 scale = Some res ->
     L !! p = None ->
     models h' (release result (<[p:=(res, 1)]> L)) E' ->
     Q (Some p) h') ->
  (forall tv t h',
     long < 0 -> bc_raise LONG_MAX INT_MAX v1 v2 scale = None ->
     L !! t = None ->
     models h' (<[t:=(tv, 1)]> L) E' ->
     Q result h') ->
  (forall tv t res p h',
     long < 0 -> bc_raise LONG_MAX INT_MAX v1 v2 scale = Some res ->
     L !! t = None -> L !! p = None -> p <> t ->
     models h' (release result (<[p:=(res, 1)]> (<[t:=(tv, 1)]> L))) E' ->
     Q (Some p) h') ->
  wp (Heap.bc_raise LONG_MAX INT_MAX (Some num1) (Some num2) result scale) Q h.
Proof.
  intros long E' Hm Ho H1 H2 Hres [[vo' ro'] Ho'] Hzero Hpos Hfail Hneg.
  destruct (lookup_release_inv _ _ _ _ _ Ho') as (ro0 & Ho0).
  assert (vo' = _one_) by congruence. subst vo'. clear ro0 Ho0.
  unfold Heap.bc_raise.
  wp_read.
  apply wp_bind. eapply wp_warn_if; [eassumption|]. intros h1 Hm1.
  apply wp_bind. eapply wp_bc_num2long; [eassumption..|].
  fold long.
  apply wp_bind.
  apply (wp_mono _ (fun b h' =>
           b = (long =? 0) && (_bc_do_compare v2 _one_ false >? 0)
           /\ h' = h1)).
  { destruct (long =? 0).
    - apply wp_bind, wp_gets.
      destruct (models_constants _ _ _ _ _ _ Hm1) as (_ & -> & _).
      apply wp_bind. eapply wp_bc_do_compare; [eassumption..|].
      apply wp_ret. now split.
    - apply wp_ret. now split. }
  intros too_large h1' [-> ->].
  apply wp_bind. eapply wp_error_if; [eassumption|]. intros h2 Hm2.
  change (models h2 L E') in Hm2.
  assert (HE' : forall h' L', models h' L' E' -> Heap._one_ h' = Some o).
  { intros h' L' Hm'. now destruct (models_constants _ _ _ _ _ _ Hm') as (_ & -> & _). }
  clearbody E'.
  destruct (Z.eqb_spec long 0) as [Hl0|Hl0].
  { apply wp_bind. eapply wp_bc_free_num; [eassumption..|].
    intros h3 Hm3. apply wp_bind, wp_gets. rewrite (HE' _ _ Hm3).
    eapply wp_bc_copy_num; [eassumption..|].
    intros h4 Hm4. eapply Hzero; eassumption. }
  wp_read.
  destruct (long <? 0) eqn:Hsign.
  - (* negative exponent *)
    pose proof (proj1 (Z.ltb_lt _ _) Hsign) as Hlt.
    set (dn := int_of_long INT_MAX (n_scale v1 * (- long) - scale)).
    assert (Hval : forall x,
      x = (if negb (dn =? 0)
           then if dn <? 0
                then n_value v1 ^ (- long) * 10 ^ (- (dn))
                else Z.quot (n_value v1 ^ (- long))
                       (10 ^ (dn))
           else n_value v1 ^ (- long)) ->
      bc_raise LONG_MAX INT_MAX v1 v2 scale = bc_divide _one_ (mk_num scale x) scale).
    { intros x ->. unfold bc_raise. fold long.
      destruct (Z.eqb_spec long 0) as [|_]; [contradiction|].
      now rewrite Hsign. }
    apply wp_bind. eapply wp_bc_new_num; [eassumption|].
    intros t h3 Hfresh Hm3.
    wp_read. wp_read. apply wp_bind. wp_write Hm4.
    apply wp_bind.
    assert (Hdiv : forall h5 x,
      x = (if negb (dn =? 0)
           then if dn <? 0
                then n_value v1 ^ (- long) * 10 ^ (- (dn))
                else Z.quot (n_value v1 ^ (- long))
                       (10 ^ (dn))
           else n_value v1 ^ (- long)) ->
      models h5 (<[t:=(mk_num scale x, 1)]> L) E' ->
      wp (Heap.bind (Heap.gets Heap._one_) (fun one =>
          Heap.bind (Heap.bc_divide one (Some t) result scale) (fun r =>
          Heap.ret (snd r)))) Q h5).
    { intros h5 x Hx Hm5. apply wp_bind, wp_gets. rewrite (HE' _ _ Hm5).
      apply wp_bind. eapply wp_bc_divide;
        [eassumption|lookup_tac|lookup_tac
        |apply releasable_insert; assumption| |].
      - intros Hnone. apply wp_ret. cbn [snd].
        eapply Hfail; [exact Hlt| |exact Hfresh|exact Hm5].
        now rewrite (Hval x Hx).
      - intros q p h6 Hq Hp Hm6. apply wp_ret. cbn [snd].
        assert (Hpt : p <> t).
        { intros ->. now rewrite lookup_insert_eq in Hp. }
        rewrite lookup_insert_ne in Hp by congruence.
        eapply Hneg; [exact Hlt| |exact Hfresh|exact Hp|exact Hpt|exact Hm6].
        now rewrite (Hval x Hx). }
    fold dn. destruct (negb (dn =? 0)) eqn:Hd.
    + destruct (dn <? 0) eqn:Hdn.
      * wp_read. wp_write Hm5. eapply Hdiv; [|exact Hm5].
        reflexivity.
      * wp_read. wp_write Hm5. eapply Hdiv; [|exact Hm5].
        reflexivity.
    + apply wp_ret. eapply Hdiv; [|exact Hm4]. reflexivity.
  - (* positive exponent *)
    pose proof (proj1 (Z.ltb_ge _ _) Hsign) as Hge.
    set (rscale := int_of_long INT_MAX
                     (MIN (n_scale v1 * long) (MAX scale (n_scale v1)))).
    set (dp := int_of_long INT_MAX (n_scale v1 * long - rscale)).
    assert (Hval : forall x,
      x = (if negb (dp =? 0)
           then if dp <? 0
                then n_value v1 ^ long * 10 ^ (- (dp))
                else Z.quot (n_value v1 ^ long)
                       (10 ^ (dp))
           else n_value v1 ^ long) ->
      bc_raise LONG_MAX INT_MAX v1 v2 scale = Some (mk_num rscale x)).
    { intros x ->. unfold bc_raise. fold long.
      destruct (Z.eqb_spec long 0) as [|_]; [contradiction|].
      now rewrite Hsign. }
    apply wp_bind. eapply wp_bc_new_num; [eassumption|].
    intros t h3 Hfresh Hm3.
    wp_read. wp_read. apply wp_bind. wp_write Hm4.
    apply wp_bind.
    assert (Hend : forall h5 x,
      x = (if negb (dp =? 0)
           then if dp <? 0
                then n_value v1 ^ long * 10 ^ (- (dp))
                else Z.quot (n_value v1 ^ long)
                       (10 ^ (dp))
           else n_value v1 ^ long) ->
      models h5 (<[t:=(mk_num rscale x, 1)]> L) E' ->
      wp (Heap.bind (Heap.bc_free_num result) (fun _ => Heap.ret (Some t)))
         Q h5).
    { intros h5 x Hx Hm5. apply wp_bind.
      eapply wp_bc_free_num;
        [eassumption|apply releasable_insert; assumption|].
      intros h6 Hm6. apply wp_ret.
      eapply Hpos; [lia|apply Hval, Hx|exact Hfresh|exact Hm6]. }
    fold dp. destruct (negb (dp =? 0)) eqn:Hd.
    + destruct (dp <? 0) eqn:Hdn.
      * wp_read. wp_write Hm5. eapply Hend; [|exact Hm5].
        reflexivity.
      * wp_read. wp_write Hm5. eapply Hend; [|exact Hm5].
        reflexivity.
    + apply wp_ret. eapply Hend; [|exact Hm4]. reflexivity.
Qed.

(** ** Local variables of a routine *)

Lemma locals_inv_lookup B S l a v :
  locals_inv B S l -> (a, v) ∈ l -> exists r, S !! a = Some (v, r).
Proof.
  intros (Hall & _) Hin. rewrite Forall_forall in Hall.
  exact (Hall _ Hin).
Qed.

Lemma locals_inv_base B S l a v r :
  locals_inv B S l -> B !! a = Some (v, r) -> exists r', S !! a = Some (v, r').
Proof.
  intros (_ & _ & <-) Hl. eapply lookup_release_all_inv, Hl.
Qed.

Lemma locals_inv_releasable B S l a b rest :
  locals_inv B S l -> Permutation (handles l) (a :: b :: rest) ->
  releasable S a /\ releasable (release a S) b.
Proof.
  intros (_ & Hrel & _) Hp.
  apply (releasable_all_perm _ _ _ Hp) in Hrel.
  destruct Hrel as (Ha & Hb & _). now split.
Qed.

Lemma locals_inv_handle B S l a v :
  locals_inv B S l -> (a, v) ∈ l -> releasable S (Some a).
Proof.
  intros Hinv Hin. destruct (locals_inv_lookup _ _ _ _ _ Hinv Hin) as [r Hl].
  eapply releasable_live, Hl.
Qed.

Lemma locals_inv_fresh B S l a v p :
  locals_inv B S l -> (a, v) ∈ l -> S !! p = None -> p <> a.
Proof.
  intros Hinv Hin Hp ->.
  destruct (locals_inv_lookup _ _ _ _ _ Hinv Hin) as [r Hl]. congruence.
Qed.

Lemma locals_inv_replace B S l1 x xv l2 p res :
  S !! p = None ->
  locals_inv B S (l1 ++ (x, xv) :: l2) ->
  locals_inv B (release (Some x) (<[p:=(res, 1)]> S))
    (l1 ++ (p, res) :: l2).
Proof.
  intros Hp (Hall & Hrel & HB).
  assert (Hperm : forall y,
    Permutation (handles (l1 ++ y :: l2)) (Some (fst y) :: handles (l1 ++ l2))).
  { intros y. unfold handles. rewrite !map_app. cbn [map].
    symmetry. apply Permutation_middle. }
  apply (releasable_all_perm _ _ _ (Hperm (x, xv))) in Hrel.
  rewrite (release_all_perm _ _ _ (Hperm (x, xv))) in HB.
  cbn [fst] in Hrel, HB.
  destruct (replace_head S (Some x) p res _ Hp Hrel) as [Hrel' HB'].
  assert (Hrel'' : releasable_all (release (Some x) (<[p:=(res, 1)]> S))
                     (handles (l1 ++ (p, res) :: l2))).
  { eapply releasable_all_perm; [symmetry; apply (Hperm (p, res))|exact Hrel']. }
  split; [|split].
  - apply Forall_forall. intros [a v] Hin. cbn [fst snd].
    assert (Ha : releasable (release (Some x) (<[p:=(res, 1)]> S)) (Some a)).
    { eapply releasable_all_elem; [|exact Hrel''].
      unfold handles. apply list_elem_of_fmap. exists (a, v). now split. }
    apply elem_of_app in Hin as [Hin|Hin];
      [|apply elem_of_cons in Hin as [Heq|Hin]].
    + rewrite Forall_forall in Hall.
      destruct (Hall (a, v)) as [r Hl]; [apply elem_of_app; now left|].
      eapply lookup_after_replace; eassumption.
    + injection Heq as -> ->. exists 1.
      rewrite lookup_release_ne, lookup_insert_eq; [reflexivity|].
      intros [= ->]. destruct Hrel as [[y Hy] _]. congruence.
    + rewrite Forall_forall in Hall.
      destruct (Hall (a, v)) as [r Hl];
        [apply elem_of_app; right; now apply elem_of_cons; right|].
      eapply lookup_after_replace; eassumption.
  - exact Hrel''.
  - rewrite (release_all_perm _ _ _ (Hperm (p, res))). cbn [fst].
    now rewrite HB'.
Qed.

Lemma bc_divmod_is_Some v1 v2 scale :
  bc_is_zero v2 = false -> is_Some (bc_divmod v1 v2 scale).
Proof. intros Hz. unfold bc_divmod. rewrite Hz. eauto. Qed.

Lemma bc_modulo_is_Some v1 v2 scale :
  bc_is_zero v2 = false -> is_Some (bc_modulo v1 v2 scale).
Proof.
  intros Hz. unfold bc_modulo.
  destruct (bc_divmod_is_Some v1 v2 scale Hz) as [[q r] ->]. cbn. eauto.
Qed.

Lemma locals_inv_nil L : locals_inv L L [].
Proof. split; [constructor|]. now split. Qed.

Lemma locals_inv_copy B S l a v r :
  locals_inv B S l -> S !! a = Some (v, r) -> 0 < r ->
  locals_inv B (<[a:=(v, r + 1)]> S) ((a, v) :: l).
Proof.
  intros (Hall & Hrel & HB) Ha Hr.
  assert (Hback : release (Some a) (<[a:=(v, r + 1)]> S) = S)
    by now apply release_retain.
  split; [|split].
  - constructor.
    + exists (r + 1). apply lookup_insert_eq.
    + eapply Forall_impl; [exact Hall|]. intros [b w] [rb Hb].
      cbn [fst snd] in *. eapply lookup_insert_live; eassumption.
  - cbn. split; [rewrite lookup_insert_eq; eauto|].
    change (partial_alter drop_ref a (<[a:=(v, r + 1)]> S))
      with (release (Some a) (<[a:=(v, r + 1)]> S)).
    now rewrite Hback.
  - cbn.
    change (partial_alter drop_ref a (<[a:=(v, r + 1)]> S))
      with (release (Some a) (<[a:=(v, r + 1)]> S)).
    now rewrite Hback.
Qed.

Lemma locals_inv_perm B S l l' :
  Permutation l l' -> locals_inv B S l -> locals_inv B S l'.
Proof.
  intros Hp (Hall & Hrel & HB).
  assert (Hh : Permutation (handles l) (handles l'))
    by (unfold handles; now apply Permutation_map).
  split; [|split].
  - eapply Permutation_Forall; eassumption.
  - eapply releasable_all_perm; eassumption.
  - now rewrite <- (release_all_perm _ _ _ Hh).
Qed.

Lemma locals_inv_drop B S a v l :
  locals_inv B S ((a, v) :: l) -> locals_inv B (release (Some a) S) l.
Proof.
  intros (Hall & [Ha Hrel] & HB). split; [|split].
  - apply Forall_forall. intros [b w] Hin. cbn [fst snd].
    assert (Hb : releasable (release (Some a) S) (Some b)).
    { eapply releasable_all_elem; [|exact Hrel].
      unfold handles. apply list_elem_of_fmap. exists (b, w). now split. }
    destruct Hb as [[w' r'] Hl]. exists r'. rewrite Hl.
    destruct (lookup_release_inv _ _ _ _ _ Hl) as (r'' & Hl').
    apply Forall_cons in Hall as [_ Hall]. rewrite Forall_forall in Hall.
    destruct (Hall _ Hin) as [r0 H0]. cbn [fst snd] in H0. congruence.
  - exact Hrel.
  - exact HB.
Qed.

Lemma locals_inv_fresh_base B S l p :
  locals_inv B S l -> S !! p = None -> B !! p = None.
Proof. intros (_ & _ & <-) Hp. now apply lookup_release_all_None. Qed.

(** The arithmetic routines, called with a local variable as result
    variable and live cells as operands. *)
Lemma wp_multiply_local h B S E l1 x xv l2 a1 v1 r1 a2 v2 r2 scale Q :
  models h S E ->
  locals_inv B S (l1 ++ (x, xv) :: l2) ->
  S !! a1 = Some (v1, r1) -> S !! a2 = Some (v2, r2) ->
  (forall p h' S',
     B !! p = None ->
     models h' S' E ->
     locals_inv B S' (l1 ++ (p, bc_multiply v1 v2 scale) :: l2) ->
     Q (Some p) h') ->
  wp (Heap.bc_multiply (Some a1) (Some a2) (Some x) scale) Q h.
Proof.
  intros Hm Hinv H1 H2 HQ.
  eapply wp_bc_multiply; [eassumption..| |].
  - eapply locals_inv_handle; [eassumption|].
    apply elem_of_app; right; apply elem_of_cons; now left.
  - intros p h' Hp Hm'. eapply HQ; [|exact Hm'|].
    + eapply locals_inv_fresh_base; eassumption.
    + now apply (locals_inv_replace _ _ _ _ xv).
Qed.

Lemma wp_modulo_local h B S z op tp calls vz rz l1 x xv l2 a1 v1 r1 a2 v2 r2
    scale Q :
  let E := (Some z, op, tp, calls) in
  models h S E ->
  locals_inv B S (l1 ++ (x, xv) :: l2) ->
  S !! z = Some (vz, rz) ->
  S !! a1 = Some (v1, r1) -> S !! a2 = Some (v2, r2) ->
  bc_is_zero v2 = false ->
  (forall rv p h' S',
     bc_modulo v1 v2 scale = Some rv ->
     B !! p = None ->
     models h' S' E ->
     locals_inv B S' (l1 ++ (p, rv) :: l2) ->
     Q (0, Some p) h') ->
  wp (Heap.bc_modulo (Some a1) (Some a2) (Some x) scale) Q h.
Proof.
  intros E Hm Hinv Hz H1 H2 Hnz HQ.
  eapply wp_bc_modulo; [eassumption..| | |].
  - eapply locals_inv_handle; [eassumption|].
    apply elem_of_app; right; apply elem_of_cons; now left.
  - intros Hnone. destruct (bc_modulo_is_Some v1 v2 scale Hnz) as [y Hy].
    congruence.
  - intros rv p h' Hrv Hp Hm'. eapply HQ; [exact Hrv| |exact Hm'|].
    + eapply locals_inv_fresh_base; eassumption.
    + now apply (locals_inv_replace _ _ _ _ xv).
Qed.

Lemma wp_divide_local h B S E l1 x xv l2 a1 v1 r1 a2 v2 r2 scale Q :
  models h S E ->
  locals_inv B S (l1 ++ (x, xv) :: l2) ->
  S !! a1 = Some (v1, r1) -> S !! a2 = Some (v2, r2) ->
  bc_is_zero v2 = false ->
  (forall q p h' S',
     bc_divide v1 v2 scale = Some q ->
     models h' S' E ->
     locals_inv B S' (l1 ++ (p, q) :: l2) ->
     Q (0, Some p) h') ->
  wp (Heap.bc_divide (Some a1) (Some a2) (Some x) scale) Q h.
Proof.
  intros Hm Hinv H1 H2 Hnz HQ.
  eapply wp_bc_divide; [eassumption..| | |].
  - eapply locals_inv_handle; [eassumption|].
    apply elem_of_app; right; apply elem_of_cons; now left.
  - unfold bc_divide. now rewrite Hnz.
  - intros q p h' Hq Hp Hm'. eapply HQ; [exact Hq|exact Hm'|].
    now apply (locals_inv_replace _ _ _ _ xv).
Qed.

Lemma wp_divmod_locals h B S z op tp calls vz rz l1 xq xqv l2 xr xrv l3
    a1 v1 r1 a2 v2 r2 scale Q :
  let E := (Some z, op, tp, calls) in
  models h S E ->
  locals_inv B S (l1 ++ (xq, xqv) :: l2 ++ (xr, xrv) :: l3) ->
  S !! z = Some (vz, rz) ->
  S !! a1 = Some (v1, r1) -> S !! a2 = Some (v2, r2) ->
  bc_is_zero v2 = false ->
  (forall qv rv pq pr h' S',
     bc_divmod v1 v2 scale = Some (qv, rv) ->
     models h' S' E ->
     locals_inv B S' (l1 ++ (pq, qv) :: l2 ++ (pr, rv) :: l3) ->
     Q (0, Some (Some pq), Some pr) h') ->
  wp (Heap.bc_divmod (Some a1) (Some a2) (Some (Some xq)) (Some xr) scale)
     Q h.
Proof.
  intros E Hm Hinv Hz H1 H2 Hnz HQ.
  assert (Hre : forall (y w : nat * number),
    l1 ++ y :: l2 ++ w :: l3 = (l1 ++ y :: l2) ++ w :: l3).
  { intros y w. now rewrite <- app_assoc. }
  assert (Hpair : releasable S (Some xr)
                  /\ releasable (release (Some xr) S) (Some xq)).
  { eapply (locals_inv_releasable _ _ _ _ _
              (handles l1 ++ handles l2 ++ handles l3)); [exact Hinv|].
    unfold handles. rewrite !map_app. cbn [map fst]. rewrite map_app.
    cbn [map fst].
    etransitivity; [symmetry; apply Permutation_middle|].
    etransitivity; [|apply perm_swap]. apply perm_skip.
    rewrite (app_assoc (map _ l1) (map _ l2)).
    rewrite (app_assoc (map _ l1) (map _ l2)).
    symmetry. apply Permutation_middle. }
  destruct Hpair as [Hr Hq].
  eapply wp_bc_divmod; [eassumption..|exact Hq| |].
  - intros Hnone. destruct (bc_divmod_is_Some v1 v2 scale Hnz) as [y Hy].
    congruence.
  - intros qv rv pr h' Hdm Hpr pq Hpq Hne Hm'.
    eapply HQ; [exact Hdm| |].
    + exact Hm'.
    + assert (Hxr : Some xr <> Some pq).
      { eapply handle_fresh_ne; eassumption. }
      rewrite insert_insert_ne by congruence.
      rewrite release_insert_ne by exact Hxr.
      rewrite Hre in Hinv.
      pose proof (locals_inv_replace _ _ _ _ _ _ pr rv Hpr Hinv) as Hinv1.
      rewrite <- Hre in Hinv1.
      apply (locals_inv_replace _ _ _ _ xqv); [|exact Hinv1].
      apply lookup_release_None. rewrite lookup_insert_ne by congruence.
      exact Hpq.
Qed.


(** ** The loop of [bc_raisemod]

    The product [temp] stays where it is while the exponent is zero, and is
    a cell allocated by the loop once the exponent has been non-zero. *)

Lemma wp_raisemod_loop fuel :
  forall h B S z op t calls vz rz rt ma mv rm pa pv ea ev ta tv ya yv
         scale rscale res Q,
  let E := (Some z, op, Some t, calls) in
  models h S E ->
  B !! z = Some (vz, rz) -> B !! t = Some (_two_, rt) ->
  B !! ma = Some (mv, rm) -> bc_is_zero mv = false ->
  locals_inv B S [(pa, pv); (ea, ev); (ta, tv); (ya, yv)] ->
  n_scale ev = 0 ->
  raisemod_loop fuel mv scale rscale pv ev tv yv = Some res ->
  (forall pa' pv' ea' ev' ta' ya' yv' h' S',
     models h' S' E ->
     locals_inv B S' [(pa', pv'); (ea', ev'); (ta', res); (ya', yv')] ->
     (bc_is_zero ev = true -> ta' = ta) ->
     (B !! ta = None \/ bc_is_zero ev = false -> B !! ta' = None) ->
     Q (Heap.mk_vars (Some pa') (Some ea') (Some ta') (Some ya')) h') ->
  wp (Heap.raisemod_loop fuel (Some ma) scale rscale
        (Heap.mk_vars (Some pa) (Some ea) (Some ta) (Some ya))) Q h.
Proof.
  induction fuel as [|fuel IH];
    intros h B S z op t calls vz rz rt ma mv rm pa pv ea ev ta tv ya yv
           scale rscale res Q E Hm Bz Bt Bm Hnz Hinv Hes Hloop HQ;
    destruct (locals_inv_lookup _ _ _ ea ev Hinv) as [re He];
      [repeat constructor| |repeat constructor|];
    cbn [Heap.raisemod_loop]; cbn [raisemod_loop] in Hloop;
    wp_read; destruct (bc_is_zero ev) eqn:Hez;
    try discriminate Hloop;
    try (injection Hloop as <-; apply wp_ret;
         eapply HQ; [eassumption|eassumption|reflexivity|];
         intros [Hf|Hf]; [exact Hf|discriminate Hf]).
  destruct (locals_inv_base _ _ _ _ _ _ Hinv Bz) as [rz' Sz].
  destruct (locals_inv_base _ _ _ _ _ _ Hinv Bt) as [rt' St].
  apply wp_bind, wp_gets.
  destruct (models_constants _ _ _ _ _ _ Hm) as (_ & _ & -> & _).
  apply wp_bind.
  eapply (wp_divmod_locals h B S z op (Some t) calls vz rz'
            [(pa, pv)] ea ev [(ta, tv)] ya yv []);
    [exact Hm|exact Hinv|eassumption..|reflexivity|].
  intros qv rv pq pr h1 S1 Hdm Hm1 Hinv1.
  rewrite Hdm in Hloop. cbn [default from_option id] in Hloop.
  rewrite (bc_divmod_two_parts ev Hes) in Hdm. injection Hdm as <- <-.
  set (qv := mk_num 0 (Z.quot (n_value ev) 2)) in *.
  set (rv := mk_num 0 (Z.rem (n_value ev) 2)) in *.
  cbn [fst snd default from_option id app].
  cbn [app] in Hinv1.
  destruct (locals_inv_lookup _ _ _ pr rv Hinv1) as [rr Hr];
    [repeat constructor|].
  wp_read.
  (* the product so far *)
  apply wp_bind.
  apply (wp_mono _ (fun temp h' => exists ta' S',
           temp = Some ta' /\ models h' S' E
           /\ locals_inv B S'
                [(pa, pv); (pq, qv);
                 (ta', if negb (bc_is_zero rv)
                       then default (bc_multiply tv pv rscale)
                              (bc_modulo (bc_multiply tv pv rscale) mv scale)
                       else tv);
                 (pr, rv)]
           /\ (if bc_is_zero rv then ta' = ta else B !! ta' = None))).
  { destruct (bc_is_zero rv); cbn [negb].
    - apply wp_ret. exists ta, S1. auto.
    - destruct (locals_inv_lookup _ _ _ ta tv Hinv1) as [rt1 Ht1];
        [repeat constructor|].
      destruct (locals_inv_lookup _ _ _ pa pv Hinv1) as [rp1 Hp1];
        [repeat constructor|].
      apply wp_bind.
      eapply (wp_multiply_local h1 B S1 E [(pa, pv); (pq, qv)] ta tv
                [(pr, rv)]); [exact Hm1|exact Hinv1|eassumption..|].
      intros p h2 S2 _ Hm2 Hinv2. cbn [app] in Hinv2.
      destruct (locals_inv_lookup _ _ _ p (bc_multiply tv pv rscale) Hinv2)
        as [rp2 Hp2]; [repeat constructor|].
      destruct (locals_inv_base _ _ _ _ _ _ Hinv2 Bz) as [rz2 Sz2].
      destruct (locals_inv_base _ _ _ _ _ _ Hinv2 Bm) as [rm2 Sm2].
      apply wp_bind.
      eapply (wp_modulo_local h2 B S2 z op (Some t) calls vz rz2
                [(pa, pv); (pq, qv)] p (bc_multiply tv pv rscale)
                [(pr, rv)]); [exact Hm2|exact Hinv2|eassumption..|].
      intros mv' p' h3 S3 Hmod Hfresh Hm3 Hinv3. cbn [app] in Hinv3.
      apply wp_ret. cbn [snd]. exists p', S3.
      rewrite Hmod. cbn [default from_option id]. auto. }
  intros temp h2 (ta' & S2 & -> & Hm2 & Hinv2 & Hta).
  set (tv' := if negb (bc_is_zero rv)
              then default (bc_multiply tv pv rscale)
                     (bc_modulo (bc_multiply tv pv rscale) mv scale)
              else tv) in *.
  (* the power of the base *)
  destruct (locals_inv_lookup _ _ _ pa pv Hinv2) as [rp2 Hp2];
    [repeat constructor|].
  apply wp_bind.
  eapply (wp_multiply_local h2 B S2 E [] pa pv
            [(pq, qv); (ta', tv'); (pr, rv)]);
    [exact Hm2|exact Hinv2|eassumption..|].
  intros p h3 S3 _ Hm3 Hinv3. cbn [app] in Hinv3.
  destruct (locals_inv_lookup _ _ _ p (bc_multiply pv pv rscale) Hinv3)
    as [rp3 Hp3]; [repeat constructor|].
  destruct (locals_inv_base _ _ _ _ _ _ Hinv3 Bz) as [rz3 Sz3].
  destruct (locals_inv_base _ _ _ _ _ _ Hinv3 Bm) as [rm3 Sm3].
  apply wp_bind.
  eapply (wp_modulo_local h3 B S3 z op (Some t) calls vz rz3
            [] p (bc_multiply pv pv rscale)
            [(pq, qv); (ta', tv'); (pr, rv)]);
    [exact Hm3|exact Hinv3|eassumption..|].
  intros pv' p' h4 S4 Hmod _ Hm4 Hinv4. cbn [app] in Hinv4.
  cbn [snd].
  rewrite Hmod in Hloop. cbn [default from_option id] in Hloop.
  eapply IH; [exact Hm4|exact Bz|exact Bt|exact Bm|exact Hnz|exact Hinv4
             |reflexivity|exact Hloop|].
  intros pa'' pv'' ea'' ev'' ta'' ya'' yv'' h5 S5 Hm5 Hinv5 Hsame Hfr.
  eapply HQ; [exact Hm5|exact Hinv5|discriminate|].
  intros _. apply Hfr.
  destruct (bc_is_zero rv) eqn:Hrz.
  - right. now apply halving_nonzero.
  - left. exact Hta.
Qed.

(** [bc_raisemod].  A refused call changes nothing.  Otherwise the store
    is the one before the call with two more references: the result, and the
    last remainder of the halving, which the routine does not release. *)
Lemma wp_bc_raisemod h L z o t calls rz ro rt base vb rb expo ve re
    ma vm rm result scale Q :
  let ev := if negb (n_scale ve =? 0)
            then default ve (bc_divide ve _one_ 0) else ve in
  let E' := (Some z, Some o, Some t,
             ((calls
               ++ (if negb (n_scale vb =? 0)
                   then [Heap.rt_warn "non-zero scale in base"] else []))
              ++ (if negb (n_scale ve =? 0)
                  then [Heap.rt_warn "non-zero scale in exponent"] else []))
             ++ (if negb (n_scale vm =? 0)
                 then [Heap.rt_warn "non-zero scale in modulus"] else [])) in
  models h L (Some z, Some o, Some t, calls) ->
  L !! z = Some (_zero_, rz) -> L !! o = Some (_one_, ro) ->
  L !! t = Some (_two_, rt) ->
  L !! base = Some (vb, rb) -> L !! expo = Some (ve, re) ->
  L !! ma = Some (vm, rm) ->
  releasable L result ->
  (bc_raisemod vb ve vm scale = None -> Q (-1, result) h) ->
  (forall res p yp yv h' S',
     bc_raisemod vb ve vm scale = Some res ->
     locals_inv L S' [(p, res); (yp, yv)] ->
     (bc_is_zero ev = true -> p = o) ->
     (bc_is_zero ev = false -> L !! p = None) ->
     models h' (release result S') E' ->
     Q (0, Some p) h') ->
  wp (Heap.bc_raisemod (Some base) (Some expo) (Some ma) result scale) Q h.
Proof.
  intros ev E' Hm Lz Lo Lt Lb Le Lm Hres Hfail Hok. unfold Heap.bc_raisemod.
  wp_read. destruct (bc_is_zero vm) eqn:Hmz.
  { apply wp_ret, Hfail. unfold bc_raisemod. now rewrite Hmz. }
  wp_read. destruct (bc_is_neg ve) eqn:Hen.
  { apply wp_ret, Hfail. unfold bc_raisemod. now rewrite Hmz, Hen. }
  destruct (bc_raisemod_total vb ve vm scale Hmz Hen) as [res Hval].
  (* the four local variables *)
  pose proof (locals_inv_nil L) as I0.
  apply wp_bind. eapply wp_bc_copy_num; [exact Hm|exact Lb|]. intros h1 Hm1.
  pose proof (locals_inv_copy _ _ _ _ _ _ I0 Lb
                (models_refs_pos _ _ _ _ _ _ Hm Lb)) as I1.
  destruct (locals_inv_base _ _ _ _ _ _ I1 Le) as [re1 Le1].
  apply wp_bind. eapply wp_bc_copy_num; [exact Hm1|exact Le1|].
  intros h2 Hm2.
  pose proof (locals_inv_copy _ _ _ _ _ _ I1 Le1
                (models_refs_pos _ _ _ _ _ _ Hm1 Le1)) as I2.
  destruct (locals_inv_base _ _ _ _ _ _ I2 Lo) as [ro2 Lo2].
  apply wp_bind, wp_gets.
  destruct (models_constants _ _ _ _ _ _ Hm2) as (_ & -> & _).
  apply wp_bind. eapply wp_bc_copy_num; [exact Hm2|exact Lo2|].
  intros h3 Hm3.
  pose proof (locals_inv_copy _ _ _ _ _ _ I2 Lo2
                (models_refs_pos _ _ _ _ _ _ Hm2 Lo2)) as I3.
  destruct (locals_inv_base _ _ _ _ _ _ I3 Lz) as [rz3 Lz3].
  apply wp_bind. eapply wp_bc_init_num; [exact Hm3|exact Lz3|].
  intros h4 Hm4.
  pose proof (locals_inv_copy _ _ _ _ _ _ I3 Lz3
                (models_refs_pos _ _ _ _ _ _ Hm3 Lz3)) as I4.
  apply (locals_inv_perm _ _ _ _ (Permutation_rev _)) in I4.
  cbn [rev app] in I4.
  match type of Hm4 with models _ ?S _ => set (S4 := S) in * end.
  clearbody S4. clear I0 I1 I2 I3 Le1 Lo2 Lz3 Hm Hm1 Hm2 Hm3.
  (* the three warnings *)
  destruct (locals_inv_lookup _ _ _ base vb I4) as [rb4 Lb4];
    [repeat constructor|].
  destruct (locals_inv_lookup _ _ _ expo ve I4) as [re4 Le4];
    [repeat constructor|].
  destruct (locals_inv_lookup _ _ _ o _one_ I4) as [ro4 Lo4];
    [repeat constructor|].
  wp_read.
  apply wp_bind. eapply wp_warn_if; [exact Hm4|]. intros h5 Hm5.
  wp_read.
  apply wp_bind.
  apply (wp_mono _ (fun ex h' => exists ea S',
           ex = Some ea
           /\ models h' S'
                (Some z, Some o, Some t,
                 (calls
                  ++ (if negb (n_scale vb =? 0)
                      then [Heap.rt_warn "non-zero scale in base"] else []))
                 ++ (if negb (n_scale ve =? 0)
                     then [Heap.rt_warn "non-zero scale in exponent"]
                     else []))
           /\ locals_inv L S'
                [(base, vb); (ea, ev); (o, _one_); (z, _zero_)])).
  { subst ev. destruct (negb (n_scale ve =? 0)).
    - apply wp_bind. eapply wp_bc_rt_warn; [exact Hm5|]. intros h6 Hm6.
      apply wp_bind, wp_gets.
      destruct (models_constants _ _ _ _ _ _ Hm6) as (_ & -> & _).
      apply wp_bind.
      eapply (wp_divide_local h6 L S4 _ [(base, vb)] expo ve
                [(o, _one_); (z, _zero_)]);
        [exact Hm6|exact I4|exact Le4|exact Lo4|reflexivity|].
      intros q p h7 S7 Hq Hm7 I7. apply wp_ret. cbn [snd].
      exists p, S7. rewrite Hq. cbn [default from_option id]. auto.
    - apply wp_ret. exists expo, S4. rewrite app_nil_r. auto. }
  intros ex h6 (ea & S6 & -> & Hm6 & I6).
  destruct (locals_inv_base _ _ _ _ _ _ I6 Lm) as [rm6 Lm6].
  destruct (locals_inv_lookup _ _ _ base vb I6) as [rb6 Lb6];
    [repeat constructor|].
  destruct (locals_inv_lookup _ _ _ ea ev I6) as [re6 Le6];
    [repeat constructor|].
  wp_read.
  apply wp_bind. eapply wp_warn_if; [exact Hm6|]. intros h7 Hm7.
  change (models h7 S6 E') in Hm7.
  assert (HE' : E' = (Some z, Some o, Some t, snd E')) by reflexivity.
  clearbody E'. rewrite HE' in Hm7.
  wp_read. wp_read.
  (* the loop *)
  apply wp_bind.
  eapply (wp_raisemod_loop _ h7 L S6 z (Some o) t (snd E') _zero_ rz rt
            ma vm rm base vb ea ev o _one_ z _zero_ scale
            (MAX scale (n_scale vb)) res);
    [exact Hm7|exact Lz|exact Lt|exact Lm|exact Hmz|exact I6| | |].
  { subst ev. destruct (Z.eqb_spec (n_scale ve) 0) as [Hs|Hs]; [exact Hs|].
    cbn [negb].
    destruct (bc_divide_some ve _one_ 0) as [qv ->]; [discriminate|].
    reflexivity. }
  { unfold bc_raisemod in Hval. rewrite Hmz, Hen in Hval. exact Hval. }
  intros pa' pv' ea' ev' ta' ya' yv' h8 S8 Hm8 I8 Hsame Hfr.
  cbn [Heap.v_power Heap.v_exponent Heap.v_temp].
  apply wp_bind. eapply wp_bc_free_num;
    [exact Hm8|eapply locals_inv_handle; [exact I8|now left]|].
  intros h9 Hm9. apply locals_inv_drop in I8.
  apply wp_bind. eapply wp_bc_free_num;
    [exact Hm9|eapply locals_inv_handle; [exact I8|now left]|].
  intros h10 Hm10. apply locals_inv_drop in I8.
  apply wp_bind. eapply wp_bc_free_num; [exact Hm10| |].
  { destruct result as [a|]; [|exact I].
    destruct Hres as [[v r] Hl].
    destruct (locals_inv_base _ _ _ _ _ _ I8 Hl) as [r' Hl'].
    eapply releasable_live, Hl'. }
  intros h11 Hm11. apply wp_ret.
  eapply Hok; [exact Hval|exact I8|exact Hsame| |].
  - intros Hz. apply Hfr. now right.
  - rewrite HE'. exact Hm11.
Qed.

(** ** From the rules to runs *)

Lemma wp_returns {A} (m : Heap.M A) (Q : A -> Heap.heap -> Prop) h :
  wp m Q h -> exists x h', m h = Some (x, h') /\ Q x h'.
Proof. exact (fun H => H). Qed.

Lemma wp_unchanged {A} (m : Heap.M A) (a : A) h :
  wp m (fun x h' => x = a /\ h' = h) h -> m h = Some (a, h).
Proof. intros (x & h' & Hrun & -> & ->). exact Hrun. Qed.


Lemma sample_heap_models :
  models sample_heap (live sample_heap)
    (Some 0%nat, Some 1%nat, Some 2%nat, []).
Proof.
  split; [|split; reflexivity]. exists []. split; [constructor|reflexivity].
Qed.

(** ** What the caller sees *)






Lemma bc_is_zero_false v : n_value v <> 0 -> bc_is_zero v = false.
Proof.
  intros Hv. unfold bc_is_zero.
  destruct (Z.eqb_spec (Z.sgn (n_value v)) 0); [lia|reflexivity].
Qed.

Lemma bc_is_neg_false v : 0 <= n_value v -> bc_is_neg v = false.
Proof.
  intros Hv. unfold bc_is_neg.
  destruct (Z.eqb_spec (Z.sgn (n_value v)) (-1)); [lia|reflexivity].
Qed.

(** ** Conversion from an integer, negation, initialisation *)

(** [bc_int2num] releases the old occupant first: the new cell may be the
    one just released.  The cell holds the argument as an [int]. *)
Lemma wp_bc_int2num INT_MAX h L E slot val Q :
  models h L E -> releasable L slot ->
  (forall p h',
     release slot L !! p = None ->
     models h'
       (<[p:=(mk_num 0 (int_of_long INT_MAX val), 1)]> (release slot L)) E ->
     Q (Some p) h') ->
  wp (Heap.bc_int2num INT_MAX slot val) Q h.
Proof.
  intros Hm Hslot HQ. unfold Heap.bc_int2num. cbv zeta.
  apply wp_bind. eapply wp_bc_free_num; [eassumption..|]. intros h1 Hm1.
  apply wp_bind. eapply wp_bc_new_num; [eassumption|].
  intros p h2 Hfresh Hm2.
  apply wp_bind. wp_write Hm3. apply wp_ret. now apply HQ.
Qed.

Lemma wp_bc_neg h L E a v r Q :
  models h L E -> L !! a = Some (v, r) ->
  (r = 1 ->
   forall h',
     models h' (<[a:=(mk_num (n_scale v) (- n_value v), 1)]> L) E ->
     Q (Some a) h') ->
  (r <> 1 ->
   forall p h',
     L !! p = None ->
     models h'
       (release (Some a) (<[p:=(mk_num (n_scale v) (- n_value v), 1)]> L)) E ->
     Q (Some p) h') ->
  wp (Heap.bc_neg (Some a)) Q h.
Proof.
  intros Hm Hl Hone Hmany. unfold Heap.bc_neg.
  wp_read. destruct (Z.eqb_spec r 1) as [->|Hr].
  - wp_read. apply wp_bind. wp_write Hm1. apply wp_ret. now apply Hone.
  - wp_read. apply wp_bind. eapply wp_bc_new_num; [eassumption|].
    intros p h1 Hfresh Hm1.
    wp_read. apply wp_bind. wp_write Hm2.
    apply wp_bind. eapply wp_bc_free_num;
      [eassumption|apply releasable_insert; [assumption|eapply releasable_live; eassumption]|].
    intros h3 Hm3. apply wp_ret. now apply Hmany.
Qed.

Lemma wp_set_zero h L zp op tp calls p Q :
  models h L (zp, op, tp, calls) ->
  (forall h', models h' L (p, op, tp, calls) -> Q tt h') ->
  wp (Heap.set_zero p) Q h.
Proof.
  intros ((fl & Hnd & Hch) & HL & HE) HQ. eapply wp_run; [reflexivity|].
  apply HQ. split; [exists fl; split; assumption|]. split; [exact HL|].
  unfold env in *. cbn. now injection HE as _ -> -> ->.
Qed.

Lemma wp_set_one h L zp op tp calls p Q :
  models h L (zp, op, tp, calls) ->
  (forall h', models h' L (zp, p, tp, calls) -> Q tt h') ->
  wp (Heap.set_one p) Q h.
Proof.
  intros ((fl & Hnd & Hch) & HL & HE) HQ. eapply wp_run; [reflexivity|].
  apply HQ. split; [exists fl; split; assumption|]. split; [exact HL|].
  unfold env in *. cbn. now injection HE as -> _ -> ->.
Qed.

Lemma wp_set_two h L zp op tp calls p Q :
  models h L (zp, op, tp, calls) ->
  (forall h', models h' L (zp, op, p, calls) -> Q tt h') ->
  wp (Heap.set_two p) Q h.
Proof.
  intros ((fl & Hnd & Hch) & HL & HE) HQ. eapply wp_run; [reflexivity|].
  apply HQ. split; [exists fl; split; assumption|]. split; [exact HL|].
  unfold env in *. cbn. now injection HE as -> -> _ ->.
Qed.

Lemma wp_bc_init_numbers h L zp op tp calls Q :
  models h L (zp, op, tp, calls) ->
  (forall z o t h',
     L !! z = None -> L !! o = None -> L !! t = None ->
     z <> o -> z <> t -> o <> t ->
     models h'
       (<[t:=(_two_, 1)]> (<[o:=(_one_, 1)]> (<[z:=(_zero_, 1)]> L)))
       (Some z, Some o, Some t, calls) ->
     Q tt h') ->
  wp Heap.bc_init_numbers Q h.
Proof.
  intros Hm HQ. unfold Heap.bc_init_numbers.
  apply wp_bind. eapply wp_bc_new_num; [eassumption|].
  intros z h1 Hz Hm1.
  apply wp_bind. eapply wp_set_zero; [eassumption|]. intros h2 Hm2.
  apply wp_bind. eapply wp_bc_new_num; [eassumption|].
  intros o h3 Ho Hm3.
  apply wp_bind. eapply wp_set_one; [eassumption|]. intros h4 Hm4.
  apply wp_bind. wp_write Hm5.
  apply wp_bind. eapply wp_bc_new_num; [eassumption|].
  intros t h6 Ht Hm6.
  apply wp_bind. eapply wp_set_two; [eassumption|]. intros h7 Hm7.
  wp_write Hm8.
  assert (Hzo : z <> o).
  { intros ->. now rewrite lookup_insert_eq in Ho. }
  rewrite lookup_insert_ne in Ho by exact Hzo.
  assert (Hot : o <> t).
  { intros ->. now rewrite lookup_insert_eq in Ht. }
  rewrite lookup_insert_ne in Ht by exact Hot.
  assert (Hzt : z <> t).
  { intros ->. now rewrite lookup_insert_eq in Ht. }
  rewrite lookup_insert_ne in Ht by exact Hzt.
  exact (HQ z o t _ Hz Ho Ht Hzo Hzt Hot Hm8).
Qed.

Lemma empty_heap_models : models empty_heap ∅ (None, None, None, []).
Proof.
  split; [|split; reflexivity]. exists []. split; [constructor|reflexivity].
Qed.

Lemma with_cells_same h : Heap.with_cells h (Heap.cells h) = h.
Proof. now destruct h. Qed.

Lemma bind_run {A B} (m : Heap.M A) (k : A -> Heap.M B) h x h' :
  m h = Some (x, h') -> Heap.bind m k h = k x h'.
Proof. intros Hrun. unfold Heap.bind. now rewrite Hrun. Qed.

Lemma get_refs_run h a c :
  Heap.cells h !! a = Some c ->
  Heap.get_refs (Some a) h = Some (Heap.n_refs c, h).
Proof.
  intros Hc. unfold Heap.get_refs.
  now rewrite (bind_run _ _ _ _ _ (deref_run _ _ _ Hc)).
Qed.

Lemma get_next_run h a c :
  Heap.cells h !! a = Some c ->
  Heap.get_next (Some a) h = Some (Heap.n_next c, h).
Proof.
  intros Hc. unfold Heap.get_next.
  now rewrite (bind_run _ _ _ _ _ (deref_run _ _ _ Hc)).
Qed.

Lemma copy_num_run h a c :
  Heap.cells h !! a = Some c ->
  Heap.bc_copy_num (Some a) h
  = Some (Some a,
          Heap.with_cells h
            (<[a:=Heap.mk_struct (Heap.n_scale c) (Heap.n_refs c + 1)
                    (Heap.n_next c) (Heap.n_value c)]> (Heap.cells h))).
Proof.
  intros Hc. unfold Heap.bc_copy_num, Heap.set_refs.
  rewrite (bind_run _ _ _ _ _ (get_refs_run _ _ _ Hc)).
  now rewrite (bind_run _ _ _ _ _ (update_run _ _ _ _ Hc)).
Qed.

Lemma free_num_shared_run h a c :
  Heap.cells h !! a = Some c -> Heap.n_refs c <> 1 ->
  Heap.bc_free_num (Some a) h
  = Some (None,
          Heap.with_cells h
            (<[a:=Heap.mk_struct (Heap.n_scale c) (Heap.n_refs c - 1)
                    (Heap.n_next c) (Heap.n_value c)]> (Heap.cells h))).
Proof.
  intros Hc Hr. unfold Heap.bc_free_num, Heap.set_refs.
  rewrite (bind_run _ _ _ _ _ (get_refs_run _ _ _ Hc)).
  rewrite (bind_run _ _ _ _ _ (update_run _ _ _ _ Hc)).
  rewrite (bind_run _ _ _ _ _
             (get_refs_run _ _ _ (lookup_updated _ _ _ _ Hc))).
  cbn [Heap.n_refs].
  destruct (Z.eqb_spec (Heap.n_refs c - 1) 0); [lia|].
  reflexivity.
Qed.

Lemma free_num_last_run h a c :
  Heap.cells h !! a = Some c -> Heap.n_refs c = 1 ->
  Heap.bc_free_num (Some a) h
  = Some (None,
          Heap.mk_heap
            (<[a:=Heap.mk_struct (Heap.n_scale c) 0 (Heap._bc_Free_list h)
                    None]> (Heap.cells h))
            (Some a) (Heap._zero_ h) (Heap._one_ h) (Heap._two_ h)
            (Heap.host_calls h)).
Proof.
  intros Hc Hr. unfold Heap.bc_free_num, Heap.set_refs.
  rewrite (bind_run _ _ _ _ _ (get_refs_run _ _ _ Hc)).
  rewrite (bind_run _ _ _ _ _ (update_run _ _ _ _ Hc)).
  rewrite (bind_run _ _ _ _ _
             (get_refs_run _ _ _ (lookup_updated _ _ _ _ Hc))).
  cbn [Heap.n_refs]. rewrite Hr.
  change (1 - 1 =? 0) with true. cbv iota.
  set (c1 := Heap.mk_struct (Heap.n_scale c) (1 - 1) (Heap.n_next c)
               (Heap.n_value c)).
  set (h1 := Heap.with_cells h (<[a:=c1]> (Heap.cells h))).
  assert (Hc1 : Heap.cells h1 !! a = Some c1) by (eapply lookup_updated, Hc).
  unfold Heap.mpz_clear, Heap.set_next, Heap.bind.
  rewrite (update_run _ _ _ _ Hc1). unfold Heap.gets.
  set (c2 := Heap.mk_struct (Heap.n_scale c1) (Heap.n_refs c1)
               (Heap.n_next c1) None).
  set (h2 := Heap.with_cells h1 (<[a:=c2]> (Heap.cells h1))).
  assert (Hc2 : Heap.cells h2 !! a = Some c2) by (eapply lookup_updated, Hc1).
  rewrite (update_run _ _ _ _ Hc2).
  subst h2 c2 h1 c1.
  cbn [Heap.with_cells Heap.cells Heap._bc_Free_list Heap._zero_ Heap._one_
       Heap._two_ Heap.host_calls Heap.n_scale Heap.n_refs Heap.n_next
       Heap.n_value Heap.set_Free_list Heap.ret].
  rewrite !list_insert_insert_eq. reflexivity.
Qed.

Lemma new_num_recycle_run h a c len scale :
  Heap._bc_Free_list h = Some a -> Heap.cells h !! a = Some c ->
  Heap.bc_new_num len scale h
  = Some (Some a,
          Heap.mk_heap
            (<[a:=Heap.mk_struct scale 1 (Heap.n_next c) (Some 0)]>
               (Heap.cells h))
            (Heap.n_next c) (Heap._zero_ h) (Heap._one_ h) (Heap._two_ h)
            (Heap.host_calls h)).
Proof.
  intros Hfl Hc. unfold Heap.bc_new_num.
  unfold Heap.bind at 1. unfold Heap.gets at 1. rewrite Hfl. cbv beta iota.
  rewrite (bind_run _ _ _ a
             (Heap.mk_heap (Heap.cells h) (Heap.n_next c) (Heap._zero_ h)
                (Heap._one_ h) (Heap._two_ h) (Heap.host_calls h))).
  2:{ rewrite (bind_run _ _ _ _ _ (get_next_run _ _ _ Hc)). reflexivity. }
  set (h1 := Heap.mk_heap (Heap.cells h) (Heap.n_next c) (Heap._zero_ h)
               (Heap._one_ h) (Heap._two_ h) (Heap.host_calls h)).
  assert (Hc1 : Heap.cells h1 !! a = Some c) by exact Hc.
  unfold Heap.set_scale, Heap.set_refs, Heap.mpz_init, Heap.bind.
  rewrite (update_run _ _ _ _ Hc1).
  set (c2 := Heap.mk_struct scale (Heap.n_refs c) (Heap.n_next c)
               (Heap.n_value c)).
  set (h2 := Heap.with_cells h1 (<[a:=c2]> (Heap.cells h1))).
  assert (Hc2 : Heap.cells h2 !! a = Some c2) by (eapply lookup_updated, Hc1).
  rewrite (update_run _ _ _ _ Hc2).
  set (c3 := Heap.mk_struct (Heap.n_scale c2) 1 (Heap.n_next c2)
               (Heap.n_value c2)).
  set (h3 := Heap.with_cells h2 (<[a:=c3]> (Heap.cells h2))).
  assert (Hc3 : Heap.cells h3 !! a = Some c3) by (eapply lookup_updated, Hc2).
  rewrite (update_run _ _ _ _ Hc3).
  subst h3 c3 h2 c2 h1.
  cbn [Heap.with_cells Heap.cells Heap._bc_Free_list Heap._zero_ Heap._one_
       Heap._two_ Heap.host_calls Heap.n_scale Heap.n_refs Heap.n_next
       Heap.n_value Heap.ret].
  rewrite !list_insert_insert_eq. reflexivity.
Qed.

Lemma live_insert_live h a c v r c' :
  Heap.cells h !! a = Some c -> view_cell c' = Some (v, r) ->
  live (Heap.with_cells h (<[a:=c']> (Heap.cells h))) = <[a:=(v, r)]> (live h).
Proof.
  intros Hc Hv. rewrite (live_insert_cell _ _ _ _ Hc), Hv.
  apply partial_alter_ext. reflexivity.
Qed.

(** ** Conversion from text on the store *)



(** ** Claims *)



(** C9.  [bc_num2long] returns the integer part of its argument, truncated
    toward zero, when that integer lies strictly above the most negative
    [long] and at most at [LONG_MAX]; it returns 0 when the integer part is
    the most negative [long], and 0 when the integer part does not fit.  So
    zero, an overflowing number and the most negative [long] all give 0. *)
Theorem bc_num2long_truncates_or_zero (LONG_MAX : Z) (num : number) :
  0 <= n_scale num ->
  let ip := Qtrunc (bc_val num) in
  (- LONG_MAX - 1 < ip <= LONG_MAX -> bc_num2long LONG_MAX num = ip)
  /\ (ip = - LONG_MAX - 1 -> bc_num2long LONG_MAX num = 0)
  /\ (ip < - LONG_MAX - 1 \/ LONG_MAX < ip -> bc_num2long LONG_MAX num = 0)
  /\ bc_num2long LONG_MAX (mk_num 0 0) = 0
  /\ bc_num2long LONG_MAX (mk_num 0 (LONG_MAX + 1)) = 0
  /\ bc_num2long LONG_MAX (mk_num 0 (- LONG_MAX - 1)) = 0.
Proof.
  intros Hs ip.
  assert (Hip : ip = Z.quot (n_value num) (10 ^ n_scale num)).
  { subst ip. unfold bc_val. apply Qtrunc_div, pow10_gt0, Hs. }
  assert (Hgen : forall n, 0 <= n_scale n ->
            bc_num2long LONG_MAX n
            = let q := Z.quot (n_value n) (10 ^ n_scale n) in
              if (- LONG_MAX - 1 <? q) && (q <=? LONG_MAX) then q else 0).
  { intros n Hn. unfold bc_num2long, mpz_fits_slong_p. cbn zeta.
    destruct (Z.gtb_spec (n_scale n) 0) as [Hpos|Hzero].
    - destruct (Z.leb_spec (- LONG_MAX - 1)
                  (Z.quot (n_value n) (10 ^ n_scale n)));
        destruct (Z.leb_spec (Z.quot (n_value n) (10 ^ n_scale n)) LONG_MAX);
        destruct (Z.ltb_spec (- LONG_MAX - 1)
                    (Z.quot (n_value n) (10 ^ n_scale n)));
        destruct (Z.eqb_spec (Z.quot (n_value n) (10 ^ n_scale n))
                    (- LONG_MAX - 1));
        cbn; lia.
    - replace (n_scale n) with 0 by lia.
      rewrite Z.pow_0_r, Z.quot_1_r.
      destruct (Z.leb_spec (- LONG_MAX - 1) (n_value n));
        destruct (Z.leb_spec (n_value n) LONG_MAX);
        destruct (Z.ltb_spec (- LONG_MAX - 1) (n_value n));
        destruct (Z.eqb_spec (n_value n) (- LONG_MAX - 1));
        cbn; lia. }
  rewrite (Hgen num Hs), <- Hip. cbn zeta.
  rewrite !Hgen by (cbn; lia). cbn [n_scale n_value].
  rewrite Z.pow_0_r, !Z.quot_1_r.
  repeat split.
  - intros H.
    destruct (Z.ltb_spec (- LONG_MAX - 1) ip);
      destruct (Z.leb_spec ip LONG_MAX); cbn; lia.
  - intros H.
    destruct (Z.ltb_spec (- LONG_MAX - 1) ip);
      destruct (Z.leb_spec ip LONG_MAX); cbn; lia.
  - intros H.
    destruct (Z.ltb_spec (- LONG_MAX - 1) ip);
      destruct (Z.leb_spec ip LONG_MAX); cbn; lia.
  - destruct (Z.ltb_spec (- LONG_MAX - 1) 0);
      destruct (Z.leb_spec 0 LONG_MAX); cbn; lia.
  - destruct (Z.ltb_spec (- LONG_MAX - 1) (LONG_MAX + 1));
      destruct (Z.leb_spec (LONG_MAX + 1) LONG_MAX); cbn; lia.
  - destruct (Z.ltb_spec (- LONG_MAX - 1) (- LONG_MAX - 1));
      destruct (Z.leb_spec (- LONG_MAX - 1) LONG_MAX); cbn; lia.
Qed.

(** The theorem at -12.7 on a host with 64-bit [long]. *)
Lemma bc_num2long_truncates_or_zero_witness :
  bc_num2long (2 ^ 63 - 1) (mk_num 1 (-127)) = -12.
Proof.
  destruct (bc_num2long_truncates_or_zero (2 ^ 63 - 1) (mk_num 1 (-127)))
    as (Hfit & _); [simpl; lia|].
  rewrite Hfit; [reflexivity|].
  vm_compute. split; [reflexivity|discriminate].
Defined.




(** C5, as the code has it.  For a number with a non-negative scale,
    [bc_num2str] writes a minus sign if the number is negative, then the
    integer digits, then, for a positive scale, a point and exactly [scale]
    fraction digits.  Integer and fraction digits together are the decimal
    digits of the stored integer, with zeros in front when there are fewer
    than [scale] of them.  There are as many integer digits as the stored
    integer has digits beyond [scale]: none at all when it has at most
    [scale] digits. *)
Theorem bc_num2str_format (num : number) :
  0 <= n_scale num ->
  exists ints fracs,
    bc_num2str num
    = sign_text (n_value num) +:+ ints
      +:+ (if n_scale num >? 0 then "." +:+ fracs else "")
    /\ all_digits ints = true
    /\ all_digits fracs = true
    /\ strlen fracs = n_scale num
    /\ strlen ints
       = Z.max 0 (strlen (dec_text (n_value num)) - n_scale num)
    /\ ints +:+ fracs
       = zeros (Z.to_nat (n_scale num - strlen (dec_text (n_value num))))
         +:+ dec_text (n_value num).
Proof.
  intros Hk.
  destruct (bc_num2str_shape num Hk) as (ints & fracs & Hout & Hcat & Hf & Hi).
  destruct (dec_text_spec (n_value num)) as (Hall & _).
  assert (Hboth : all_digits (ints +:+ fracs) = true).
  { rewrite Hcat, all_digits_append, all_digits_zeros. exact Hall. }
  rewrite all_digits_append in Hboth. apply andb_prop in Hboth as [Hai Haf].
  exists ints, fracs. repeat split; assumption.
Qed.

(** The theorem on -0.05, stored as -5 at scale 2. *)
Lemma bc_num2str_format_witness :
  exists ints fracs,
    bc_num2str (mk_num 2 (-5)) = "-" +:+ ints +:+ "." +:+ fracs
    /\ strlen ints = 0 /\ strlen fracs = 2.
Proof.
  destruct (bc_num2str_format (mk_num 2 (-5))) as (i & f & Ho & _ & _ & Hf & Hi & _).
  - simpl. lia.
  - exists i, f. split; [exact Ho|]. split; [exact Hi|exact Hf].
Defined.

(** C5, as the claim words it, asks for at least one integer digit.  The
    number 0.5, stored as 5 at scale 1, is written [".5"]. *)
Lemma bc_num2str_integer_digit_counterexample :
  bc_num2str (mk_num 1 5) = ".5"
  /\ ~ (exists ints fracs,
          bc_num2str (mk_num 1 5)
          = sign_text 5 +:+ ints +:+ "." +:+ fracs
          /\ 0 < strlen ints
          /\ all_digits ints = true
          /\ all_digits fracs = true
          /\ strlen fracs = 1).
Proof.
  split; [reflexivity|].
  intros (ints & fracs & Hout & Hlen & Hall & _).
  destruct ints as [|c ints].
  - unfold strlen in Hlen. simpl in Hlen. lia.
  - change (bc_num2str (mk_num 1 5)) with (String "." (String "5" "")) in Hout.
    change (sign_text 5) with "" in Hout.
    rewrite append_nil_l, append_cons in Hout.
    injection Hout as Hc _. subst c.
    simpl in Hall. discriminate.
Qed.

(** C7.  Whatever number [bc_str2num] produces from a text at a
    non-negative scale, writing it with [bc_num2str] and reading the text
    back at the number's own scale gives the same number: the same stored
    integer and the same scale. *)
Theorem bc_str2num_num2str_roundtrip (str : string) (scale : Z) :
  0 <= scale ->
  let n := bc_str2num str scale in
  bc_str2num (bc_num2str n) (n_scale n) = n.
Proof.
  intros Hs n. apply bc_str2num_num2str.
  subst n. apply bc_str2num_scale_nonneg, Hs.
Qed.

(** The theorem on the text "-03.1415" read at scale 2. *)
Lemma bc_str2num_num2str_roundtrip_witness :
  bc_str2num (bc_num2str (bc_str2num "-03.1415" 2)) 2 = mk_num 2 (-314).
Proof.
  apply (bc_str2num_num2str_roundtrip "-03.1415" 2). lia.
Defined.

(** C6, as the code has it.  For a non-zero number with a non-negative
    scale, printed in a base above 16 that fits a [long], [bc_out_num]
    writes the sign, then the base-[o_base] digits of the integer part, most
    significant first and without a leading zero digit, then the fraction.
    Every integer digit is written in decimal, padded with zeros to the
    width of [o_base - 1], and a single space precedes every one of them,
    the first included. *)
Theorem bc_out_num_wide_base_digits (LONG_MAX : Z) (num : number)
    (o_base leading_zero : Z) :
  0 <= n_scale num -> n_value num <> 0 ->
  16 < o_base -> o_base - 1 <= LONG_MAX ->
  let w := strlen (dec_text (o_base - 1)) in
  exists ds fr,
    bc_out_num LONG_MAX num o_base leading_zero
    = Some (sign_text (n_value num) +:+ spaced_digits true w ds +:+ fr)
    /\ Forall (fun d => 0 <= d < o_base /\ strlen (padded_digit w d) = w) ds
    /\ horner o_base ds = Z.abs (Qtrunc (bc_val num))
    /\ hd 1 ds <> 0
    /\ (if n_scale num >? 0 then Ascii.eqb (peek fr) "." = true
        else fr = "").
Proof.
  intros Hs Hv Hb HL w.
  destruct (bc_out_num_wide LONG_MAX num o_base leading_zero Hs Hv Hb HL)
    as (ds & fr & Hout & Hall & Hval & Hhd & Hfr).
  exists ds, fr. split; [exact Hout|].
  split.
  { eapply Forall_impl; [exact Hall|]. cbv beta. intros d Hd.
    split; [exact Hd|]. apply padded_digit_width.
    apply dec_text_length_mono. lia. }
  split.
  { rewrite Hval. f_equal. unfold bc_val. symmetry.
    apply Qtrunc_div, pow10_gt0, Hs. }
  split; assumption.
Qed.

(** The theorem on 255 in base 256 on a host with 64-bit [long]. *)
Lemma bc_out_num_wide_base_digits_witness :
  exists ds fr,
    bc_out_num (2 ^ 63 - 1) (mk_num 0 255) 256 0
    = Some (spaced_digits true 3 ds +:+ fr)
    /\ horner 256 ds = 255.
Proof.
  destruct (bc_out_num_wide_base_digits (2 ^ 63 - 1) (mk_num 0 255) 256 0)
    as (ds & fr & Hout & _ & Hval & _).
  - simpl. lia.
  - simpl. lia.
  - lia.
  - lia.
  - exists ds, fr. split; [exact Hout|exact Hval].
Defined.

(** C6, as the claim words it, puts no space before the first integer
    digit.  For 255 in base 256 the code writes [" 255"], space first. *)
Lemma bc_out_num_first_space_counterexample :
  bc_out_num (2 ^ 63 - 1) (mk_num 0 255) 256 0 = Some " 255"
  /\ ~ (exists ds fr,
          bc_out_num (2 ^ 63 - 1) (mk_num 0 255) 256 0
          = Some (sign_text 255 +:+ spaced_digits false 3 ds +:+ fr)
          /\ horner 256 ds = 255
          /\ hd 1 ds <> 0).
Proof.
  split; [vm_compute; reflexivity|].
  intros (ds & fr & Hout & Hval & Hhd).
  assert (E : bc_out_num (2 ^ 63 - 1) (mk_num 0 255) 256 0 = Some " 255")
    by (vm_compute; reflexivity).
  rewrite E in Hout. injection Hout as Hout.
  change (sign_text 255) with "" in Hout. rewrite append_nil_l in Hout.
  destruct ds as [|d ds].
  - vm_compute in Hval. discriminate.
  - cbn [spaced_digits] in Hout. rewrite append_nil_l in Hout.
    unfold padded_digit in Hout.
    destruct (dec_text_spec d) as (Hall & Hlen & _).
    set (zs := zeros (Z.to_nat (3 - strlen (dec_text d)))) in *.
    assert (Hd : isdigit (peek (zs +:+ dec_text d)) = true).
    { apply all_digits_peek.
      - subst zs. now rewrite all_digits_append, all_digits_zeros.
      - rewrite strlen_append. pose proof (strlen_nonneg zs). lia. }
    rewrite append_assoc in Hout.
    destruct (zs +:+ dec_text d) as [|c rest] eqn:Ec.
    + vm_compute in Hd. discriminate.
    + rewrite append_cons in Hout. injection Hout as Hc _. subst c.
      vm_compute in Hd. discriminate.
Qed.



(** C3.  A failing call is atomic.  [bc_divide], [bc_divmod] and
    [bc_modulo] with a zero divisor, and [bc_raisemod] with a zero modulus
    or a negative exponent, return -1; [bc_sqrt] of a negative number
    returns 0.  In each case the store after the call is the store before
    it, and every result variable holds what it held before. *)
Theorem failing_calls_write_nothing h L z op tp calls rz
    n1 v1 r1 n2 v2 r2 n3 v3 r3 (slot : Heap.bc_num)
    (slot2 : option Heap.bc_num) scale :
  models h L (Some z, op, tp, calls) -> L !! z = Some (_zero_, rz) ->
  L !! n1 = Some (v1, r1) -> L !! n2 = Some (v2, r2) ->
  L !! n3 = Some (v3, r3) ->
  (n_value v2 = 0 ->
     Heap.bc_divide (Some n1) (Some n2) slot scale h = Some ((-1, slot), h)
     /\ Heap.bc_divmod (Some n1) (Some n2) slot2 slot scale h
        = Some ((-1, slot2, slot), h)
     /\ Heap.bc_modulo (Some n1) (Some n2) slot scale h
        = Some ((-1, slot), h)
     /\ Heap.bc_raisemod (Some n1) (Some n3) (Some n2) slot scale h
        = Some ((-1, slot), h))
  /\ (n_value v2 < 0 ->
      Heap.bc_raisemod (Some n1) (Some n2) (Some n3) slot scale h
      = Some ((-1, slot), h))
  /\ (0 <= n_scale v1 -> n_value v1 < 0 ->
      Heap.bc_sqrt (Some n1) scale h = Some ((0, Some n1), h)).
Proof.
  intros Hm Hz H1 H2 H3. split; [|split].
  - intros Hzero.
    assert (Hiz : bc_is_zero v2 = true)
      by (unfold bc_is_zero; now rewrite Hzero).
    repeat split; apply wp_unchanged.
    + unfold Heap.bc_divide. wp_read. rewrite Hiz. now apply wp_ret.
    + unfold Heap.bc_divmod. wp_read. rewrite Hiz. now apply wp_ret.
    + unfold Heap.bc_modulo, Heap.bc_divmod. apply wp_bind.
      wp_read. rewrite Hiz. apply wp_ret. now apply wp_ret.
    + unfold Heap.bc_raisemod. wp_read. rewrite Hiz. now apply wp_ret.
  - intros Hneg.
    assert (Hin : bc_is_neg v2 = true).
    { unfold bc_is_neg. rewrite (proj2 (Z.sgn_neg_iff _) Hneg). reflexivity. }
    apply wp_unchanged. unfold Heap.bc_raisemod. wp_read.
    destruct (bc_is_zero v3); [now apply wp_ret|].
    wp_read. rewrite Hin. now apply wp_ret.
  - intros Hs Hneg. apply wp_unchanged.
    unfold Heap.bc_sqrt, Heap.bc_compare. apply wp_bind, wp_gets.
    destruct (models_constants _ _ _ _ _ _ Hm) as (-> & _).
    apply wp_bind. eapply wp_bc_do_compare; [eassumption..|].
    change (_bc_do_compare v1 _zero_ true) with (bc_compare v1 _zero_).
    rewrite bc_compare_zero by assumption.
    rewrite (proj2 (Z.sgn_neg_iff _) Hneg). now apply wp_ret.
Qed.

(** 17 divided by the constant zero into the variable that holds 5, and the
    square root of [- 2 ^ 63]. *)
Lemma failing_calls_write_nothing_witness :
  Heap.bc_divide (Some 3%nat) (Some 0%nat) (Some 4%nat) 2 sample_heap
  = Some ((-1, Some 4%nat), sample_heap)
  /\ Heap.bc_sqrt (Some 5%nat) 2 sample_heap
     = Some ((0, Some 5%nat), sample_heap).
Proof.
  split.
  - apply (failing_calls_write_nothing sample_heap (live sample_heap)
             0%nat (Some 1%nat) (Some 2%nat) [] 1
             3%nat (mk_num 0 17) 1 0%nat (mk_num 0 0) 1
             4%nat (mk_num 0 5) 1 (Some 4%nat) None 2);
      [exact sample_heap_models|reflexivity..].
  - apply (failing_calls_write_nothing sample_heap (live sample_heap)
             0%nat (Some 1%nat) (Some 2%nat) [] 1
             5%nat (mk_num 0 (- 2 ^ 63)) 1 0%nat (mk_num 0 0) 1
             4%nat (mk_num 0 5) 1 (Some 4%nat) None 2);
      [exact sample_heap_models|reflexivity..|simpl; lia|simpl; lia].
Defined.

(** C8, as the code has it.  [bc_raise] calls the host's error routine
    with "exponent too large in raise" exactly when [bc_num2long] answers 0
    for an exponent of magnitude above 1: that is, when the integer part of
    the exponent does not fit a [long] or is the most negative [long],
    [- LONG_MAX - 1], which fits but which [bc_num2long] also answers with 0.
    The host routine returns, and whenever [bc_num2long] has answered 0 -
    integer part 0, or the error - the result variable receives one more
    reference to the shared constant one.  The constant is assumed to stay
    live when the old occupant of the result variable is released. *)
Theorem bc_raise_exponent_error LONG_MAX INT_MAX h L zp o tp calls ro
    num1 v1 r1 num2 v2 r2 result scale :
  models h L (zp, Some o, tp, calls) -> L !! o = Some (_one_, ro) ->
  L !! num1 = Some (v1, r1) -> L !! num2 = Some (v2, r2) ->
  releasable L result -> is_Some (release result L !! o) ->
  0 <= n_scale v2 ->
  let ip := Qtrunc (bc_val v2) in
  exists res h' err,
    Heap.bc_raise LONG_MAX INT_MAX (Some num1) (Some num2) result scale h
    = Some (res, h')
    /\ Heap.host_calls h'
       = (calls
          ++ (if negb (n_scale v2 =? 0)
              then [Heap.rt_warn "non-zero scale in exponent"] else []))
         ++ err
    /\ (err = [] \/ err = [Heap.rt_error "exponent too large in raise"])
    /\ (err = [Heap.rt_error "exponent too large in raise"]
        <-> (~ (- LONG_MAX - 1 <= ip <= LONG_MAX) \/ ip = - LONG_MAX - 1)
            /\ (bc_val v2 < - (1) \/ 1 < bc_val v2)%Q)
    /\ (ip = 0 \/ ~ (- LONG_MAX - 1 <= ip <= LONG_MAX)
        \/ ip = - LONG_MAX - 1 ->
        res = Some o
        /\ forall r, release result L !! o = Some (_one_, r) ->
                     live h' !! o = Some (_one_, r + 1)).
Proof.
  intros Hm Ho H1 H2 Hres Hone Hs ip.
  pose proof (pow10_gt0 _ Hs) as P.
  assert (Hip : ip = Z.quot (n_value v2) (10 ^ n_scale v2)).
  { subst ip. unfold bc_val. apply Qtrunc_div, P. }
  set (long := bc_num2long LONG_MAX v2).
  set (err := if (long =? 0) && (_bc_do_compare v2 _one_ false >? 0)
              then [Heap.rt_error "exponent too large in raise"] else []).
  assert (Hlog : forall (h' : Heap.heap) S,
    models h' S
      (zp, Some o, tp,
       (calls
        ++ (if negb (n_scale v2 =? 0)
            then [Heap.rt_warn "non-zero scale in exponent"] else []))
       ++ err) ->
    Heap.host_calls h'
    = (calls
       ++ (if negb (n_scale v2 =? 0)
           then [Heap.rt_warn "non-zero scale in exponent"] else []))
      ++ err).
  { intros h' S Hm'.
    now destruct (models_constants _ _ _ _ _ _ Hm') as (_ & _ & _ & ->). }
  cut (wp (Heap.bc_raise LONG_MAX INT_MAX (Some num1) (Some num2) result
             scale)
         (fun res h' =>
            Heap.host_calls h'
            = (calls
               ++ (if negb (n_scale v2 =? 0)
                   then [Heap.rt_warn "non-zero scale in exponent"]
                   else []))
              ++ err
            /\ (long = 0 ->
                res = Some o
                /\ forall r, release result L !! o = Some (_one_, r) ->
                             live h' !! o = Some (_one_, r + 1))) h).
  { intros (res & h' & Hrun & Hcalls & Hshare).
    exists res, h', err. split; [exact Hrun|]. split; [exact Hcalls|].
    pose proof (bc_num2long_zero_iff LONG_MAX v2 Hs) as Hz0.
    cbn zeta in Hz0. rewrite <- Hip in Hz0. fold long in Hz0.
    pose proof (cmpabs_one v2 Hs) as Hmag.
    pose proof (bc_val_beyond_one v2 Hs) as Hq.
    assert (Hnz : 10 ^ n_scale v2 < Z.abs (n_value v2) -> ip <> 0).
    { intros Hlarge. rewrite Hip. now apply quot_nonzero_of_large. }
    split; [|split].
    - subst err. destruct (_ && _); auto.
    - subst err.
      destruct (Z.eqb_spec long 0) as [Hl|Hl];
        destruct (Z.gtb_spec (_bc_do_compare v2 _one_ false) 0) as [Hc|Hc];
        cbn [andb]; split; try discriminate; try (intros _; reflexivity).
      + intros _. split; [|apply Hq, Hmag; lia].
        apply Hz0 in Hl. destruct Hl as [Hl|Hl]; [|lia].
        exfalso. apply Hnz; [apply Hmag; lia|exact Hl].
      + intros [_ Hbig]. exfalso. apply Hq, Hmag in Hbig. lia.
      + intros [Hout _]. exfalso. apply Hl, Hz0. lia.
      + intros [Hout _]. exfalso. apply Hl, Hz0. lia.
    - intros Hcase. apply Hshare, Hz0. lia. }
  eapply wp_bc_raise; [eassumption..| | | |].
  - intros ro' h' Hl0 Hlook Hm'. split; [eapply Hlog, Hm'|].
    intros _. split; [reflexivity|]. intros r Hr.
    destruct Hm' as (_ & -> & _). rewrite lookup_insert_eq. congruence.
  - intros res p h' Hpos _ _ Hm'. split; [eapply Hlog, Hm'|].
    fold long in Hpos. lia.
  - intros tv t h' Hneg _ _ Hm'. split; [eapply Hlog, Hm'|].
    fold long in Hneg. lia.
  - intros tv t res p h' Hneg _ _ _ _ Hm'. split; [eapply Hlog, Hm'|].
    fold long in Hneg. lia.
Qed.

(** The theorem on [17 ^ (- 2 ^ 63)] on a host with 64-bit [long]: the
    exponent is the most negative [long]. *)
Lemma bc_raise_exponent_error_witness :
  let ip := Qtrunc (bc_val (mk_num 0 (- 2 ^ 63))) in
  exists res h' err,
    Heap.bc_raise (2 ^ 63 - 1) (2 ^ 31 - 1) (Some 3%nat) (Some 5%nat) None 0
      sample_heap
    = Some (res, h')
    /\ Heap.host_calls h' = ([] ++ []) ++ err
    /\ (err = [] \/ err = [Heap.rt_error "exponent too large in raise"])
    /\ (err = [Heap.rt_error "exponent too large in raise"]
        <-> (~ (- (2 ^ 63 - 1) - 1 <= ip <= 2 ^ 63 - 1)
             \/ ip = - (2 ^ 63 - 1) - 1)
            /\ (bc_val (mk_num 0 (- 2 ^ 63)) < - (1)
                \/ 1 < bc_val (mk_num 0 (- 2 ^ 63)))%Q)
    /\ (ip = 0 \/ ~ (- (2 ^ 63 - 1) - 1 <= ip <= 2 ^ 63 - 1)
        \/ ip = - (2 ^ 63 - 1) - 1 ->
        res = Some 1%nat
        /\ forall r, release None (live sample_heap) !! 1%nat
                     = Some (_one_, r) ->
                     live h' !! 1%nat = Some (_one_, r + 1)).
Proof.
  apply (bc_raise_exponent_error (2 ^ 63 - 1) (2 ^ 31 - 1)
           sample_heap (live sample_heap)
           (Some 0%nat) 1%nat (Some 2%nat) [] 1
           3%nat (mk_num 0 17) 1 5%nat (mk_num 0 (- 2 ^ 63)) 1 None 0).
  - exact sample_heap_models.
  - reflexivity.
  - reflexivity.
  - reflexivity.
  - exact I.
  - eexists. reflexivity.
  - simpl. lia.
Defined.

(** C8, as the claim words it, has the error raised only when the integer
    part of the exponent does not fit a [long].  On a host with 64-bit
    [long] the exponent [- 2 ^ 63] fits, and the error is raised. *)
Lemma bc_raise_most_negative_long_counterexample :
  ~ (forall LONG_MAX INT_MAX h L zp o tp calls ro num1 v1 r1 num2 v2 r2
            result scale res h' new,
       models h L (zp, Some o, tp, calls) -> L !! o = Some (_one_, ro) ->
       L !! num1 = Some (v1, r1) -> L !! num2 = Some (v2, r2) ->
       releasable L result -> is_Some (release result L !! o) ->
       0 <= n_scale v2 ->
       Heap.bc_raise LONG_MAX INT_MAX (Some num1) (Some num2) result scale h
       = Some (res, h') ->
       Heap.host_calls h' = calls ++ new ->
       (In (Heap.rt_error "exponent too large in raise") new
        <-> ~ (- LONG_MAX - 1 <= Qtrunc (bc_val v2) <= LONG_MAX)
            /\ (bc_val v2 < - (1) \/ 1 < bc_val v2)%Q)).
Proof.
  intros H.
  refine (_ (H (2 ^ 63 - 1) (2 ^ 31 - 1) sample_heap (live sample_heap)
               (Some 0%nat) 1%nat (Some 2%nat) [] 1
               3%nat (mk_num 0 17) 1 5%nat (mk_num 0 (- 2 ^ 63)) 1 None 0
               _ _ [Heap.rt_error "exponent too large in raise"]
               sample_heap_models eq_refl eq_refl eq_refl I
               (ex_intro _ _ eq_refl) _ eq_refl eq_refl)).
  - intros [Hfwd _]. destruct Hfwd as [Hout _]; [now left|].
    apply Hout. vm_compute. split; discriminate.
  - simpl. lia.
Qed.




(** ** Further properties of the value layer *)

(** X1.  [bc_add] stores its result at scale
    [max n1.scale n2.scale scale_min], and the result is the exact sum of
    the operands: the extra digits asked for by [scale_min] are zeros. *)
Theorem bc_add_exact_sum (n1 n2 : number) (scale_min : Z) :
  0 <= n_scale n1 -> 0 <= n_scale n2 ->
  n_scale (bc_add n1 n2 scale_min)
  = Z.max (Z.max (n_scale n1) (n_scale n2)) scale_min
  /\ (bc_val (bc_add n1 n2 scale_min) == bc_val n1 + bc_val n2)%Q.
Proof.
  intros H1 H2. split; [apply bc_add_scale|now apply bc_add_val].
Qed.

(** 1.5 + 0.25 with at least four digits. *)
Lemma bc_add_exact_sum_witness :
  n_scale (bc_add (mk_num 1 15) (mk_num 2 25) 4) = 4
  /\ (bc_val (bc_add (mk_num 1 15) (mk_num 2 25) 4)
      == bc_val (mk_num 1 15) + bc_val (mk_num 2 25))%Q.
Proof.
  apply (bc_add_exact_sum (mk_num 1 15) (mk_num 2 25) 4); simpl; lia.
Defined.

(** X2.  [bc_sub] stores its result at scale
    [max n1.scale n2.scale scale_min], and the result is the exact
    difference of the operands. *)
Theorem bc_sub_exact_difference (n1 n2 : number) (scale_min : Z) :
  0 <= n_scale n1 -> 0 <= n_scale n2 ->
  n_scale (bc_sub n1 n2 scale_min)
  = Z.max (Z.max (n_scale n1) (n_scale n2)) scale_min
  /\ (bc_val (bc_sub n1 n2 scale_min) == bc_val n1 - bc_val n2)%Q.
Proof.
  intros H1 H2. split; [apply bc_sub_scale|now apply bc_sub_val].
Qed.

(** 1.5 - 0.25 with no minimum scale. *)
Lemma bc_sub_exact_difference_witness :
  n_scale (bc_sub (mk_num 1 15) (mk_num 2 25) 0) = 2
  /\ (bc_val (bc_sub (mk_num 1 15) (mk_num 2 25) 0)
      == bc_val (mk_num 1 15) - bc_val (mk_num 2 25))%Q.
Proof.
  apply (bc_sub_exact_difference (mk_num 1 15) (mk_num 2 25) 0); simpl; lia.
Defined.

(** X3.  [bc_compare] orders numbers as the rationals they denote, whatever
    their scales: -1 for less, 0 for equal, 1 for greater, and nothing
    else. *)
Theorem bc_compare_rational_order (n1 n2 : number) :
  0 <= n_scale n1 -> 0 <= n_scale n2 ->
  (bc_compare n1 n2 = -1 <-> (bc_val n1 < bc_val n2)%Q)
  /\ (bc_compare n1 n2 = 0 <-> (bc_val n1 == bc_val n2)%Q)
  /\ (bc_compare n1 n2 = 1 <-> (bc_val n2 < bc_val n1)%Q)
  /\ (bc_compare n1 n2 = -1 \/ bc_compare n1 n2 = 0 \/ bc_compare n1 n2 = 1).
Proof.
  intros H1 H2. rewrite bc_compare_sgn by assumption.
  pose proof (pow10_gt0 _ H1) as P1.
  pose proof (pow10_gt0 _ H2) as P2.
  unfold bc_val.
  rewrite !Qdiv_inject_lt, Qdiv_inject_eq_iff by assumption.
  repeat split; lia.
Qed.

(** 0.50 equals 0.5, and -0.3 is below 0.25. *)
Lemma bc_compare_rational_order_witness :
  bc_compare (mk_num 2 50) (mk_num 1 5) = 0
  /\ bc_compare (mk_num 1 (-3)) (mk_num 2 25) = -1.
Proof.
  split.
  - apply (bc_compare_rational_order (mk_num 2 50) (mk_num 1 5));
      [simpl; lia|simpl; lia|vm_compute; reflexivity].
  - apply (bc_compare_rational_order (mk_num 1 (-3)) (mk_num 2 25));
      [simpl; lia|simpl; lia|vm_compute; reflexivity].
Defined.

(** X4.  The comparison without sign of [_bc_do_compare] compares
    magnitudes: it answers as [bc_compare] does on the absolute values. *)
Theorem bc_do_compare_magnitudes (n1 n2 : number) :
  0 <= n_scale n1 -> 0 <= n_scale n2 ->
  _bc_do_compare n1 n2 false
  = bc_compare (mk_num (n_scale n1) (Z.abs (n_value n1)))
               (mk_num (n_scale n2) (Z.abs (n_value n2))).
Proof.
  intros H1 H2. rewrite bc_cmpabs_sgn, bc_compare_sgn by assumption.
  reflexivity.
Qed.

(** -7.5 against 2. *)
Lemma bc_do_compare_magnitudes_witness :
  _bc_do_compare (mk_num 1 (-75)) (mk_num 0 2) false
  = bc_compare (mk_num 1 75) (mk_num 0 2).
Proof.
  apply (bc_do_compare_magnitudes (mk_num 1 (-75)) (mk_num 0 2));
    simpl; lia.
Defined.



(** X6.  On integers, [bc_divmod] at scale 0 is the truncating division of
    C: the quotient is rounded toward zero, the remainder is smaller in
    magnitude than the divisor and has the sign of the dividend. *)
Theorem bc_divmod_integers (a b : Z) :
  b <> 0 ->
  bc_divmod (mk_num 0 a) (mk_num 0 b) 0
  = Some (mk_num 0 (Z.quot a b), mk_num 0 (Z.rem a b))
  /\ bc_modulo (mk_num 0 a) (mk_num 0 b) 0 = Some (mk_num 0 (Z.rem a b))
  /\ Z.abs (Z.rem a b) < Z.abs b
  /\ 0 <= Z.sgn (Z.rem a b) * Z.sgn a.
Proof.
  intros Hb. rewrite (bc_divmod_int a b Hb). split; [reflexivity|].
  split; [unfold bc_modulo; now rewrite (bc_divmod_int a b Hb)|].
  split; [apply Z.rem_bound_abs, Hb|].
  pose proof (Z.rem_sign_mul a b Hb) as Hsg.
  rewrite <- Z.sgn_mul. apply Z.sgn_nonneg. exact Hsg.
Qed.

(** -17 by 5: quotient -3, remainder -2. *)
Lemma bc_divmod_integers_witness :
  bc_divmod (mk_num 0 (-17)) (mk_num 0 5) 0
  = Some (mk_num 0 (-3), mk_num 0 (-2)).
Proof.
  apply (bc_divmod_integers (-17) 5). discriminate.
Defined.

(** X7.  [bc_is_zero] and [bc_is_neg] read the sign of the rational the
    number denotes. *)
Theorem bc_is_zero_is_neg_rational (num : number) :
  0 <= n_scale num ->
  (bc_is_zero num = true <-> (bc_val num == 0)%Q)
  /\ (bc_is_neg num = true <-> (bc_val num < 0)%Q).
Proof.
  intros Hs. pose proof (pow10_gt0 _ Hs) as P. split.
  - rewrite bc_val_zero by assumption. unfold bc_is_zero.
    rewrite Z.eqb_eq. apply Z.sgn_null_iff.
  - rewrite bc_is_neg_ltb, Z.ltb_lt. unfold bc_val.
    change 0%Q with (inject_Z 0 / inject_Z 1)%Q.
    rewrite Qdiv_inject_lt by lia. nia.
Qed.

(** -0.05 is negative and not zero. *)
Lemma bc_is_zero_is_neg_rational_witness :
  (bc_is_zero (mk_num 2 (-5)) = true <-> (bc_val (mk_num 2 (-5)) == 0)%Q)
  /\ (bc_is_neg (mk_num 2 (-5)) = true <-> (bc_val (mk_num 2 (-5)) < 0)%Q).
Proof.
  apply (bc_is_zero_is_neg_rational (mk_num 2 (-5))). simpl. lia.
Defined.

(** X8.  On non-negative integers and a positive modulus, [bc_raisemod] at
    scale 0 is modular exponentiation: for a positive exponent the result
    is [b ^ e mod m].  For exponent 0 the result is 1, also when the
    modulus is 1. *)
Theorem bc_raisemod_integers (b e m : Z) :
  0 <= b -> 0 <= e -> 0 < m ->
  exists r,
    bc_raisemod (mk_num 0 b) (mk_num 0 e) (mk_num 0 m) 0
    = Some (mk_num 0 r)
    /\ (0 < e -> r = (b ^ e) mod m)
    /\ (e = 0 -> r = 1).
Proof.
  intros Hb He Hm. unfold bc_raisemod.
  rewrite bc_is_zero_nonzero by (cbn; lia).
  rewrite bc_is_neg_ltb. cbn [n_value n_scale].
  destruct (Z.ltb_spec e 0); [lia|].
  change (negb (0 =? 0)) with false. cbv iota.
  change (MAX 0 0) with 0.
  destruct (raisemod_loop_int m (loop_fuel (mk_num 0 e)) Hm b e 1 _zero_)
    as (r & Hr & H0 & Hpos); [lia|lia| |].
  { split; [lia|]. now apply loop_fuel_covers. }
  exists r. split; [exact Hr|]. split; [|exact H0].
  intros Hgt. rewrite (Hpos Hgt). now rewrite Z.mul_1_l.
Qed.

(** 4 ^ 13 mod 497 = 445. *)
Lemma bc_raisemod_integers_witness :
  exists r,
    bc_raisemod (mk_num 0 4) (mk_num 0 13) (mk_num 0 497) 0
    = Some (mk_num 0 r)
    /\ (0 < 13 -> r = (4 ^ 13) mod 497)
    /\ (13 = 0 -> r = 1).
Proof. apply (bc_raisemod_integers 4 13 497); lia. Defined.

(** X9.  [bc_raisemod] refuses exactly a zero modulus and a negative
    exponent.  In every other case the loop that halves the exponent ends
    and there is a result: it runs at most once per binary digit of the
    integer part of the exponent. *)
Theorem bc_raisemod_refuses_exactly (base expo modulus : number) (scale : Z) :
  bc_raisemod base expo modulus scale = None
  <-> bc_is_zero modulus = true \/ bc_is_neg expo = true.
Proof.
  split.
  - intros Hnone.
    destruct (bc_is_zero modulus) eqn:Hz; [now left|].
    destruct (bc_is_neg expo) eqn:Hn; [now right|].
    destruct (bc_raisemod_total base expo modulus scale Hz Hn) as [r Hr].
    congruence.
  - unfold bc_raisemod. intros [->| ->]; [reflexivity|].
    now destruct (bc_is_zero modulus).
Qed.




(** X13.  A text in which digits are followed by a character that is
    neither a digit nor the point is not a number: [bc_str2num] answers
    zero, whatever follows. *)
Theorem bc_str2num_rejects_trailing (ds : string) (c : ascii)
    (rest : string) (scale : Z) :
  all_digits ds = true -> 0 < strlen ds ->
  isdigit c = false -> c <> "."%char -> c <> NUL ->
  bc_str2num (ds +:+ String c rest) scale = _zero_.
Proof.
  intros Hd Hl Hc Hpoint Hnul. unfold bc_str2num.
  pose proof (all_digits_peek ds Hd Hl) as Hfirst.
  destruct (isdigit_not_sign _ Hfirst) as (Hplus & Hminus & _ & _).
  rewrite (peek_nonempty_append ds) by exact Hl.
  rewrite Hplus, Hminus. cbn [orb].
  destruct (skip_zeros_digits ds c rest Hd Hc) as (ds' & -> & Hd').
  rewrite (span_digits_append ds' (String c rest)) by assumption.
  cbn [peek].
  destruct (Ascii.eqb_spec c ".") as [|_]; [contradiction|].
  cbn [span_digits]. rewrite Hc. cbn [peek].
  destruct (Ascii.eqb_spec c NUL) as [|_]; [contradiction|].
  reflexivity.
Qed.

(** The text 12e5. *)
Lemma bc_str2num_rejects_trailing_witness :
  bc_str2num "12e5" 3 = _zero_.
Proof.
  apply (bc_str2num_rejects_trailing "12" "e" "5" 3);
    [reflexivity|reflexivity|reflexivity|discriminate|discriminate].
Defined.

(** X14.  [bc_num_length] is the number of decimal digits of the stored
    integer, the sign not counted: at least one, and for a non-zero integer
    [v] the [len] with [10 ^ (len - 1) <= |v| < 10 ^ len]. *)
Theorem bc_num_length_decimal_digits (num : number) :
  let len := bc_num_length num in
  0 < len
  /\ Z.abs (n_value num) < 10 ^ len
  /\ (n_value num <> 0 -> 10 ^ (len - 1) <= Z.abs (n_value num)).
Proof.
  intros len. subst len. rewrite bc_num_length_digits.
  destruct (dec_text_spec (n_value num)) as (_ & Hl & _ & _ & Hup & Hlo).
  auto.
Qed.

(** X15.  [bc_out_long] writes the space, if asked for, and then at least
    [size] characters: exactly [size] when the number has at most [size]
    characters, and all the characters of the number otherwise. *)
Theorem bc_out_long_width (val size space : Z) :
  strlen (bc_out_long val size space)
  = (if space =? 0 then 0 else 1) + Z.max size (strlen (sprintf_d val)).
Proof.
  unfold bc_out_long. rewrite !strlen_append, strlen_zeros.
  pose proof (strlen_nonneg (sprintf_d val)).
  destruct (Z.eqb_spec space 0); cbn [negb];
    [change (strlen "") with 0|change (strlen " ") with 1]; lia.
Qed.

(** X16.  [bc_out_num] writes zero as the single character 0, in every
    base and whatever the scale. *)
Theorem bc_out_num_zero (LONG_MAX : Z) (num : number) (o_base lz : Z) :
  n_value num = 0 -> bc_out_num LONG_MAX num o_base lz = Some "0"%string.
Proof.
  intros Hz. unfold bc_out_num, bc_is_neg, bc_is_zero. rewrite Hz.
  reflexivity.
Qed.

(** 0.000 in base 2. *)
Lemma bc_out_num_zero_witness :
  bc_out_num (2 ^ 63 - 1) (mk_num 3 0) 2 0 = Some "0"%string.
Proof. apply (bc_out_num_zero (2 ^ 63 - 1) (mk_num 3 0) 2 0). reflexivity. Defined.

(** X17.  In base 10 [bc_out_num] writes a non-zero number as
    [bc_num2str] formats it. *)
Theorem bc_out_num_base_ten (LONG_MAX : Z) (num : number) (lz : Z) :
  0 <= n_scale num -> n_value num <> 0 ->
  bc_out_num LONG_MAX num 10 lz = Some (bc_num2str num).
Proof.
  intros Hs Hv. unfold bc_out_num.
  rewrite bc_is_zero_nonzero by exact Hv. rewrite bc_is_neg_ltb.
  change (10 =? 10) with true. cbv iota. f_equal.
  destruct (Z.ltb_spec (n_value num) 0) as [Hneg|Hpos].
  - destruct (bc_num2str_negative num Hneg) as [rest ->].
    rewrite append_cons. cbn [peek advance].
    change (Ascii.eqb "-" "-") with true. reflexivity.
  - rewrite bc_num2str_starts by assumption. reflexivity.
Qed.

(** -0.05 in base 10. *)
Lemma bc_out_num_base_ten_witness :
  bc_out_num (2 ^ 63 - 1) (mk_num 2 (-5)) 10 0
  = Some (bc_num2str (mk_num 2 (-5))).
Proof.
  apply (bc_out_num_base_ten (2 ^ 63 - 1) (mk_num 2 (-5)) 0);
    [simpl; lia|simpl; lia].
Defined.

(** X18.  In a base from 2 to 16 other than 10, [bc_out_num] writes the
    integer part of a non-zero number as one character of
    [0123456789ABCDEF] per digit, most significant first and without a
    leading zero digit, after the sign; a number with a fraction continues
    with the point. *)
Theorem bc_out_num_narrow_base_digits (LONG_MAX : Z) (num : number)
    (o_base leading_zero : Z) :
  0 <= n_scale num -> n_value num <> 0 ->
  2 <= o_base <= 16 -> o_base <> 10 -> o_base - 1 <= LONG_MAX ->
  exists ds fr,
    bc_out_num LONG_MAX num o_base leading_zero
    = Some (sign_text (n_value num) +:+ ref_digits ds +:+ fr)
    /\ Forall (fun d => 0 <= d < o_base) ds
    /\ horner o_base ds = Z.abs (Qtrunc (bc_val num))
    /\ hd 1 ds <> 0
    /\ (if n_scale num >? 0 then Ascii.eqb (peek fr) "." = true
        else fr = ""%string).
Proof.
  intros Hs Hv Hb H10 HL.
  destruct (bc_out_num_narrow LONG_MAX num o_base leading_zero
              Hs Hv Hb H10 HL) as (ds & fr & Hout & Hall & Hval & Hhd & Hfr).
  exists ds, fr. unfold bc_val.
  rewrite Qtrunc_div by (apply pow10_gt0, Hs). auto.
Qed.

(** -255 in base 16 is -FF. *)
Lemma bc_out_num_narrow_base_digits_witness :
  exists ds fr,
    bc_out_num (2 ^ 63 - 1) (mk_num 0 (-255)) 16 0
    = Some (sign_text (-255) +:+ ref_digits ds +:+ fr)
    /\ Forall (fun d => 0 <= d < 16) ds
    /\ horner 16 ds = Z.abs (Qtrunc (bc_val (mk_num 0 (-255))))
    /\ hd 1 ds <> 0
    /\ (if 0 >? 0 then Ascii.eqb (peek fr) "." = true else fr = ""%string).
Proof.
  apply (bc_out_num_narrow_base_digits (2 ^ 63 - 1) (mk_num 0 (-255)) 16 0);
    [simpl; lia|simpl; lia|lia|lia|lia].
Defined.

(** X19.  The parameter [leading_zero] of [bc_out_num] has no effect: zero
    has been written before the place where it is tested. *)
Theorem bc_out_num_ignores_leading_zero (LONG_MAX : Z) (num : number)
    (o_base lz lz' : Z) :
  bc_out_num LONG_MAX num o_base lz = bc_out_num LONG_MAX num o_base lz'.
Proof.
  unfold bc_out_num. destruct (bc_is_zero num); [reflexivity|].
  now rewrite !andb_false_r.
Qed.

(** ** Further properties of the storage layer *)

(** X20.  [bc_init_numbers] gives the three global variables three
    distinct new cells that hold 0, 1 and 2 at scale 0 with one reference
    each.  The cells that were live stay as they are, and the host is not
    called. *)
Theorem bc_init_numbers_constants h L zp op tp calls :
  models h L (zp, op, tp, calls) ->
  exists z o t h',
    Heap.bc_init_numbers h = Some (tt, h')
    /\ Heap._zero_ h' = Some z /\ Heap._one_ h' = Some o
    /\ Heap._two_ h' = Some t
    /\ L !! z = None /\ L !! o = None /\ L !! t = None
    /\ z <> o /\ z <> t /\ o <> t
    /\ live h'
       = <[t:=(_two_, 1)]> (<[o:=(_one_, 1)]> (<[z:=(_zero_, 1)]> L))
    /\ wf h' /\ Heap.host_calls h' = calls.
Proof.
  intros Hm.
  cut (wp Heap.bc_init_numbers
         (fun _ h' => exists z o t,
            Heap._zero_ h' = Some z /\ Heap._one_ h' = Some o
            /\ Heap._two_ h' = Some t
            /\ L !! z = None /\ L !! o = None /\ L !! t = None
            /\ z <> o /\ z <> t /\ o <> t
            /\ live h'
               = <[t:=(_two_, 1)]>
                   (<[o:=(_one_, 1)]> (<[z:=(_zero_, 1)]> L))
            /\ wf h' /\ Heap.host_calls h' = calls) h).
  { intros ([] & h' & Hrun & z & o & t & H). exists z, o, t, h'. auto. }
  eapply wp_bc_init_numbers; [exact Hm|].
  intros z o t h' Hz Ho Ht Hzo Hzt Hot Hm'.
  destruct (models_constants _ _ _ _ _ _ Hm') as (Ez & Eo & Et & Ec).
  destruct Hm' as (Hwf & Hlive & _).
  exists z, o, t. auto 15.
Qed.

(** The start of a program: no cell yet. *)
Lemma bc_init_numbers_constants_witness :
  exists z o t h',
    Heap.bc_init_numbers empty_heap = Some (tt, h')
    /\ Heap._zero_ h' = Some z /\ Heap._one_ h' = Some o
    /\ Heap._two_ h' = Some t
    /\ (∅ : gmap nat (number * Z)) !! z = None
    /\ (∅ : gmap nat (number * Z)) !! o = None
    /\ (∅ : gmap nat (number * Z)) !! t = None
    /\ z <> o /\ z <> t /\ o <> t
    /\ live h'
       = <[t:=(_two_, 1)]> (<[o:=(_one_, 1)]> (<[z:=(_zero_, 1)]> ∅))
    /\ wf h' /\ Heap.host_calls h' = [].
Proof.
  apply (bc_init_numbers_constants empty_heap ∅ None None None []).
  exact empty_heap_models.
Defined.

(** X21.  [bc_copy_num] followed by [bc_free_num] of the copy leaves the
    store exactly as it was. *)
Theorem bc_copy_free_restores h a v r :
  live h !! a = Some (v, r) ->
  Heap.bind (Heap.bc_copy_num (Some a)) Heap.bc_free_num h = Some (None, h).
Proof.
  intros Hl. destruct (live_cell _ _ _ _ Hl) as (c & Hc & _ & _ & Hr & Hpos).
  rewrite (bind_run _ _ _ _ _ (copy_num_run _ _ _ Hc)).
  rewrite (free_num_shared_run _ _ _ (lookup_updated _ _ _ _ Hc))
    by (cbn [Heap.n_refs]; lia).
  rewrite with_cells_twice. cbn [Heap.with_cells Heap.cells Heap.n_scale
    Heap.n_refs Heap.n_next Heap.n_value].
  rewrite list_insert_insert_eq.
  replace (Heap.n_refs c + 1 - 1) with (Heap.n_refs c) by lia.
  replace (Heap.mk_struct (Heap.n_scale c) (Heap.n_refs c) (Heap.n_next c)
             (Heap.n_value c)) with c by now destruct c.
  rewrite (list_insert_id _ _ _ Hc).
  change (Heap.mk_heap (Heap.cells h) (Heap._bc_Free_list h) (Heap._zero_ h)
            (Heap._one_ h) (Heap._two_ h) (Heap.host_calls h))
    with (Heap.with_cells h (Heap.cells h)).
  now rewrite with_cells_same.
Qed.

(** A second handle on the 17 of the example store. *)
Lemma bc_copy_free_restores_witness :
  Heap.bind (Heap.bc_copy_num (Some 3%nat)) Heap.bc_free_num sample_heap
  = Some (None, sample_heap).
Proof.
  apply (bc_copy_free_restores sample_heap 3%nat (mk_num 0 17) 1).
  reflexivity.
Defined.

(** X22.  Storage is recycled: when the last reference to a cell is
    released, the next [bc_new_num] returns that very cell, with the scale
    asked for, the integer 0 and one reference.  No block is taken from the
    host allocator and the rest of the free list is as before. *)
Theorem bc_free_new_recycles h a v len scale :
  live h !! a = Some (v, 1) ->
  exists h',
    Heap.bind (Heap.bc_free_num (Some a))
      (fun _ => Heap.bc_new_num len scale) h = Some (Some a, h')
    /\ live h' = <[a:=(mk_num scale 0, 1)]> (live h)
    /\ Heap._bc_Free_list h' = Heap._bc_Free_list h
    /\ length (Heap.cells h') = length (Heap.cells h).
Proof.
  intros Hl. destruct (live_cell _ _ _ _ Hl) as (c & Hc & _ & _ & Hr & _).
  rewrite (bind_run _ _ _ _ _ (free_num_last_run _ _ _ Hc Hr)).
  set (c1 := Heap.mk_struct (Heap.n_scale c) 0 (Heap._bc_Free_list h) None).
  set (h1 := Heap.mk_heap (<[a:=c1]> (Heap.cells h)) (Some a)
               (Heap._zero_ h) (Heap._one_ h) (Heap._two_ h)
               (Heap.host_calls h)).
  assert (Hc1 : Heap.cells h1 !! a = Some c1).
  { apply list_lookup_insert_eq. eapply lookup_lt_Some, Hc. }
  rewrite (new_num_recycle_run h1 a c1 len scale eq_refl Hc1).
  eexists. split; [reflexivity|].
  subst h1 c1. cbn [Heap.cells Heap._bc_Free_list Heap._zero_ Heap._one_
    Heap._two_ Heap.host_calls Heap.n_next].
  rewrite list_insert_insert_eq. split; [|split].
  - rewrite (live_same_cells _
               (Heap.with_cells h
                  (<[a:=Heap.mk_struct scale 1 (Heap._bc_Free_list h)
                          (Some 0)]> (Heap.cells h)))) by reflexivity.
    apply (live_insert_live _ _ c); [exact Hc|reflexivity].
  - reflexivity.
  - now rewrite length_insert.
Qed.

(** The 5 of the example store is released and its cell taken again. *)
Lemma bc_free_new_recycles_witness :
  exists h',
    Heap.bind (Heap.bc_free_num (Some 4%nat))
      (fun _ => Heap.bc_new_num 1 2) sample_heap = Some (Some 4%nat, h')
    /\ live h' = <[4%nat:=(mk_num 2 0, 1)]> (live sample_heap)
    /\ Heap._bc_Free_list h' = Heap._bc_Free_list sample_heap
    /\ length (Heap.cells h') = length (Heap.cells sample_heap).
Proof.
  apply (bc_free_new_recycles sample_heap 4%nat (mk_num 0 5) 1 2).
  reflexivity.
Defined.

(** X23.  [bc_neg] leaves in the variable a cell that holds the negated
    integer at the same scale, with one reference.  It negates in place
    exactly when the variable held the only reference; otherwise the cell
    is new, and the other holders of the old cell still see the old
    number. *)
Theorem bc_neg_negates h L E a v r :
  models h L E -> L !! a = Some (v, r) ->
  exists p h',
    Heap.bc_neg (Some a) h = Some (Some p, h')
    /\ live h' !! p = Some (mk_num (n_scale v) (- n_value v), 1)
    /\ (r = 1 -> p = a)
    /\ (r <> 1 -> L !! p = None /\ live h' !! a = Some (v, r - 1)).
Proof.
  intros Hm Hl.
  cut (wp (Heap.bc_neg (Some a))
         (fun ret h' => exists p,
            ret = Some p
            /\ live h' !! p = Some (mk_num (n_scale v) (- n_value v), 1)
            /\ (r = 1 -> p = a)
            /\ (r <> 1 -> L !! p = None /\ live h' !! a = Some (v, r - 1)))
         h).
  { intros (ret & h' & Hrun & p & -> & H). exists p, h'. auto. }
  eapply wp_bc_neg; [eassumption..| |].
  - intros -> h' (_ & Hlive & _). exists a. split; [reflexivity|].
    rewrite Hlive, lookup_insert_eq. split; [reflexivity|].
    split; [reflexivity|]. intros Hne. now contradiction Hne.
  - intros Hne p h' Hp (_ & Hlive & _). exists p. split; [reflexivity|].
    assert (Hpa : p <> a) by (eapply fresh_ne; eassumption).
    rewrite Hlive. split; [|split; [intros ->; now contradiction Hne|]].
    + rewrite lookup_release_ne by congruence. apply lookup_insert_eq.
    + intros _. split; [exact Hp|].
      rewrite release_insert_ne by congruence.
      rewrite lookup_insert_ne by exact Hpa.
      rewrite (release_live _ _ _ _ Hl).
      destruct (Z.eqb_spec r 1); [contradiction|].
      apply lookup_insert_eq.
Qed.

(** The 17 of the example store, held once. *)
Lemma bc_neg_negates_witness :
  exists p h',
    Heap.bc_neg (Some 3%nat) sample_heap = Some (Some p, h')
    /\ live h' !! p = Some (mk_num 0 (- 17), 1)
    /\ (1 = 1 -> p = 3%nat)
    /\ (1 <> 1 ->
        live sample_heap !! p = None
        /\ live h' !! 3%nat = Some (mk_num 0 17, 1 - 1)).
Proof.
  apply (bc_neg_negates sample_heap (live sample_heap) _ 3%nat
           (mk_num 0 17) 1 sample_heap_models).
  reflexivity.
Defined.

(** X11.  [bc_int2num] followed by [bc_num2long] gives back the [int] the
    routine received: the argument itself when it is an [int], for every
    [int] but [- LONG_MAX - 1] (an [int] only on a host whose [long] is no
    wider than its [int]).  The variable receives a cell that holds that
    [int] at scale 0 with one reference, and every live cell other than the
    old occupant of the variable is left as it was. *)
Theorem bc_int2num_num2long_roundtrip LONG_MAX INT_MAX h L E slot val :
  models h L E -> releasable L slot ->
  0 <= INT_MAX <= LONG_MAX ->
  let v := int_of_long INT_MAX val in
  v <> - LONG_MAX - 1 ->
  exists p h',
    Heap.bind (Heap.bc_int2num INT_MAX slot val)
      (fun num => Heap.bind (Heap.bc_num2long LONG_MAX num)
                    (fun l => Heap.ret (num, l))) h
    = Some ((Some p, v), h')
    /\ live h' !! p = Some (mk_num 0 v, 1)
    /\ frame L [slot] h'
    /\ (- INT_MAX - 1 <= val <= INT_MAX -> v = val).
Proof.
  intros Hm Hslot Hhost v Hv.
  pose proof (int_of_long_range INT_MAX val (proj1 Hhost)) as Hrange.
  fold v in Hrange.
  cut (wp (Heap.bind (Heap.bc_int2num INT_MAX slot val)
             (fun num => Heap.bind (Heap.bc_num2long LONG_MAX num)
                           (fun l => Heap.ret (num, l))))
         (fun ret h' => exists p,
            ret = (Some p, v)
            /\ live h' !! p = Some (mk_num 0 v, 1)
            /\ frame L [slot] h') h).
  { intros (ret & h' & Hrun & p & -> & Hcell & Hframe).
    exists p, h'. repeat split; try assumption.
    intros Hint. apply int_of_long_fits, Hint. }
  apply wp_bind. eapply wp_bc_int2num; [eassumption..|].
  fold v. intros p h' Hp Hm'.
  apply wp_bind. eapply wp_bc_num2long; [exact Hm'|apply lookup_insert_eq|].
  apply wp_ret. exists p. split.
  - f_equal. rewrite bc_num2long_cases by (cbn; lia).
    cbn [n_scale n_value]. rewrite Z.pow_0_r, Z.quot_1_r.
    destruct (Z.ltb_spec (- LONG_MAX - 1) v); [|lia].
    destruct (Z.leb_spec v LONG_MAX); [reflexivity|lia].
  - destruct Hm' as (_ & Hlive & _). unfold frame. rewrite Hlive.
    split; [apply lookup_insert_eq|].
    intros a w r Ha Hnot. exists r.
    assert (Hrel : release slot L !! a = Some (w, r)).
    { rewrite lookup_release_ne; [exact Ha|].
      intros ->. apply Hnot. now left. }
    rewrite lookup_insert_ne; [exact Hrel|]. intros ->. congruence.
Qed.

(** The most negative [int] written over the 5 of the example store, on a
    host with 64-bit [long] and 32-bit [int]. *)
Lemma bc_int2num_num2long_roundtrip_witness :
  exists p h',
    Heap.bind (Heap.bc_int2num (2 ^ 31 - 1) (Some 4%nat) (- 2 ^ 31))
      (fun num => Heap.bind (Heap.bc_num2long (2 ^ 63 - 1) num)
                    (fun l => Heap.ret (num, l))) sample_heap
    = Some ((Some p, int_of_long (2 ^ 31 - 1) (- 2 ^ 31)), h')
    /\ live h' !! p
       = Some (mk_num 0 (int_of_long (2 ^ 31 - 1) (- 2 ^ 31)), 1)
    /\ frame (live sample_heap) [Some 4%nat] h'
    /\ (- (2 ^ 31 - 1) - 1 <= - 2 ^ 31 <= 2 ^ 31 - 1 ->
        int_of_long (2 ^ 31 - 1) (- 2 ^ 31) = - 2 ^ 31).
Proof.
  apply (bc_int2num_num2long_roundtrip (2 ^ 63 - 1) (2 ^ 31 - 1) sample_heap
           (live sample_heap) _ (Some 4%nat) (- 2 ^ 31) sample_heap_models).
  - eexists. reflexivity.
  - lia.
  - vm_compute. discriminate.
Defined.

(** X25.  A call of [bc_raisemod] that is not refused warns the host about
    a non-zero scale of the base, of the exponent and of the modulus, in
    this order and about nothing else.  Afterwards the store is the old one
    with the old occupant of the result variable released and two more
    references: the one in the result variable, and one to the last
    remainder of the halving, which the routine holds in [parity] and does
    not release. *)
Theorem bc_raisemod_warnings_and_store h L z o t calls rz ro rt
    base vb rb expo ve re ma vm rm slot scale :
  models h L (Some z, Some o, Some t, calls) ->
  L !! z = Some (_zero_, rz) -> L !! o = Some (_one_, ro) ->
  L !! t = Some (_two_, rt) ->
  L !! base = Some (vb, rb) -> L !! expo = Some (ve, re) ->
  L !! ma = Some (vm, rm) ->
  releasable L slot ->
  n_value vm <> 0 -> 0 <= n_value ve ->
  exists res p yp yv S' h',
    Heap.bc_raisemod (Some base) (Some expo) (Some ma) slot scale h
    = Some ((0, Some p), h')
    /\ bc_raisemod vb ve vm scale = Some res
    /\ Heap.host_calls h'
       = ((calls
           ++ (if negb (n_scale vb =? 0)
               then [Heap.rt_warn "non-zero scale in base"] else []))
          ++ (if negb (n_scale ve =? 0)
              then [Heap.rt_warn "non-zero scale in exponent"] else []))
         ++ (if negb (n_scale vm =? 0)
             then [Heap.rt_warn "non-zero scale in modulus"] else [])
    /\ locals_inv L S' [(p, res); (yp, yv)]
    /\ live h' = release slot S'.
Proof.
  intros Hm Lz Lo Lt Lb Le Lm Hslot Hnz Hnn.
  destruct (bc_raisemod_total vb ve vm scale (bc_is_zero_false _ Hnz)
              (bc_is_neg_false _ Hnn)) as [res Hres].
  cut (wp (Heap.bc_raisemod (Some base) (Some expo) (Some ma) slot scale)
         (fun ret h' => exists p yp yv S',
            ret = (0, Some p)
            /\ Heap.host_calls h'
               = ((calls
                   ++ (if negb (n_scale vb =? 0)
                       then [Heap.rt_warn "non-zero scale in base"]
                       else []))
                  ++ (if negb (n_scale ve =? 0)
                      then [Heap.rt_warn "non-zero scale in exponent"]
                      else []))
                 ++ (if negb (n_scale vm =? 0)
                     then [Heap.rt_warn "non-zero scale in modulus"]
                     else [])
            /\ locals_inv L S' [(p, res); (yp, yv)]
            /\ live h' = release slot S') h).
  { intros (ret & h' & Hrun & p & yp & yv & S' & -> & H).
    exists res, p, yp, yv, S', h'. split; [exact Hrun|].
    split; [exact Hres|]. exact H. }
  eapply wp_bc_raisemod; [eassumption..| |].
  - intros Hnone. congruence.
  - intros res' p yp yv h' S' Hres' Hinv _ _ Hm'.
    rewrite Hres in Hres'. injection Hres' as <-.
    exists p, yp, yv, S'. split; [reflexivity|].
    destruct (models_constants _ _ _ _ _ _ Hm') as (_ & _ & _ & Hcalls).
    destruct Hm' as (_ & Hlive & _). auto.
Qed.

(** 17 ^ 5 mod 17 in the example store, the result written over the
    base. *)
Lemma bc_raisemod_warnings_and_store_witness :
  exists res p yp yv S' h',
    Heap.bc_raisemod (Some 3%nat) (Some 4%nat) (Some 3%nat) (Some 3%nat) 0
      sample_heap
    = Some ((0, Some p), h')
    /\ bc_raisemod (mk_num 0 17) (mk_num 0 5) (mk_num 0 17) 0 = Some res
    /\ Heap.host_calls h' = (([] ++ []) ++ []) ++ []
    /\ locals_inv (live sample_heap) S' [(p, res); (yp, yv)]
    /\ live h' = release (Some 3%nat) S'.
Proof.
  apply (bc_raisemod_warnings_and_store sample_heap (live sample_heap)
           0%nat 1%nat 2%nat [] 1 1 1
           3%nat (mk_num 0 17) 1 4%nat (mk_num 0 5) 1
           3%nat (mk_num 0 17) 1 (Some 3%nat) 0 sample_heap_models);
    try reflexivity.
  - eexists. reflexivity.
  - simpl. lia.
  - simpl. lia.
Defined.





Lemma MAX_comm a b : MAX a b = MAX b a.
Proof. rewrite !MAX_max. apply Z.max_comm. Qed.

(** X28.  [bc_add] and [bc_multiply] do not depend on the order of their
    operands: the same scale and the same integer are stored. *)
Theorem bc_add_multiply_commute (n1 n2 : number) (scale : Z) :
  bc_add n1 n2 scale = bc_add n2 n1 scale
  /\ bc_multiply n1 n2 scale = bc_multiply n2 n1 scale.
Proof.
  split.
  - unfold bc_add. rewrite (MAX_comm (n_scale n1)).
    assert (Hsum :
      (if n_scale n1 >? n_scale n2
       then n_value n1 + n_value n2 * 10 ^ (n_scale n1 - n_scale n2)
       else if n_scale n1 <? n_scale n2
            then n_value n1 * 10 ^ (n_scale n2 - n_scale n1) + n_value n2
            else n_value n1 + n_value n2)
      = (if n_scale n2 >? n_scale n1
         then n_value n2 + n_value n1 * 10 ^ (n_scale n2 - n_scale n1)
         else if n_scale n2 <? n_scale n1
              then n_value n2 * 10 ^ (n_scale n1 - n_scale n2) + n_value n1
              else n_value n2 + n_value n1)).
    { destruct (Z.gtb_spec (n_scale n1) (n_scale n2));
        destruct (Z.ltb_spec (n_scale n1) (n_scale n2));
        destruct (Z.gtb_spec (n_scale n2) (n_scale n1));
        destruct (Z.ltb_spec (n_scale n2) (n_scale n1));
        try lia; ring. }
    cbv zeta. now rewrite Hsum.
  - unfold bc_multiply.
    rewrite (Z.add_comm (n_scale n1)), (MAX_comm (n_scale n1)),
      (Z.mul_comm (n_value n1)). reflexivity.
Qed.

(** X29.  The routines for sums, products and quotients never call the
    host: after [bc_add], [bc_sub], [bc_multiply], [bc_divide], [bc_divmod]
    and [bc_modulo] the list of calls is the one before, whether the call
    is refused or not. *)
Theorem arithmetic_never_calls_host h L z op tp calls vz rz
    n1 v1 r1 n2 v2 r2 (slot slot2 : Heap.bc_num) scale :
  models h L (Some z, op, tp, calls) -> L !! z = Some (vz, rz) ->
  L !! n1 = Some (v1, r1) -> L !! n2 = Some (v2, r2) ->
  releasable L slot -> releasable (release slot L) slot2 ->
  wp (Heap.bc_add (Some n1) (Some n2) slot scale)
     (fun _ h' => Heap.host_calls h' = calls) h
  /\ wp (Heap.bc_sub (Some n1) (Some n2) slot scale)
       (fun _ h' => Heap.host_calls h' = calls) h
  /\ wp (Heap.bc_multiply (Some n1) (Some n2) slot scale)
       (fun _ h' => Heap.host_calls h' = calls) h
  /\ wp (Heap.bc_divide (Some n1) (Some n2) slot scale)
       (fun _ h' => Heap.host_calls h' = calls) h
  /\ wp (Heap.bc_divmod (Some n1) (Some n2) (Some slot2) slot scale)
       (fun _ h' => Heap.host_calls h' = calls) h
  /\ wp (Heap.bc_modulo (Some n1) (Some n2) slot scale)
       (fun _ h' => Heap.host_calls h' = calls) h.
Proof.
  intros Hm Hz H1 H2 Hslot Hslot2.
  assert (Hcalls : forall h' S,
    models h' S (Some z, op, tp, calls) -> Heap.host_calls h' = calls).
  { intros h' S Hm'.
    now destruct (models_constants _ _ _ _ _ _ Hm') as (_ & _ & _ & ->). }
  repeat split.
  - eapply wp_bc_add; [eassumption..|]. intros p h' _ Hm'. eapply Hcalls, Hm'.
  - eapply wp_bc_sub; [eassumption..|]. intros p h' _ Hm'. eapply Hcalls, Hm'.
  - eapply wp_bc_multiply; [eassumption..|].
    intros p h' _ Hm'. eapply Hcalls, Hm'.
  - eapply wp_bc_divide; [eassumption..| |].
    + intros _. eapply Hcalls, Hm.
    + intros q p h' _ _ Hm'. eapply Hcalls, Hm'.
  - eapply wp_bc_divmod; [eassumption..| |].
    + intros _. eapply Hcalls, Hm.
    + intros qv rv pr h' _ _ pq _ _ Hm'. eapply Hcalls, Hm'.
  - eapply wp_bc_modulo; [eassumption..| |].
    + intros _. eapply Hcalls, Hm.
    + intros rv p h' _ _ Hm'. eapply Hcalls, Hm'.
Qed.

(** 17 and 5 of the example store, the result over the 17. *)
Lemma arithmetic_never_calls_host_witness :
  wp (Heap.bc_divide (Some 3%nat) (Some 4%nat) (Some 3%nat) 2)
     (fun _ h' => Heap.host_calls h' = []) sample_heap.
Proof.
  destruct (arithmetic_never_calls_host sample_heap (live sample_heap)
              0%nat (Some 1%nat) (Some 2%nat) [] (mk_num 0 0) 1
              3%nat (mk_num 0 17) 1 4%nat (mk_num 0 5) 1
              (Some 3%nat) None 2
              sample_heap_models eq_refl eq_refl eq_refl
              (ex_intro _ _ eq_refl) I)
    as (_ & _ & _ & Hdiv & _).
  exact Hdiv.
Defined.
